(** * Tiny transformer components: a shallow embedding over the reals

    The notebook [tiny_transformer_components.ipynb] is a collection of NumPy
    functions.  Arrays of float64 are embedded as lists of real numbers (a 2-D
    array is the list of its rows); rounding is abstracted away.  What NumPy
    does beside returning a finite array is kept explicit:

    - an exception ([ValueError], [IndexError]) is the outcome [Raise];
    - a result that holds a NaN or an infinity (division by zero, a softmax
      row that is entirely [-inf], the mean of an empty array) is the outcome
      [NonFinite]: NumPy only warns there and the array it returns is not an
      array of reals;
    - the [-inf] that the causal mask writes into the scores is the value
      [NInf] of the type [ext].

    A list of rows does not record the number of columns of an array without
    rows, so the statements about 2-D arrays name the shape [T x D] and take
    the dimensions they divide by or reduce over to be positive.

    The process-wide random generator is an explicit state, the sequence of
    uniform draws from [0,1) that it is going to deliver.  [np.argsort] is a
    parameter of the sampling functions, constrained only by what NumPy
    documents: the order among equal values belongs to the sorting
    algorithm.

    Two effects of float64 are not rounding noise: [np.exp] underflows to
    exactly [0.0], which turns a softmax probability into zero, and the
    partial sums of [np.cumsum] reach exactly [1.0] before the last
    probability is added.  Where a statement depends on a probability being
    positive or on a cumulative sum staying below 1, the functions are taken
    with [np.exp] and the rounding of the partial sums as parameters;
    of both only what holds of the float functions is assumed ([exp_like],
    [rounding]).  [exp_float] and [round_at_one] are instances that
    underflow and that round to 1. *)

From Stdlib Require Import Reals Lra Lia List ZArith Bool Arith Permutation Sorted.
Import ListNotations.

Open Scope R_scope.

(** ** Outcomes of a NumPy computation *)

Inductive exn : Type := ValueError | IndexError.

Inductive outcome (A : Type) : Type :=
| Ok (a : A)
| Raise (e : exn)
| NonFinite.

Arguments Ok {A} a.
Arguments Raise {A} e.
Arguments NonFinite {A}.

Definition bind {A B : Type} (c : outcome A) (k : A -> outcome B) : outcome B :=
  match c with
  | Ok a => k a
  | Raise e => Raise e
  | NonFinite => NonFinite
  end.

Notation "x <- c ;; k" := (bind c (fun x => k))
  (at level 61, c at next level, right associativity).

Fixpoint mapM {A B : Type} (f : A -> outcome B) (l : list A) : outcome (list B) :=
  match l with
  | [] => Ok []
  | a :: t => b <- f a ;; bs <- mapM f t ;; Ok (b :: bs)
  end.

(** ** The NumPy operations the notebook uses *)

Module Np.

Definition matrix : Type := list (list R).

Definition sum (x : list R) : R := fold_right Rplus 0 x.

(** [a / b] on floats: a zero divisor yields NaN or an infinity. *)
Definition div (a b : R) : outcome R :=
  if Req_dec_T b 0 then NonFinite else Ok (a / b).

(** [np.mean] of a 1-D array; NaN on an empty one. *)
Definition mean (x : list R) : outcome R := div (sum x) (INR (length x)).

Definition nrows {A : Type} (m : list (list A)) : nat := length m.

(** [m.shape[-1]] of a 2-D array given by its rows. *)
Definition ncols {A : Type} (m : list (list A)) : nat :=
  match m with
  | [] => 0%nat
  | r :: _ => length r
  end.

Definition has_shape {A : Type} (T D : nat) (m : list (list A)) : Prop :=
  length m = T /\ Forall (fun r => length r = D) m.

(** Element-wise combination of two arrays along one axis under NumPy's
    broadcasting rule: equal lengths pair up, a length-1 side is stretched,
    anything else is a shape mismatch. *)
Definition bcast {A B C : Type} (f : A -> B -> outcome C)
    (x : list A) (y : list B) : outcome (list C) :=
  if Nat.eqb (length x) (length y)
  then mapM (fun ab => f (fst ab) (snd ab)) (combine x y)
  else match x, y with
       | [a], _ => mapM (f a) y
       | _, [b] => mapM (fun a => f a b) x
       | _, _ => Raise ValueError
       end.

Definition add_vec (x y : list R) : outcome (list R) :=
  bcast (fun a b => Ok (a + b)) x y.

(** [X + Y] for two 2-D arrays. *)
Definition add (X Y : matrix) : outcome matrix := bcast add_vec X Y.

(** [X + b] for a 2-D array and a 1-D array: [b] acts as a single row. *)
Definition add_row (X : matrix) (b : list R) : outcome matrix := add X [b].

Definition dot (u v : list R) : R :=
  sum (map (fun ab => fst ab * snd ab) (combine u v)).

Definition column (j : nat) (B : matrix) : list R :=
  map (fun r => nth j r 0) B.

(** [B.T] *)
Definition transpose (B : matrix) : matrix :=
  map (fun j => column j B) (seq 0 (ncols B)).

(** [A @ B]; the inner dimensions must agree. *)
Definition matmul (A B : matrix) : outcome matrix :=
  if forallb (fun r => Nat.eqb (length r) (length B)) A
  then Ok (map (fun r => map (fun j => dot r (column j B)) (seq 0 (ncols B))) A)
  else Raise ValueError.

(** Normalisation of one index against an axis of length [n]: negative
    indices count from the end, anything outside [-n, n) is an IndexError. *)
Definition norm_index (n : nat) (i : Z) : outcome nat :=
  if (0 <=? i)%Z && (i <? Z.of_nat n)%Z then Ok (Z.to_nat i)
  else if (- Z.of_nat n <=? i)%Z && (i <? 0)%Z then Ok (Z.to_nat (i + Z.of_nat n))
  else Raise IndexError.

(** [a[i]] for one integer [i]. *)
Definition item {A : Type} (a : list A) (i : Z) : outcome A :=
  k <- norm_index (length a) i ;;
  match nth_error a k with
  | Some v => Ok v
  | None => Raise IndexError
  end.

(** [a[idx]] with an integer array [idx] (fancy indexing along axis 0). *)
Definition take {A : Type} (a : list A) (idx : list Z) : outcome (list A) :=
  mapM (item a) idx.

(** [m[rows, cols]] with two integer arrays: the entries at the paired
    positions. *)
Definition take2 {A : Type} (m : list (list A)) (rows cols : list Z)
    : outcome (list A) :=
  bcast (fun i j => row <- item m i ;; item row j) rows cols.

(** [np.arange(n)] *)
Definition arange (n : nat) : list Z := map Z.of_nat (seq 0 n).

(** [np.log]: [-inf] at zero, NaN below. *)
Definition log (p : R) : outcome R :=
  if Rlt_dec 0 p then Ok (ln p) else NonFinite.

(** [np.std]: [sqrt(mean(abs(x - x.mean())**2))]. *)
Definition std (x : list R) : outcome R :=
  m <- mean x ;;
  v <- mean (map (fun a => Rabs (a - m) ^ 2) x) ;;
  Ok (sqrt v).

(** [np.cumsum] *)
Fixpoint cumsum_from (acc : R) (x : list R) : list R :=
  match x with
  | [] => []
  | v :: t => (acc + v) :: cumsum_from (acc + v) t
  end.

Definition cumsum (x : list R) : list R := cumsum_from 0 x.

(** [np.searchsorted(a, v)], side ['left']: the first index [i] with
    [v <= a[i]], the length when there is none.  NumPy finds it by binary
    search, which returns this index on a sorted array. *)
Fixpoint searchsorted (a : list R) (v : R) : nat :=
  match a with
  | [] => 0%nat
  | x :: t => if Rle_dec v x then 0%nat else S (searchsorted t v)
  end.

(** side ['right']: the first index [i] with [v < a[i]]. *)
Fixpoint searchsorted_right (a : list R) (v : R) : nat :=
  match a with
  | [] => 0%nat
  | x :: t => if Rlt_dec v x then 0%nat else S (searchsorted_right t v)
  end.

End Np.

(** ** Scores: reals and the [-inf] of the causal mask *)

Inductive ext : Type :=
| Fin (r : R)
| NInf.

Definition is_fin (v : ext) : Prop :=
  match v with
  | Fin _ => True
  | NInf => False
  end.

Definition ext_max (a b : ext) : ext :=
  match a, b with
  | Fin x, Fin y => Fin (Rmax x y)
  | Fin x, NInf => Fin x
  | NInf, _ => b
  end.

(** [np.max(x, axis=-1)] along one row; no identity on an empty axis. *)
Definition amax (x : list ext) : outcome ext :=
  match x with
  | [] => Raise ValueError
  | v :: t => Ok (fold_left ext_max t v)
  end.

(** [np.exp(v - m)] for a finite [m]: [exp(-inf)] is [0].  The exponential is
    the exact one; [exp_shift_with] below takes the float function. *)
Definition exp_shift (m : R) (v : ext) : R :=
  match v with
  | Fin r => exp (r - m)
  | NInf => 0
  end.

(** [softmax] on a 1-D array.  When the maximum is [-inf] the whole row is,
    [x - max] is NaN and so is the result. *)
Definition softmax (x : list ext) : outcome (list R) :=
  m <- amax x ;;
  match m with
  | NInf => NonFinite
  | Fin m =>
      let e := map (exp_shift m) x in
      mapM (fun v => Np.div v (Np.sum e)) e
  end.

(** [softmax] on a 2-D array: [axis=-1] works row by row. *)
Definition softmax2 (x : list (list ext)) : outcome Np.matrix := mapM softmax x.

(** The distribution the glossary describes: exponentiate, then normalise by
    the sum. *)
Definition softmax_spec (x : list R) : list R :=
  map (fun v => exp v / Np.sum (map exp x)) x.

(** ** Views of arrays used in the statements *)

Definition entry (m : Np.matrix) (i j : nat) : R := nth j (nth i m []) 0.

Definition zip_with {A B C : Type} (f : A -> B -> C) (x : list A) (y : list B)
    : list C :=
  map (fun ab => f (fst ab) (snd ab)) (combine x y).

(** ** 1. Token embedding *)

Section Embedding.

(** The notebook draws the table once, [np.random.randn(vocab_size,
    embedding_dim)]; nothing below depends on its entries. *)
Variable embedding_matrix : Np.matrix.

Definition tokens_to_embeddings (tokens : list Z) : outcome Np.matrix :=
  Np.take embedding_matrix tokens.

End Embedding.

(** A table of the notebook's size, five ids and four dimensions. *)
Definition sample_embedding : Np.matrix :=
  [[0; 0; 0; 0]; [1; 1; 1; 1]; [2; 2; 2; 2]; [3; 3; 3; 3]; [4; 4; 4; 4]].

(** The row that id [t] selects in a table of [n] rows, once ids below zero
    are counted from the end. *)
Definition row_of (n : nat) (t : Z) : nat :=
  if (t <? 0)%Z then Z.to_nat (t + Z.of_nat n) else Z.to_nat t.

(** ** 2. Scaled dot-product attention with causal mask *)

(** [f] applied to every element together with its position. *)
Definition imap {A B : Type} (f : nat -> A -> B) (l : list A) : list B :=
  map (fun p => f (fst p) (snd p)) (combine (seq 0 (length l)) l).

Definition ones (n m : nat) : Np.matrix := repeat (repeat 1 m) n.

(** [np.tril]: entries above the diagonal become zero. *)
Definition tril (M : Np.matrix) : Np.matrix :=
  imap (fun i row => imap (fun j v => if (j <=? i)%nat then v else 0) row) M.

Definition causal_mask (size : nat) : Np.matrix := tril (ones size size).

(** [np.where(mask == 1, scores, -np.inf)] *)
Definition where_mask (mask scores : Np.matrix) : outcome (list (list ext)) :=
  Np.bcast (Np.bcast (fun m s => Ok (if Req_dec_T m 1 then Fin s else NInf)))
    mask scores.

(** The local [weights] of [scaled_dot_product_attention]. *)
Definition attention_weights (Q K : Np.matrix) : outcome Np.matrix :=
  let d_k := Np.ncols Q in
  qk <- Np.matmul Q (Np.transpose K) ;;
  scores <- mapM (mapM (fun v => Np.div v (sqrt (INR d_k)))) qk ;;
  let mask := causal_mask (Np.nrows Q) in
  scores <- where_mask mask scores ;;
  softmax2 scores.

Definition scaled_dot_product_attention (Q K V : Np.matrix) : outcome Np.matrix :=
  weights <- attention_weights Q K ;;
  Np.matmul weights V.

(** ** 3. Layer normalisation *)

(** Mean and population standard deviation of a row, as the specification
    names them. *)
Definition row_mean (row : list R) : R := Np.sum row / INR (length row).

Definition row_pstd (row : list R) : R :=
  sqrt (Np.sum (map (fun v => (v - row_mean row) ^ 2) row) / INR (length row)).

(** One row of [layer_norm].  With [keepdims=True] the mean and the deviation
    of a row are broadcast over that row only; on a row without entries they
    are NaN but meet no entry, and the row stays empty. *)
Definition layer_norm_row (eps : R) (row : list R) : outcome (list R) :=
  match row with
  | [] => Ok []
  | _ =>
      mean <- Np.mean row ;;
      std <- Np.std row ;;
      mapM (fun v => Np.div (v - mean) (std + eps)) row
  end.

Definition layer_norm (x : Np.matrix) (eps : R) : outcome Np.matrix :=
  mapM (layer_norm_row eps) x.

(** The default [eps=1e-6]. *)
Definition eps_default : R := / 1000000.

(** ** 4. Dropout *)

(** The state of [np.random]: the uniform draws from [0,1) still to come. *)
Definition rng : Type := nat -> R.

Definition rng_valid (g : rng) : Prop := forall n, 0 <= g n < 1.

(** [n] draws, and the generator after them. *)
Definition rand (g : rng) (n : nat) : list R * rng :=
  (map g (seq 0 n), fun i => g (n + i)%nat).

(** [np.random.rand(T, D)]: [T * D] draws in row-major order. *)
Fixpoint rand2 (g : rng) (T D : nat) : Np.matrix * rng :=
  match T with
  | O => ([], g)
  | S T' =>
      let (r, g1) := rand g D in
      let (m, g2) := rand2 g1 T' D in
      (r :: m, g2)
  end.

Definition mul (X Y : Np.matrix) : outcome Np.matrix :=
  Np.bcast (Np.bcast (fun a b => Ok (a * b))) X Y.

Definition dropout (x : Np.matrix) (p : R) (g : rng) : outcome Np.matrix * rng :=
  let (r, g') := rand2 g (Np.nrows x) (Np.ncols x) in
  let mask := map (map (fun u => if Rgt_dec u p then 1 else 0)) r in
  (xm <- mul x mask ;; mapM (mapM (fun v => Np.div v (1 - p))) xm, g').

(** ** 5. Feed-forward network *)

Definition relu (x : Np.matrix) : Np.matrix := map (map (Rmax 0)) x.

Definition feed_forward (x W1 : Np.matrix) (b1 : list R) (W2 : Np.matrix)
    (b2 : list R) : outcome Np.matrix :=
  h <- Np.matmul x W1 ;;
  h <- Np.add_row h b1 ;;
  o <- Np.matmul (relu h) W2 ;;
  Np.add_row o b2.

(** ** 6. Transformer block with skip connections *)

Definition transformer_block (x W_q W_k W_v W1 : Np.matrix) (b1 : list R)
    (W2 : Np.matrix) (b2 : list R) : outcome Np.matrix :=
  Q <- Np.matmul x W_q ;;
  K <- Np.matmul x W_k ;;
  V <- Np.matmul x W_v ;;
  attn <- scaled_dot_product_attention Q K V ;;
  s <- Np.add x attn ;;
  x <- layer_norm s eps_default ;;
  ffn <- feed_forward x W1 b1 W2 b2 ;;
  s <- Np.add x ffn ;;
  layer_norm s eps_default.

(** The composition as the specification words it, over the same primitives:
    [y = layer_norm(x + attention(x W_q, x W_k, x W_v))], then
    [layer_norm(y + feed_forward(y))]. *)
Definition post_norm_sublayer (x : Np.matrix) (sub : outcome Np.matrix)
    : outcome Np.matrix :=
  o <- sub ;; s <- Np.add x o ;; layer_norm s eps_default.

Definition block_spec (x W_q W_k W_v W1 : Np.matrix) (b1 : list R)
    (W2 : Np.matrix) (b2 : list R) : outcome Np.matrix :=
  y <- post_norm_sublayer x
         (Q <- Np.matmul x W_q ;; K <- Np.matmul x W_k ;; V <- Np.matmul x W_v ;;
          scaled_dot_product_attention Q K V) ;;
  post_norm_sublayer y (feed_forward y W1 b1 W2 b2).

(** ** 8. Cross-entropy loss *)

Definition cross_entropy_loss (logits : Np.matrix) (targets : list Z) : outcome R :=
  probs <- softmax2 (map (map Fin) logits) ;;
  picked <- Np.take2 probs (Np.arange (length targets)) targets ;;
  loss <- mapM (fun p => l <- Np.log p ;; Ok (- l)) picked ;;
  Np.mean loss.

(** The loss as the specification words it: the mean over the rows of the
    negated logarithm of the softmax probability at the row's target. *)
Definition cross_entropy_spec (logits : Np.matrix) (targets : list nat) : R :=
  Np.sum (map (fun rt => - ln (nth (snd rt) (softmax_spec (fst rt)) 0))
            (combine logits targets))
  / INR (length logits).

(** ** 9. Text generation strategies *)

(** [a[start:]] *)
Definition slice_from {A : Type} (start : Z) (l : list A) : list A :=
  let n := Z.of_nat (length l) in
  let s := if (start <? 0)%Z then Z.max 0 (n + start) else Z.min start n in
  skipn (Z.to_nat s) l.

(** [a[:stop]] for [stop >= 0]. *)
Definition slice_to {A : Type} (stop : nat) (l : list A) : list A := firstn stop l.

(** The tolerance of [np.random.choice] on the sum of [p]:
    [sqrt(finfo(float64).eps)], that is [2^-26]. *)
Definition choice_atol : R := / 67108864.

(** [np.random.choice(a, p=p)] for a 1-D array [a]: the arguments are
    validated, then one uniform draw is looked up in the normalised
    cumulative sums of [p]. *)
Definition choice (a : list nat) (p : list R) (g : rng) : outcome nat * rng :=
  if Nat.eqb (length a) 0 then (Raise ValueError, g)
  else if negb (Nat.eqb (length p) (length a)) then (Raise ValueError, g)
  else if existsb (fun v => if Rlt_dec v 0 then true else false) p
       then (Raise ValueError, g)
  else if Rgt_dec (Rabs (Np.sum p - 1)) choice_atol then (Raise ValueError, g)
  else
    let cdf := Np.cumsum p in
    let (u, g') := rand g 1 in
    (cdf <- mapM (fun c => Np.div c (last cdf 0)) cdf ;;
     let idx := Np.searchsorted_right cdf (hd 0 u) in
     match nth_error a idx with
     | Some v => Ok v
     | None => Raise IndexError
     end, g').

(** What [np.argsort] guarantees: a permutation of the positions that lists
    the values in non-decreasing order.  The order among equal values is left
    to the sorting algorithm. *)
Definition is_argsort (x : list R) (idx : list nat) : Prop :=
  Permutation idx (seq 0 (length x)) /\
  forall a b, (a < b < length idx)%nat ->
              nth (nth a idx 0%nat) x 0 <= nth (nth b idx 0%nat) x 0.

(** Order of two positions by the values they hold. *)
Definition le_key (x : list R) (i j : nat) : Prop := nth i x 0 <= nth j x 0.

(** One such sort: stable insertion, ties in ascending position. *)
Fixpoint insert_by (x : list R) (i : nat) (l : list nat) : list nat :=
  match l with
  | [] => [i]
  | j :: t =>
      if Rle_dec (nth i x 0) (nth j x 0) then i :: l else j :: insert_by x i t
  end.

Definition argsort_stable (x : list R) : list nat :=
  fold_right (insert_by x) [] (seq 0 (length x)).

Definition index_array (idx : list nat) : list Z := map Z.of_nat idx.

(** [softmax(logits[idx])] *)
Definition softmax_at (logits : list R) (idx : list nat) : outcome (list R) :=
  sel <- Np.take logits (index_array idx) ;;
  softmax (map Fin sel).

(** The entries of [x] at the positions [idx]. *)
Definition gather (x : list R) (idx : list nat) : list R :=
  map (fun i => nth i x 0) idx.

(** A distribution restricted to the ids [idx] and divided by its sum there. *)
Definition renormalize (P : list R) (idx : list nat) : list R :=
  map (fun i => nth i P 0 / Np.sum (gather P idx)) idx.

(** The probability mass that [P] gives to the first [m] ids of [order]. *)
Definition prefix_mass (P : list R) (order : list nat) (m : nat) : R :=
  Np.sum (gather P (firstn m order)).

Definition with_outcome {A B : Type} (c : outcome A)
    (k : A -> rng -> outcome B * rng) (g : rng) : outcome B * rng :=
  match c with
  | Ok a => k a g
  | Raise e => (Raise e, g)
  | NonFinite => (NonFinite, g)
  end.

Section Sampling.

Variable argsort : list R -> list nat.

(** The local [idx] of [top_k_sampling]. *)
Definition top_k_idx (logits : list R) (k : Z) : list nat :=
  slice_from (- k) (argsort logits).

Definition top_k_sampling (logits : list R) (k : Z) (g : rng) : outcome nat * rng :=
  let idx := top_k_idx logits k in
  with_outcome (softmax_at logits idx) (fun probs => choice idx probs) g.

(** The local [selected] of [top_p_sampling], with exact cumulative sums;
    [top_p_selected_with] below rounds them. *)
Definition top_p_selected (logits : list R) (p : R) : outcome (list nat) :=
  let sorted_idx := rev (argsort logits) in
  sorted_probs <- softmax_at logits sorted_idx ;;
  let cum_probs := Np.cumsum sorted_probs in
  let cutoff := Np.searchsorted cum_probs p in
  Ok (slice_to (cutoff + 1) sorted_idx).

Definition top_p_sampling (logits : list R) (p : R) (g : rng) : outcome nat * rng :=
  with_outcome (top_p_selected logits p) (fun selected =>
    with_outcome (softmax_at logits selected) (fun probs =>
      choice selected probs)) g.

End Sampling.

(** ** Functions of the notebook beside the ones above *)

(** [np.argmax] along one row: the position of the first occurrence of the
    maximum; an empty row has none. *)
Fixpoint argmax_from (best : nat) (bv : R) (i : nat) (x : list R) : nat :=
  match x with
  | [] => best
  | v :: t =>
      if Rlt_dec bv v then argmax_from i v (S i) t
      else argmax_from best bv (S i) t
  end.

Definition argmax (x : list R) : outcome nat :=
  match x with
  | [] => Raise ValueError
  | v :: t => Ok (argmax_from 0 v 1 t)
  end.

Section Deembedding.

Variable embedding_matrix : Np.matrix.

Definition embeddings_to_tokens (embeddings : Np.matrix) : outcome (list nat) :=
  logits <- Np.matmul embeddings (Np.transpose embedding_matrix) ;;
  mapM argmax logits.

End Deembedding.

(** 7. Output layer *)
Definition output_layer (x W_out : Np.matrix) (b_out : list R) : outcome Np.matrix :=
  o <- Np.matmul x W_out ;;
  Np.add_row o b_out.

(** 9. Temperature sampling.  [np.random.choice(n, p=p)] with an integer [n]
    draws from [arange(n)].  When the scaled logits are not finite ([T = 0])
    so are the probabilities, and [choice] rejects them with ValueError
    before it draws. *)
Definition temperature_sampling (logits : list R) (T : R) (g : rng)
    : outcome nat * rng :=
  match (scaled <- mapM (fun v => Np.div v T) logits ;; softmax (map Fin scaled)) with
  | Ok p => choice (seq 0 (length logits)) p g
  | Raise e => (Raise e, g)
  | NonFinite => (Raise ValueError, g)
  end.

(** Row [i] of causal attention written out: the softmax of the scaled dot
    products of one query with the keys it may see, used as weights on the
    value rows at the same positions. *)
Definition attention_row (D : nat) (q : list R) (Ks Vs : Np.matrix) : list R :=
  let w := softmax_spec (map (fun k => Np.dot q k / sqrt (INR D)) Ks) in
  map (fun j => Np.dot w (Np.column j Vs)) (seq 0 D).

(** One row through the feed-forward network: [relu(r W1 + b1) W2 + b2]. *)
Definition feed_forward_row (W1 : Np.matrix) (b1 : list R) (W2 : Np.matrix)
    (b2 : list R) (r : list R) : list R :=
  let h := zip_with Rplus
             (map (fun j => Np.dot r (Np.column j W1)) (seq 0 (length b1))) b1 in
  zip_with Rplus
    (map (fun j => Np.dot (map (Rmax 0) h) (Np.column j W2)) (seq 0 (length b2))) b2.

(** The array [layer_norm] returns when [eps > 0]. *)
Definition normalized (eps : R) (x : Np.matrix) : Np.matrix :=
  map (fun row => map (fun v => (v - row_mean row) / (row_pstd row + eps)) row) x.

(** [x @ W] for a weight matrix with [D] columns. *)
Definition project (D : nat) (W x : Np.matrix) : Np.matrix :=
  map (fun r => map (fun j => Np.dot r (Np.column j W)) (seq 0 D)) x.

(** The output of the block from its input and the output of attention. *)
Definition block_output (W1 : Np.matrix) (b1 : list R) (W2 : Np.matrix)
    (b2 : list R) (x attn : Np.matrix) : Np.matrix :=
  let y := normalized eps_default (zip_with (zip_with Rplus) x attn) in
  normalized eps_default
    (zip_with (zip_with Rplus) y (map (feed_forward_row W1 b1 W2 b2) y)).

(** ** Where float64 differs in kind: underflow and sums that reach 1.0

    The functions above use the exact exponential, which is positive
    everywhere, and exact sums.  On float64 two things are different in kind
    and not only by rounding noise:

    - [np.exp] returns exactly [0.0] once its argument is below about
      -745.13, and that is how a softmax probability becomes zero;
    - [np.cumsum] rounds every partial sum, so the cumulative probabilities
      reach exactly [1.0] as soon as what is left is below half an ulp.

    The functions of this part are the notebook's again, with [np.exp] as a
    parameter [np_exp] and the rounding of a partial sum in [np.cumsum] as a
    parameter [np_round]; they are the ones above when [np_exp] is [exp] and
    [np_round] changes nothing (lemmas [softmax_exact],
    [cross_entropy_loss_exact], [top_p_sampling_exact]).  The other sums and
    the quotients stay exact. *)

(** What the statements ask of [np_exp], all true of float64 [np.exp]:
    it is never negative, [np_exp 0] is [1], and it does not exceed [1] on
    arguments [<= 0]. *)
Definition exp_like (e : R -> R) : Prop :=
  (forall x, 0 <= e x) /\ e 0 = 1 /\ (forall x, x <= 0 -> e x <= 1).

(** An exponential with the underflow of float64.  [np.exp] returns [0.0] on
    every argument below [log(2^-1075)], about -745.13; the cut is put at
    -746, below which the result is certainly [0.0], and above it the value
    is the exact one. *)
Definition exp_float (x : R) : R := if Rlt_dec x (- 746) then 0 else exp x.

(** What the statements ask of the rounding of a partial sum, both true of
    rounding to float64: it keeps the order, and a rounded value is rounded
    to itself. *)
Definition rounding (fl : R -> R) : Prop :=
  (forall a b, a <= b -> fl a <= fl b) /\ (forall x, fl (fl x) = fl x).

(** A rounding that does what float64 does next to 1: a value within
    [2^-54] of 1 becomes [1.0]; every other value is kept. *)
Definition round_at_one (x : R) : R :=
  if Rle_dec (Rabs (x - 1)) (/ 2 ^ 54) then 1 else x.

(** [np.cumsum] with every partial sum rounded by [fl]. *)
Fixpoint cumsum_from_with (fl : R -> R) (acc : R) (x : list R) : list R :=
  match x with
  | [] => []
  | v :: t => fl (acc + v) :: cumsum_from_with fl (fl (acc + v)) t
  end.

Definition cumsum_with (fl : R -> R) (x : list R) : list R :=
  cumsum_from_with fl 0 x.

(** The largest entry of a row, the value [np.max] finds. *)
Definition row_max (x : list R) : R :=
  match x with
  | [] => 0
  | a :: t => fold_left Rmax t a
  end.

Section FloatExp.

Variable np_exp : R -> R.

Definition exp_shift_with (m : R) (v : ext) : R :=
  match v with
  | Fin r => np_exp (r - m)
  | NInf => 0
  end.

Definition softmax_with (x : list ext) : outcome (list R) :=
  m <- amax x ;;
  match m with
  | NInf => NonFinite
  | Fin m =>
      let e := map (exp_shift_with m) x in
      mapM (fun v => Np.div v (Np.sum e)) e
  end.

Definition softmax2_with (x : list (list ext)) : outcome Np.matrix :=
  mapM softmax_with x.

Definition softmax_at_with (logits : list R) (idx : list nat) : outcome (list R) :=
  sel <- Np.take logits (index_array idx) ;;
  softmax_with (map Fin sel).

(** The row [softmax_with] returns on a non-empty real row. *)
Definition softmax_value (x : list R) : list R :=
  map (fun v => np_exp (v - row_max x)
                / Np.sum (map (fun w => np_exp (w - row_max x)) x)) x.

Definition cross_entropy_loss_with (logits : Np.matrix) (targets : list Z)
    : outcome R :=
  probs <- softmax2_with (map (map Fin) logits) ;;
  picked <- Np.take2 probs (Np.arange (length targets)) targets ;;
  loss <- mapM (fun p => l <- Np.log p ;; Ok (- l)) picked ;;
  Np.mean loss.

(** The probabilities the loss reads: for each target, the softmax
    probability of its row at the target's class. *)
Definition picked_probs (N : nat) (logits : Np.matrix) (targets : list Z) : list R :=
  zip_with (fun row t => nth (row_of N t) row 0) (map softmax_value logits) targets.

Section SamplingWith.

Variable np_round : R -> R.
Variable argsort : list R -> list nat.

Definition top_p_selected_with (logits : list R) (p : R) : outcome (list nat) :=
  let sorted_idx := rev (argsort logits) in
  sorted_probs <- softmax_at_with logits sorted_idx ;;
  let cum_probs := cumsum_with np_round sorted_probs in
  let cutoff := Np.searchsorted cum_probs p in
  Ok (slice_to (cutoff + 1) sorted_idx).

Definition top_p_sampling_with (logits : list R) (p : R) (g : rng)
    : outcome nat * rng :=
  with_outcome (top_p_selected_with logits p) (fun selected =>
    with_outcome (softmax_at_with logits selected) (fun probs =>
      choice selected probs)) g.

End SamplingWith.

End FloatExp.

(** * Properties *)

(** ** The outcome monad and [mapM] *)

Lemma mapM_Ok {A B : Type} (f : A -> outcome B) (g : A -> B) (l : list A) :
  (forall a, In a l -> f a = Ok (g a)) -> mapM f l = Ok (map g l).
Proof.
  induction l as [|a t IH]; intros H; simpl; [reflexivity|].
  rewrite (H a (or_introl eq_refl)). simpl.
  rewrite IH by (intros b Hb; apply H; right; exact Hb).
  reflexivity.
Qed.

Lemma mapM_inv {A B : Type} (f : A -> outcome B) (l : list A) (bs : list B) :
  mapM f l = Ok bs -> Forall2 (fun a b => f a = Ok b) l bs.
Proof.
  revert bs. induction l as [|a t IH]; intros bs H; simpl in H.
  - injection H as <-. constructor.
  - destruct (f a) as [b| |] eqn:Ha; simpl in H; try discriminate.
    destruct (mapM f t) as [bs'| |] eqn:Ht; simpl in H; try discriminate.
    injection H as <-. constructor; [exact Ha|apply IH; reflexivity].
Qed.

Lemma mapM_total {A B : Type} (f : A -> outcome B) (P : A -> B -> Prop) (l : list A) :
  (forall a, In a l -> exists b, f a = Ok b /\ P a b) ->
  exists bs, mapM f l = Ok bs /\ Forall2 P l bs.
Proof.
  induction l as [|a t IH]; intros H; simpl.
  - exists []. split; [reflexivity|constructor].
  - destruct (H a (or_introl eq_refl)) as [b [Hb Pb]].
    destruct IH as [bs [Hbs Pbs]]; [intros c Hc; apply H; right; exact Hc|].
    exists (b :: bs). rewrite Hb, Hbs. split; [reflexivity|constructor; assumption].
Qed.

Lemma Forall2_nth {A B : Type} (P : A -> B -> Prop) (l : list A) (bs : list B)
    (da : A) (db : B) (i : nat) :
  Forall2 P l bs -> (i < length l)%nat -> P (nth i l da) (nth i bs db).
Proof.
  intros H. revert i. induction H as [|a b l bs Hab _ IH]; intros i Hi; simpl in *.
  - lia.
  - destruct i; [exact Hab|apply IH; lia].
Qed.

Lemma Forall2_length' {A B : Type} (P : A -> B -> Prop) (l : list A) (bs : list B) :
  Forall2 P l bs -> length bs = length l.
Proof. induction 1; simpl; congruence. Qed.

(** ** Sums *)

Lemma div_Ok (a b : R) : b <> 0 -> Np.div a b = Ok (a / b).
Proof.
  intros Hb. unfold Np.div. destruct (Req_dec_T b 0); [contradiction|reflexivity].
Qed.

Lemma sum_app (x y : list R) : Np.sum (x ++ y) = Np.sum x + Np.sum y.
Proof. induction x as [|a t IH]; simpl; [lra|rewrite IH; lra]. Qed.

Lemma sum_map_div (x : list R) (s : R) :
  Np.sum (map (fun v => v / s) x) = Np.sum x / s.
Proof.
  induction x as [|a t IH]; simpl; [unfold Rdiv; lra|].
  rewrite IH. unfold Rdiv. lra.
Qed.

Lemma sum_map_scale {A : Type} (f : A -> R) (c : R) (x : list A) :
  Np.sum (map (fun a => c * f a) x) = c * Np.sum (map f x).
Proof. induction x as [|a t IH]; simpl; [lra|rewrite IH; lra]. Qed.

Lemma sum_nonneg (x : list R) : Forall (fun v => 0 <= v) x -> 0 <= Np.sum x.
Proof. induction 1; simpl; lra. Qed.

Lemma sum_pos (x : list R) :
  Forall (fun v => 0 <= v) x -> Exists (fun v => 0 < v) x -> 0 < Np.sum x.
Proof.
  intros Hall Hex. induction Hex as [a t Ha|a t _ IH]; simpl.
  - inversion Hall; subst. pose proof (sum_nonneg _ H2). lra.
  - inversion Hall; subst. specialize (IH H2). lra.
Qed.

Lemma sum_zeros (x : list R) : Forall (fun v => v = 0) x -> Np.sum x = 0.
Proof. induction 1; simpl; lra. Qed.

Lemma sum_firstn_skipn (n : nat) (x : list R) :
  Np.sum x = Np.sum (firstn n x) + Np.sum (skipn n x).
Proof. rewrite <- sum_app, firstn_skipn. reflexivity. Qed.

(** ** Softmax *)

Lemma fold_max_fin (t : list ext) (a : R) :
  exists m, fold_left ext_max t (Fin a) = Fin m.
Proof.
  revert a. induction t as [|v t IH]; intros a; simpl; [eauto|].
  destruct v; simpl; apply IH.
Qed.

Lemma amax_fin (x : list ext) :
  Exists is_fin x -> exists m, amax x = Ok (Fin m).
Proof.
  intros H. destruct x as [|v t]; [inversion H|]. simpl.
  revert v H. induction t as [|w t IH]; intros v H.
  - destruct v as [a|]; [exists a; reflexivity|].
    inversion H; subst; [contradiction|inversion H1].
  - destruct v as [a|].
    + destruct (fold_max_fin (w :: t) a) as [m Hm]. exists m. rewrite Hm. reflexivity.
    + simpl. apply IH. inversion H; subst; [contradiction|assumption].
Qed.

Lemma exp_shift_nonneg (m : R) (v : ext) : 0 <= exp_shift m v.
Proof. destruct v; simpl; [left; apply exp_pos|lra]. Qed.

Lemma exp_shift_sum_pos (m : R) (x : list ext) :
  Exists is_fin x -> 0 < Np.sum (map (exp_shift m) x).
Proof.
  intros H. apply sum_pos.
  - apply Forall_forall. intros v Hv. apply in_map_iff in Hv.
    destruct Hv as [w [<- _]]. apply exp_shift_nonneg.
  - apply Exists_exists in H. destruct H as [w [Hw Hf]].
    apply Exists_exists. exists (exp_shift m w). split; [apply in_map; exact Hw|].
    destruct w; [apply exp_pos|contradiction].
Qed.

(** A row with one finite entry at least has a finite maximum [m], and its
    softmax divides each [exp(v - m)] by their sum. *)
Lemma softmax_row_ok (x : list ext) :
  Exists is_fin x ->
  exists m, amax x = Ok (Fin m) /\
    softmax x =
      Ok (map (fun v => exp_shift m v / Np.sum (map (exp_shift m) x)) x).
Proof.
  intros H. destruct (amax_fin x H) as [m Hm]. exists m. split; [exact Hm|].
  unfold softmax. rewrite Hm. simpl.
  rewrite (mapM_Ok _ (fun v => v / Np.sum (map (exp_shift m) x))).
  - rewrite map_map. reflexivity.
  - intros a _. apply div_Ok. pose proof (exp_shift_sum_pos m x H). lra.
Qed.

(** The weights of such a row are non-negative, zero exactly at the [-inf]
    entries, and sum to one. *)
Lemma softmax_row_props (x : list ext) :
  Exists is_fin x ->
  exists y, softmax x = Ok y /\ length y = length x /\
    Forall (fun v => 0 <= v) y /\ Np.sum y = 1 /\
    forall j, (j < length x)%nat ->
      (nth j x NInf = NInf -> nth j y 0 = 0) /\
      (is_fin (nth j x NInf) -> 0 < nth j y 0).
Proof.
  intros H. destruct (softmax_row_ok _ H) as [m [_ Hs]].
  pose proof (exp_shift_sum_pos m x H) as Hpos.
  set (S := Np.sum (map (exp_shift m) x)) in *.
  eexists. split; [exact Hs|]. split; [apply length_map|]. split; [|split].
  - apply Forall_forall. intros v Hv. apply in_map_iff in Hv.
    destruct Hv as [w [<- _]]. pose proof (exp_shift_nonneg m w).
    apply Rmult_le_pos; [assumption|left; apply Rinv_0_lt_compat; exact Hpos].
  - rewrite <- (map_map (exp_shift m) (fun v => v / S)), sum_map_div.
    fold S. field. lra.
  - intros j Hj.
    rewrite (nth_indep _ 0 (exp_shift m NInf / S))
      by (rewrite length_map; exact Hj).
    rewrite (map_nth (fun v => exp_shift m v / S)). split.
    + intros ->. simpl. unfold Rdiv. lra.
    + destruct (nth j x NInf); [intros _|contradiction]. simpl.
      apply Rmult_lt_0_compat; [apply exp_pos|apply Rinv_0_lt_compat; exact Hpos].
Qed.

Lemma fin_row_exists (x : list R) : x <> [] -> Exists is_fin (map Fin x).
Proof. destruct x; [congruence|]. intros _. left. exact I. Qed.

Lemma exp_shift_fin_sum (m : R) (x : list R) :
  Np.sum (map (exp_shift m) (map Fin x)) = exp (- m) * Np.sum (map exp x).
Proof.
  rewrite map_map. simpl. rewrite <- sum_map_scale. f_equal.
  apply map_ext. intros a. rewrite <- exp_plus. f_equal. lra.
Qed.

(** On finite rows the stable [softmax] of the notebook is the textbook one:
    subtracting the row maximum changes nothing. *)
Lemma softmax_fin (x : list R) :
  x <> [] -> softmax (map Fin x) = Ok (softmax_spec x).
Proof.
  intros Hne. pose proof (fin_row_exists x Hne) as H.
  destruct (softmax_row_ok _ H) as [m [_ Hs]]. rewrite Hs. f_equal.
  unfold softmax_spec. rewrite map_map. apply map_ext. intros a. simpl.
  rewrite exp_shift_fin_sum.
  assert (0 < Np.sum (map exp x)).
  { apply sum_pos.
    - apply Forall_forall. intros v Hv. apply in_map_iff in Hv.
      destruct Hv as [w [<- _]]. left. apply exp_pos.
    - destruct x as [|b t]; [congruence|]. left. apply exp_pos. }
  pose proof (exp_pos (- m)).
  replace (a - m) with (- m + a) by lra. rewrite exp_plus. field. lra.
Qed.

Lemma softmax_nil : softmax [] = Raise ValueError.
Proof. reflexivity. Qed.

Lemma softmax2_fin (X : Np.matrix) :
  Forall (fun row => row <> []) X ->
  softmax2 (map (map Fin) X) = Ok (map softmax_spec X).
Proof.
  intros H. unfold softmax2. induction H as [|row X Hrow _ IH]; simpl; [reflexivity|].
  rewrite softmax_fin by exact Hrow. simpl. rewrite IH. reflexivity.
Qed.

(** What C2 asks of one row [x] and its softmax [y]. *)
Lemma softmax_row_dist (x y : list R) :
  softmax (map Fin x) = Ok y ->
  length y = length x /\ Forall (fun v => 0 <= v) y /\
  Np.sum y = 1 /\ Rabs (Np.sum y - 1) <= / 1000000.
Proof.
  intros Hy.
  assert (Hne : x <> []) by (intros ->; discriminate Hy).
  destruct (softmax_row_props _ (fin_row_exists x Hne))
    as [y' [Hy' [Hlen [Hnn [Hsum _]]]]].
  rewrite Hy in Hy'. injection Hy' as <-. rewrite length_map in Hlen.
  repeat split; try assumption.
  rewrite Hsum, Rminus_diag, Rabs_R0. lra.
Qed.

(** C2.  Whatever real rows are fed to [softmax], alone or as the rows of a
    2-D array, every row of the result has non-negative entries that sum to
    one, hence within 1e-6 of one; and there is a result as soon as no row is
    of length zero. *)
Theorem softmax_nonneg_sums_to_one (X : Np.matrix) :
  (Forall (fun row => row <> []) X ->
   exists Y, softmax2 (map (map Fin) X) = Ok Y) /\
  (forall Y, softmax2 (map (map Fin) X) = Ok Y ->
     Forall2 (fun row y =>
                softmax (map Fin row) = Ok y /\ length y = length row /\
                Forall (fun v => 0 <= v) y /\
                Np.sum y = 1 /\ Rabs (Np.sum y - 1) <= / 1000000) X Y).
Proof.
  split.
  - intros HX. rewrite softmax2_fin by exact HX. eauto.
  - intros Y HY. apply mapM_inv in HY. revert Y HY.
    induction X as [|row X IH]; intros Y HY; inversion HY; subst; constructor.
    + split; [assumption|]. apply softmax_row_dist. assumption.
    + apply IH. assumption.
Qed.

Lemma softmax_nonneg_sums_to_one_witness :
  exists Y, softmax2 (map (map Fin) [[1; 2]; [0]]) = Ok Y /\
    Forall2 (fun row y =>
               softmax (map Fin row) = Ok y /\ length y = length row /\
               Forall (fun v => 0 <= v) y /\
               Np.sum y = 1 /\ Rabs (Np.sum y - 1) <= / 1000000)
      [[1; 2]; [0]] Y.
Proof.
  destruct (softmax_nonneg_sums_to_one [[1; 2]; [0]]) as [Hex Hall].
  destruct Hex as [Y HY]; [repeat constructor; discriminate|].
  exists Y. split; [exact HY|apply Hall, HY].
Defined.

(** ** Indexing *)

Lemma norm_index_nat (n i : nat) :
  (i < n)%nat -> Np.norm_index n (Z.of_nat i) = Ok i.
Proof.
  intros H. unfold Np.norm_index.
  replace (0 <=? Z.of_nat i)%Z with true by (symmetry; apply Z.leb_le; lia).
  replace (Z.of_nat i <? Z.of_nat n)%Z with true by (symmetry; apply Z.ltb_lt; lia).
  simpl. rewrite Nat2Z.id. reflexivity.
Qed.

Lemma item_nat {A : Type} (a : list A) (d : A) (i : nat) :
  (i < length a)%nat -> Np.item a (Z.of_nat i) = Ok (nth i a d).
Proof.
  intros H. unfold Np.item. rewrite norm_index_nat by exact H. simpl.
  rewrite (nth_error_nth' a d H). reflexivity.
Qed.

Lemma take_nat (x : list R) (idx : list nat) :
  Forall (fun i => (i < length x)%nat) idx ->
  Np.take x (index_array idx) = Ok (gather x idx).
Proof.
  intros H. unfold Np.take, index_array, gather.
  induction H as [|i t Hi _ IH]; simpl; [reflexivity|].
  rewrite (item_nat x 0 i Hi). simpl. rewrite IH. reflexivity.
Qed.

Lemma exp_sum_pos (x : list R) : x <> [] -> 0 < Np.sum (map exp x).
Proof.
  intros Hne. apply sum_pos.
  - apply Forall_forall. intros v Hv. apply in_map_iff in Hv.
    destruct Hv as [w [<- _]]. left. apply exp_pos.
  - destruct x as [|b t]; [congruence|]. left. apply exp_pos.
Qed.

Lemma softmax_spec_nth (x : list R) (i : nat) :
  (i < length x)%nat ->
  nth i (softmax_spec x) 0 = exp (nth i x 0) / Np.sum (map exp x).
Proof.
  intros H. unfold softmax_spec.
  rewrite (nth_indep _ 0 ((fun v => exp v / Np.sum (map exp x)) 0))
    by (rewrite length_map; exact H).
  apply (map_nth (fun v => exp v / Np.sum (map exp x))).
Qed.

Lemma softmax_spec_gather (x : list R) (idx : list nat) :
  Forall (fun i => (i < length x)%nat) idx ->
  gather (softmax_spec x) idx =
  map (fun v => v / Np.sum (map exp x)) (map exp (gather x idx)).
Proof.
  intros H. unfold gather. rewrite !map_map. apply map_ext_in. intros i Hi.
  rewrite Forall_forall in H. apply softmax_spec_nth, H, Hi.
Qed.

(** Softmax of a selection of logits is the full distribution renormalised
    over the selection. *)
Lemma softmax_at_renormalize (x : list R) (idx : list nat) :
  idx <> [] -> Forall (fun i => (i < length x)%nat) idx ->
  softmax_at x idx = Ok (renormalize (softmax_spec x) idx).
Proof.
  intros Hne Hin. unfold softmax_at. rewrite take_nat by exact Hin. simpl.
  assert (Hx : x <> []).
  { destruct idx as [|i t]; [congruence|]. inversion Hin; subst.
    destruct x; [simpl in *; lia|congruence]. }
  assert (Hg : gather x idx <> []).
  { destruct idx; [congruence|discriminate]. }
  rewrite softmax_fin by exact Hg. f_equal.
  unfold renormalize. rewrite softmax_spec_gather by exact Hin.
  rewrite sum_map_div. unfold softmax_spec at 1.
  pose proof (exp_sum_pos _ Hx). pose proof (exp_sum_pos _ Hg).
  set (Z := Np.sum (map exp x)) in *.
  set (ZS := Np.sum (map exp (gather x idx))) in *.
  unfold gather. rewrite map_map.
  apply map_ext_in. intros i Hi. rewrite Forall_forall in Hin.
  rewrite softmax_spec_nth by (apply Hin, Hi).
  fold Z. field. lra.
Qed.

(** ** Cumulative sums and sorted search *)

Lemma cumsum_from_length (acc : R) (x : list R) :
  length (Np.cumsum_from acc x) = length x.
Proof. revert acc. induction x as [|v t IH]; intros acc; simpl; [|rewrite IH]; reflexivity. Qed.

Lemma cumsum_from_nth (acc : R) (x : list R) (i : nat) :
  (i < length x)%nat ->
  nth i (Np.cumsum_from acc x) 0 = acc + Np.sum (firstn (S i) x).
Proof.
  revert acc i. induction x as [|v t IH]; intros acc i Hi; simpl in Hi; [lia|].
  destruct i as [|i].
  - simpl. destruct t; simpl; lra.
  - change (nth i (Np.cumsum_from (acc + v) t) 0 =
            acc + (v + Np.sum (firstn (S i) t))).
    rewrite IH by lia. lra.
Qed.

Lemma cumsum_from_last (acc : R) (x : list R) :
  x <> [] -> last (Np.cumsum_from acc x) 0 = acc + Np.sum x.
Proof.
  revert acc. induction x as [|v t IH]; intros acc Hne; [congruence|].
  destruct t as [|w t].
  - simpl. lra.
  - change (last (Np.cumsum_from (acc + v) (w :: t)) 0 = acc + (v + Np.sum (w :: t))).
    rewrite IH by discriminate. lra.
Qed.

Lemma last_In {A : Type} (l : list A) (d : A) : l <> [] -> In (last l d) l.
Proof.
  induction l as [|a t IH]; intros H; [congruence|].
  destruct t as [|b t]; [left; reflexivity|].
  right. apply IH. discriminate.
Qed.

Lemma sum_firstn_mono (x : list R) (i j : nat) :
  Forall (fun v => 0 <= v) x -> (i <= j)%nat ->
  Np.sum (firstn i x) <= Np.sum (firstn j x).
Proof.
  intros H. revert i j. induction H as [|v t Hv _ IH]; intros i j Hij.
  - rewrite !firstn_nil. lra.
  - destruct i as [|i]; destruct j as [|j]; simpl; try lia; try lra.
    + pose proof (IH 0%nat j (Nat.le_0_l j)) as Hj. simpl in Hj. lra.
    + pose proof (IH i j). assert (i <= j)%nat by lia. intuition lra.
Qed.

(** Cumulative sums of non-negative numbers are in non-decreasing order: the
    arrays handed to [searchsorted] are sorted. *)
Lemma cumsum_sorted (x : list R) (i j : nat) :
  Forall (fun v => 0 <= v) x -> (i <= j < length x)%nat ->
  nth i (Np.cumsum x) 0 <= nth j (Np.cumsum x) 0.
Proof.
  intros Hnn [Hij Hj]. unfold Np.cumsum.
  rewrite !cumsum_from_nth by lia.
  pose proof (sum_firstn_mono x (S i) (S j) Hnn). assert (S i <= S j)%nat by lia.
  intuition lra.
Qed.

Lemma searchsorted_spec (a : list R) (v : R) :
  (Np.searchsorted a v <= length a)%nat /\
  (forall i, (i < Np.searchsorted a v)%nat -> nth i a 0 < v) /\
  ((Np.searchsorted a v < length a)%nat -> v <= nth (Np.searchsorted a v) a 0).
Proof.
  induction a as [|x t [IH1 [IH2 IH3]]]; simpl.
  - repeat split; intros; lia.
  - destruct (Rle_dec v x).
    + repeat split; intros; try lia. exact r.
    + repeat split; [lia| |intros; apply IH3; lia].
      intros [|i] Hi; [lra|apply IH2; lia].
Qed.

Lemma searchsorted_lt (a : list R) (v : R) :
  Exists (fun c => v <= c) a -> (Np.searchsorted a v < length a)%nat.
Proof.
  induction 1 as [x t Hx|x t _ IH]; simpl; destruct (Rle_dec v x); simpl; try lia; lra.
Qed.

Lemma searchsorted_right_lt (a : list R) (v : R) :
  Exists (fun c => v < c) a -> (Np.searchsorted_right a v < length a)%nat.
Proof.
  induction 1 as [x t Hx|x t _ IH]; simpl; destruct (Rlt_dec v x); simpl; try lia; lra.
Qed.

(** ** [np.random.choice] *)

Lemma existsb_neg_false (p : list R) :
  Forall (fun v => 0 <= v) p ->
  existsb (fun v => if Rlt_dec v 0 then true else false) p = false.
Proof.
  induction 1 as [|v t Hv _ IH]; simpl; [reflexivity|].
  destruct (Rlt_dec v 0); [lra|exact IH].
Qed.

(** A valid distribution over a non-empty array: [choice] consumes one draw
    and returns one of the array's entries. *)
Lemma choice_in (a : list nat) (p : list R) (g : rng) :
  a <> [] -> length p = length a -> Forall (fun v => 0 <= v) p ->
  Np.sum p = 1 -> rng_valid g ->
  exists r, choice a p g = (Ok r, fun i => g (1 + i)%nat) /\ In r a.
Proof.
  intros Ha Hlen Hnn Hsum Hg. unfold choice.
  destruct (Nat.eqb_spec (length a) 0) as [E|_];
    [apply length_zero_iff_nil in E; contradiction|].
  rewrite Hlen, Nat.eqb_refl. simpl negb. cbv iota.
  rewrite existsb_neg_false by exact Hnn.
  destruct (Rgt_dec (Rabs (Np.sum p - 1)) choice_atol) as [Hgt|_].
  { rewrite Hsum, Rminus_diag, Rabs_R0 in Hgt. unfold choice_atol in Hgt. lra. }
  assert (Hp : p <> []).
  { intros ->. simpl in Hlen. symmetry in Hlen.
    apply length_zero_iff_nil in Hlen. contradiction. }
  assert (Hlast : last (Np.cumsum p) 0 = 1).
  { unfold Np.cumsum. rewrite cumsum_from_last by exact Hp. lra. }
  simpl. rewrite Hlast.
  rewrite (mapM_Ok _ (fun c => c / 1)) by (intros; apply div_Ok; lra).
  simpl.
  set (cdf := map (fun c => c / 1) (Np.cumsum p)).
  assert (Hidx : (Np.searchsorted_right cdf (g 0%nat) < length a)%nat).
  { rewrite <- Hlen, <- (cumsum_from_length 0 p), <- (length_map (fun c => c / 1)).
    apply searchsorted_right_lt. unfold cdf. apply Exists_exists. exists (1 / 1). split.
    - apply (in_map (fun c => c / 1)). rewrite <- Hlast. apply last_In.
      unfold Np.cumsum. intros E. apply (f_equal (@length R)) in E.
      rewrite cumsum_from_length in E. destruct p; [congruence|discriminate].
    - destruct (Hg 0%nat). lra. }
  destruct (nth_error a _) as [r|] eqn:Hr.
  - exists r. split; [reflexivity|]. eapply nth_error_In; exact Hr.
  - apply nth_error_None in Hr. lia.
Qed.

(** ** Sorting of positions *)

Lemma insert_by_perm (x : list R) (i : nat) (l : list nat) :
  Permutation (insert_by x i l) (i :: l).
Proof.
  induction l as [|j t IH]; simpl; [apply Permutation_refl|].
  destruct (Rle_dec (nth i x 0) (nth j x 0)); [apply Permutation_refl|].
  eapply perm_trans; [apply perm_skip, IH|apply perm_swap].
Qed.

Lemma insert_by_sorted (x : list R) (i : nat) (l : list nat) :
  StronglySorted (le_key x) l -> StronglySorted (le_key x) (insert_by x i l).
Proof.
  induction 1 as [|j t Ht IH Hj]; simpl.
  - constructor; constructor.
  - destruct (Rle_dec (nth i x 0) (nth j x 0)) as [Hle|Hgt].
    + constructor; [constructor; assumption|].
      constructor; [exact Hle|].
      eapply Forall_impl; [|exact Hj]. unfold le_key. intros; lra.
    + constructor; [exact IH|].
      rewrite Forall_forall in *. intros a Ha.
      apply (Permutation_in _ (insert_by_perm x i t)) in Ha.
      destruct Ha as [<-|Ha]; [unfold le_key; lra|apply Hj, Ha].
Qed.

Lemma StronglySorted_nth {A : Type} (Rel : A -> A -> Prop) (l : list A) (d : A)
    (a b : nat) :
  StronglySorted Rel l -> (a < b < length l)%nat -> Rel (nth a l d) (nth b l d).
Proof.
  intros H. revert a b. induction H as [|v t Ht IH Hv]; intros a b Hab; simpl in *.
  - lia.
  - destruct b as [|b]; [lia|]. destruct a as [|a].
    + rewrite Forall_forall in Hv. apply Hv, nth_In. lia.
    + apply IH. lia.
Qed.

Lemma argsort_stable_spec (x : list R) : is_argsort x (argsort_stable x).
Proof.
  unfold is_argsort, argsort_stable.
  generalize (seq 0 (length x)) as ids. intros ids.
  assert (H : Permutation (fold_right (insert_by x) [] ids) ids /\
              StronglySorted (le_key x) (fold_right (insert_by x) [] ids)).
  { induction ids as [|i t [IHp IHs]]; simpl.
    - split; constructor.
    - split.
      + eapply perm_trans; [apply insert_by_perm|apply perm_skip, IHp].
      + apply insert_by_sorted, IHs. }
  destruct H as [Hp Hs]. split; [exact Hp|].
  intros a b Hab. apply (StronglySorted_nth _ _ 0%nat a b Hs Hab).
Qed.

Lemma is_argsort_length (x : list R) (idx : list nat) :
  is_argsort x idx -> length idx = length x.
Proof.
  intros [Hp _]. rewrite (Permutation_length Hp). apply length_seq.
Qed.

Lemma is_argsort_range (x : list R) (idx : list nat) :
  is_argsort x idx -> Forall (fun i => (i < length x)%nat) idx.
Proof.
  intros [Hp _]. apply Forall_forall. intros i Hi.
  apply (Permutation_in _ Hp), in_seq in Hi. lia.
Qed.

Lemma is_argsort_NoDup (x : list R) (idx : list nat) :
  is_argsort x idx -> NoDup idx.
Proof.
  intros [Hp _]. apply (Permutation_NoDup (Permutation_sym Hp)), seq_NoDup.
Qed.

Lemma is_argsort_complete (x : list R) (idx : list nat) (j : nat) :
  is_argsort x idx -> (j < length x)%nat -> In j idx.
Proof.
  intros [Hp _] Hj. apply (Permutation_in _ (Permutation_sym Hp)), in_seq. lia.
Qed.

Lemma In_firstn_nth {A : Type} (l : list A) (n : nat) (v d : A) :
  In v (firstn n l) -> exists a, (a < n)%nat /\ (a < length l)%nat /\ nth a l d = v.
Proof.
  intros H. destruct (In_nth _ _ d H) as [a [Ha Hv]].
  rewrite length_firstn in Ha. exists a. repeat split; try lia.
  rewrite nth_firstn in Hv. destruct (Nat.ltb_spec a n); [exact Hv|lia].
Qed.

Lemma In_skipn_nth {A : Type} (l : list A) (n : nat) (v d : A) :
  In v (skipn n l) -> exists b, (n <= b)%nat /\ (b < length l)%nat /\ nth b l d = v.
Proof.
  intros H. destruct (In_nth _ _ d H) as [a [Ha Hv]].
  rewrite length_skipn in Ha. exists (n + a)%nat. repeat split; try lia.
  rewrite nth_skipn in Hv. exact Hv.
Qed.

Lemma In_split_at {A : Type} (l : list A) (n : nat) (v : A) :
  In v l -> In v (firstn n l) \/ In v (skipn n l).
Proof.
  intros H. rewrite <- (firstn_skipn n l) in H. apply in_app_or, H.
Qed.

Lemma slice_from_last {A : Type} (l : list A) (k : Z) :
  (1 <= k <= Z.of_nat (length l))%Z ->
  slice_from (- k) l = skipn (length l - Z.to_nat k) l.
Proof.
  intros Hk. unfold slice_from.
  destruct (Z.ltb_spec (- k) 0); [|lia]. f_equal. lia.
Qed.

(** ** Sampling *)

Lemma softmax_at_dist (x : list R) (idx : list nat) :
  idx <> [] -> Forall (fun i => (i < length x)%nat) idx ->
  softmax_at x idx = Ok (renormalize (softmax_spec x) idx) /\
  length (renormalize (softmax_spec x) idx) = length idx /\
  Forall (fun v => 0 <= v) (renormalize (softmax_spec x) idx) /\
  Np.sum (renormalize (softmax_spec x) idx) = 1.
Proof.
  intros Hne Hin. pose proof (softmax_at_renormalize x idx Hne Hin) as Hs.
  split; [exact Hs|]. split; [apply length_map|].
  unfold softmax_at in Hs. rewrite take_nat in Hs by exact Hin. simpl in Hs.
  assert (Hg : gather x idx <> []) by (destruct idx; [congruence|discriminate]).
  destruct (softmax_row_props _ (fin_row_exists _ Hg)) as [y [Hy [_ [Hnn [Hsum _]]]]].
  rewrite Hs in Hy. injection Hy as <-. split; assumption.
Qed.

(** Sampling from a non-empty selection of valid ids: the softmax over the
    selection is a distribution and the draw lands in the selection. *)
Lemma sample_in_selection (x : list R) (idx : list nat) (g : rng) :
  idx <> [] -> Forall (fun i => (i < length x)%nat) idx -> rng_valid g ->
  exists r,
    with_outcome (softmax_at x idx) (fun probs => choice idx probs) g
    = (Ok r, fun i => g (1 + i)%nat) /\ In r idx.
Proof.
  intros Hne Hin Hg.
  destruct (softmax_at_dist x idx Hne Hin) as [Hs [Hlen [Hnn Hsum]]].
  rewrite Hs. simpl. apply choice_in; assumption.
Qed.

(** The candidates of top-k: the last [k] positions of the sorted order. *)
Lemma top_k_idx_spec (argsort : list R -> list nat) (logits : list R) (k : Z) :
  is_argsort logits (argsort logits) ->
  (1 <= k <= Z.of_nat (length logits))%Z ->
  let idx := top_k_idx argsort logits k in
  length idx = Z.to_nat k /\ NoDup idx /\
  Forall (fun i => (i < length logits)%nat) idx /\
  forall i j, In i idx -> (j < length logits)%nat -> ~ In j idx ->
              nth j logits 0 <= nth i logits 0.
Proof.
  intros Hsort Hk idx.
  pose proof (is_argsort_length _ _ Hsort) as Hlen.
  assert (Eidx : idx = skipn (length logits - Z.to_nat k) (argsort logits)).
  { unfold idx, top_k_idx. rewrite slice_from_last by (rewrite Hlen; exact Hk).
    rewrite Hlen. reflexivity. }
  repeat split.
  - rewrite Eidx, length_skipn, Hlen. lia.
  - rewrite Eidx.
    apply (NoDup_app_remove_l (firstn (length logits - Z.to_nat k) (argsort logits))).
    rewrite firstn_skipn. apply (is_argsort_NoDup _ _ Hsort).
  - pose proof (is_argsort_range _ _ Hsort) as Hr. rewrite Forall_forall in *.
    intros i Hi. apply Hr. rewrite Eidx in Hi.
    rewrite <- (firstn_skipn (length logits - Z.to_nat k) (argsort logits)).
    apply in_or_app. right. exact Hi.
  - intros i j Hi Hj Hnj. rewrite Eidx in Hi, Hnj.
    destruct (In_skipn_nth _ _ _ 0%nat Hi) as [b [Hb1 [Hb2 Hb3]]].
    pose proof (is_argsort_complete _ _ j Hsort Hj) as Hjin.
    destruct (In_split_at _ (length logits - Z.to_nat k) _ Hjin) as [Hf|Hs];
      [|contradiction].
    destruct (In_firstn_nth _ _ _ 0%nat Hf) as [a [Ha1 [Ha2 Ha3]]].
    destruct Hsort as [_ Hord]. rewrite <- Ha3, <- Hb3. apply Hord. lia.
Qed.

(** C5.  Whatever order [argsort] gives to equal logits, for [1 <= k <= N]
    the candidates of [top_k_sampling] are [k] distinct ids, no id left out
    has a larger logit than a candidate, and the id returned is a candidate. *)
Theorem top_k_sampling_in_top_k (argsort : list R -> list nat)
    (logits : list R) (k : Z) (g : rng) :
  is_argsort logits (argsort logits) ->
  (1 <= k <= Z.of_nat (length logits))%Z ->
  rng_valid g ->
  let idx := top_k_idx argsort logits k in
  (length idx = Z.to_nat k /\ NoDup idx /\
   Forall (fun i => (i < length logits)%nat) idx /\
   forall i j, In i idx -> (j < length logits)%nat -> ~ In j idx ->
               nth j logits 0 <= nth i logits 0) /\
  exists r g', top_k_sampling argsort logits k g = (Ok r, g') /\ In r idx.
Proof.
  intros Hsort Hk Hg idx.
  pose proof (top_k_idx_spec argsort logits k Hsort Hk) as Hspec.
  fold idx in Hspec. split; [exact Hspec|].
  destruct Hspec as [Hk' [_ [Hrange _]]].
  assert (Hne : idx <> []).
  { intros E. rewrite E in Hk'. simpl in Hk'. lia. }
  destruct (sample_in_selection logits idx g Hne Hrange Hg) as [r [Hr Hin]].
  exists r, (fun i => g (1 + i)%nat). split; [exact Hr|exact Hin].
Qed.

Lemma top_k_sampling_in_top_k_witness :
  let logits := [1; 3; 2] in
  let idx := top_k_idx argsort_stable logits 2 in
  (length idx = Z.to_nat 2 /\ NoDup idx /\
   Forall (fun i => (i < length logits)%nat) idx /\
   forall i j, In i idx -> (j < length logits)%nat -> ~ In j idx ->
               nth j logits 0 <= nth i logits 0) /\
  exists r g', top_k_sampling argsort_stable logits 2 (fun _ => / 2) = (Ok r, g')
               /\ In r idx.
Proof.
  apply (top_k_sampling_in_top_k argsort_stable [1; 3; 2] 2%Z (fun _ => / 2)).
  - apply argsort_stable_spec.
  - simpl. lia.
  - intros n. lra.
Defined.

(** ** The nucleus of top-p sampling *)

Lemma sum_perm (a b : list R) : Permutation a b -> Np.sum a = Np.sum b.
Proof. induction 1; simpl; lra. Qed.

Lemma gather_seq (P : list R) : gather P (seq 0 (length P)) = P.
Proof.
  unfold gather. apply (nth_ext _ _ 0 0).
  - rewrite length_map, length_seq. reflexivity.
  - intros n Hn. rewrite length_map, length_seq in Hn.
    rewrite (nth_indep _ 0 ((fun i => nth i P 0) 0%nat))
      by (rewrite length_map, length_seq; exact Hn).
    rewrite (map_nth (fun i => nth i P 0)), seq_nth by exact Hn. reflexivity.
Qed.

Lemma softmax_spec_length (x : list R) : length (softmax_spec x) = length x.
Proof. apply length_map. Qed.

Lemma softmax_spec_sum (x : list R) : x <> [] -> Np.sum (softmax_spec x) = 1.
Proof.
  intros Hne.
  destruct (softmax_row_props _ (fin_row_exists x Hne)) as [y [Hy [_ [_ [Hsum _]]]]].
  rewrite softmax_fin in Hy by exact Hne. injection Hy as <-. exact Hsum.
Qed.

Lemma softmax_spec_pos (x : list R) (i : nat) :
  (i < length x)%nat -> 0 < nth i (softmax_spec x) 0.
Proof.
  intros Hi. rewrite softmax_spec_nth by exact Hi.
  assert (x <> []) by (destruct x; [simpl in Hi; lia|discriminate]).
  pose proof (exp_sum_pos x H). pose proof (exp_pos (nth i x 0)).
  apply Rmult_lt_0_compat; [assumption|apply Rinv_0_lt_compat; assumption].
Qed.

Lemma gather_sum_perm (P : list R) (idx : list nat) :
  Permutation idx (seq 0 (length P)) -> Np.sum (gather P idx) = Np.sum P.
Proof.
  intros Hp. rewrite <- (gather_seq P) at 2.
  apply sum_perm. unfold gather. apply Permutation_map, Hp.
Qed.

Lemma renormalize_perm (P : list R) (idx : list nat) :
  Permutation idx (seq 0 (length P)) -> Np.sum P = 1 ->
  renormalize P idx = gather P idx.
Proof.
  intros Hp Hsum. unfold renormalize. rewrite gather_sum_perm, Hsum by exact Hp.
  unfold gather. apply map_ext. intros i. field.
Qed.

Lemma prefix_mass_cumsum (P : list R) (order : list nat) (i : nat) :
  (i < length order)%nat ->
  nth i (Np.cumsum (gather P order)) 0 = prefix_mass P order (S i).
Proof.
  intros Hi. unfold Np.cumsum, prefix_mass.
  rewrite cumsum_from_nth by (unfold gather; rewrite length_map; exact Hi).
  unfold gather. rewrite firstn_map. lra.
Qed.

Lemma rev_order (x : list R) (idx : list nat) :
  is_argsort x idx ->
  Permutation (rev idx) (seq 0 (length x)) /\
  forall a b, (a < b < length x)%nat ->
              nth (nth b (rev idx) 0%nat) x 0 <= nth (nth a (rev idx) 0%nat) x 0.
Proof.
  intros Hs. pose proof (is_argsort_length x idx Hs) as Hlen.
  destruct Hs as [Hp Hord]. split.
  - eapply perm_trans; [apply Permutation_sym, Permutation_rev|exact Hp].
  - intros a b Hab. rewrite !rev_nth by lia. apply Hord. lia.
Qed.

(** What [top_p_selected] computes: the prefix of the descending order that
    ends at the first cumulative probability reaching [p]. *)
Lemma top_p_selected_eq (argsort : list R -> list nat) (logits : list R) (p : R) :
  logits <> [] -> is_argsort logits (argsort logits) ->
  let order := rev (argsort logits) in
  top_p_selected argsort logits p =
  Ok (firstn (Np.searchsorted (Np.cumsum (gather (softmax_spec logits) order)) p + 1)
        order).
Proof.
  intros Hne Hs order. destruct (rev_order _ _ Hs) as [Hp _]. fold order in Hp.
  assert (Hlen : length order = length logits).
  { rewrite (Permutation_length Hp). apply length_seq. }
  unfold top_p_selected. fold order.
  rewrite softmax_at_renormalize.
  - simpl. rewrite renormalize_perm; [reflexivity| |apply softmax_spec_sum, Hne].
    rewrite softmax_spec_length. exact Hp.
  - intros E. rewrite E in Hlen. destruct logits; [congruence|discriminate].
  - apply Forall_forall. intros i Hi. apply (Permutation_in _ Hp), in_seq in Hi. lia.
Qed.



(** ** Embedding lookup *)

Lemma norm_index_cases (n : nat) (t : Z) :
  ((- Z.of_nat n <= t < Z.of_nat n)%Z /\
   Np.norm_index n t = Ok (row_of n t) /\ (row_of n t < n)%nat) \/
  ((t >= Z.of_nat n \/ t < - Z.of_nat n)%Z /\ Np.norm_index n t = Raise IndexError).
Proof.
  unfold Np.norm_index, row_of.
  destruct (Z.leb_spec 0 t); destruct (Z.ltb_spec t (Z.of_nat n)); simpl.
  - left. destruct (Z.ltb_spec t 0); [lia|]. repeat split; lia.
  - right. destruct (Z.leb_spec (- Z.of_nat n) t); destruct (Z.ltb_spec t 0);
      simpl; split; (reflexivity || lia).
  - destruct (Z.leb_spec (- Z.of_nat n) t); destruct (Z.ltb_spec t 0); simpl;
      try lia.
    + left. repeat split; lia.
    + right. split; [lia|reflexivity].
  - lia.
Qed.

Lemma item_cases {A : Type} (a : list A) (d : A) (t : Z) :
  ((- Z.of_nat (length a) <= t < Z.of_nat (length a))%Z /\
   Np.item a t = Ok (nth (row_of (length a) t) a d)) \/
  ((t >= Z.of_nat (length a) \/ t < - Z.of_nat (length a))%Z /\
   Np.item a t = Raise IndexError).
Proof.
  unfold Np.item.
  destruct (norm_index_cases (length a) t) as [[Hr [Hn Hlt]]|[Hr Hn]]; rewrite Hn; simpl.
  - left. split; [exact Hr|]. rewrite (nth_error_nth' a d Hlt). reflexivity.
  - right. split; [exact Hr|reflexivity].
Qed.

Lemma take_outcome {A : Type} (a : list A) (idx : list Z) :
  (exists rows, Np.take a idx = Ok rows) \/ Np.take a idx = Raise IndexError.
Proof.
  unfold Np.take. induction idx as [|t ts IH]; simpl; [left; eauto|].
  destruct a as [|d a'] eqn:Ea.
  - right. unfold Np.item. destruct (norm_index_cases 0 t) as [[Hr _]|[_ Hn]];
      [simpl in Hr; lia|]. simpl length. rewrite Hn. reflexivity.
  - rewrite <- Ea in *. destruct (item_cases a d t) as [[_ Hi]|[_ Hi]]; rewrite Hi; simpl.
    + destruct IH as [[rows Hrows]|Hraise]; [rewrite Hrows|rewrite Hraise]; simpl; eauto.
    + right. reflexivity.
Qed.

(** C9, as amended.  The lookup raises IndexError, and returns nothing, as
    soon as one id is [>= N] or [< -N]; otherwise it returns one row per id,
    row [t] for an id in [0, N) and row [N + t] for an id in [-N, 0); in
    particular ids all in [0, N) give exactly their rows.  There is no
    third outcome: a complete result or IndexError. *)
Theorem tokens_to_embeddings_lookup (E : Np.matrix) (tokens : list Z) :
  let N := Z.of_nat (length E) in
  (Exists (fun t => (t >= N \/ t < - N)%Z) tokens ->
   tokens_to_embeddings E tokens = Raise IndexError) /\
  (Forall (fun t => (- N <= t < N)%Z) tokens ->
   tokens_to_embeddings E tokens
   = Ok (map (fun t => nth (row_of (length E) t) E []) tokens)) /\
  (Forall (fun t => (0 <= t < N)%Z) tokens ->
   tokens_to_embeddings E tokens = Ok (map (fun t => nth (Z.to_nat t) E []) tokens)) /\
  ((exists rows, tokens_to_embeddings E tokens = Ok rows) \/
   tokens_to_embeddings E tokens = Raise IndexError).
Proof.
  intros N. unfold tokens_to_embeddings.
  assert (Hmid : Forall (fun t => (- N <= t < N)%Z) tokens ->
                 Np.take E tokens = Ok (map (fun t => nth (row_of (length E) t) E []) tokens)).
  { intros H. unfold Np.take. apply mapM_Ok. intros t Ht.
    rewrite Forall_forall in H. specialize (H t Ht).
    destruct (item_cases E [] t) as [[_ Hi]|[Hr _]]; [exact Hi|unfold N in H; lia]. }
  split; [|split; [exact Hmid|split; [|apply take_outcome]]].
  - clear Hmid. intros H. induction H as [t ts Ht|t ts _ IH].
    + unfold Np.take. simpl.
      destruct (item_cases E [] t) as [[Hr _]|[_ Hi]]; [unfold N in Ht; lia|].
      rewrite Hi. reflexivity.
    + unfold Np.take in *. simpl. rewrite IH.
      destruct (item_cases E [] t) as [[_ Hi]|[_ Hi]]; rewrite Hi; reflexivity.
  - intros H. rewrite Hmid.
    + f_equal. apply map_ext_in. intros t Ht. rewrite Forall_forall in H.
      specialize (H t Ht). unfold row_of. destruct (Z.ltb_spec t 0); [lia|reflexivity].
    + eapply Forall_impl; [|exact H]. simpl. intros; lia.
Qed.

(** C9, as stated, fails on a negative id: the lookup of [-1] in a table of
    five rows does not raise, it returns the last row. *)
Lemma lookup_negative_id_counterexample :
  tokens_to_embeddings sample_embedding [(-1)%Z] = Ok [[4; 4; 4; 4]] /\
  ~ (Exists (fun t => (t >= Z.of_nat (length sample_embedding) \/ t < 0)%Z) [(-1)%Z] ->
     exists e, tokens_to_embeddings sample_embedding [(-1)%Z] = Raise e).
Proof.
  assert (H : tokens_to_embeddings sample_embedding [(-1)%Z] = Ok [[4; 4; 4; 4]])
    by reflexivity.
  split; [exact H|]. intros C.
  destruct C as [e He]; [left; right; lia|]. rewrite H in He. discriminate.
Qed.

Lemma tokens_to_embeddings_lookup_witness :
  tokens_to_embeddings sample_embedding [1%Z; 3%Z; 4%Z]
  = Ok (map (fun t => nth (Z.to_nat t) sample_embedding []) [1%Z; 3%Z; 4%Z]).
Proof.
  apply (tokens_to_embeddings_lookup sample_embedding [1%Z; 3%Z; 4%Z]).
  repeat constructor; simpl; lia.
Defined.

(** ** Element-wise operations on arrays of one shape *)

Lemma zip_with_length {A B C : Type} (h : A -> B -> C) (x : list A) (y : list B) :
  length x = length y -> length (zip_with h x y) = length x.
Proof.
  intros H. unfold zip_with. rewrite length_map, length_combine, <- H. lia.
Qed.

Lemma zip_with_nth {A B C : Type} (h : A -> B -> C) (x : list A) (y : list B)
    (da : A) (db : B) (dc : C) (i : nat) :
  (i < length x)%nat -> (i < length y)%nat ->
  nth i (zip_with h x y) dc = h (nth i x da) (nth i y db).
Proof.
  unfold zip_with. revert y i. induction x as [|a x IH]; intros y i Hx Hy.
  - simpl in Hx. lia.
  - destruct y as [|b y]; [simpl in Hy; lia|].
    destruct i as [|i]; simpl; [reflexivity|]. apply IH; simpl in *; lia.
Qed.

Lemma bcast_zip {A B C : Type} (f : A -> B -> outcome C) (h : A -> B -> C)
    (x : list A) (y : list B) :
  length x = length y ->
  (forall a b, In (a, b) (combine x y) -> f a b = Ok (h a b)) ->
  Np.bcast f x y = Ok (zip_with h x y).
Proof.
  intros Hlen Hf. unfold Np.bcast. rewrite Hlen, Nat.eqb_refl.
  apply mapM_Ok. intros [a b] Hab. apply Hf, Hab.
Qed.

Lemma has_shape_In {A : Type} (T D : nat) (m : list (list A)) (r : list A) :
  Np.has_shape T D m -> In r m -> length r = D.
Proof. intros [_ H] Hr. rewrite Forall_forall in H. apply H, Hr. Qed.

Lemma has_shape_nth {A : Type} (T D : nat) (m : list (list A)) (i : nat) :
  Np.has_shape T D m -> (i < T)%nat -> length (nth i m []) = D.
Proof.
  intros H Hi. apply (has_shape_In T D m); [exact H|].
  apply nth_In. destruct H as [Hl _]. lia.
Qed.

Lemma has_shape_ncols {A : Type} (T D : nat) (m : list (list A)) :
  Np.has_shape T D m -> (0 < T)%nat -> Np.ncols m = D.
Proof.
  intros [Hl H] HT. destruct m as [|r m]; [simpl in Hl; lia|].
  inversion H; subst. reflexivity.
Qed.

Lemma bcast2_zip {A B C : Type} (f : A -> B -> outcome C) (h : A -> B -> C)
    (T D : nat) (X : list (list A)) (Y : list (list B)) :
  Np.has_shape T D X -> Np.has_shape T D Y ->
  (forall a b, f a b = Ok (h a b)) ->
  Np.bcast (Np.bcast f) X Y = Ok (zip_with (zip_with h) X Y).
Proof.
  intros HX HY Hf. apply bcast_zip.
  - pose proof HX as [Hl1 _]. pose proof HY as [Hl2 _]. congruence.
  - intros a b Hab. apply bcast_zip; [|intros; apply Hf].
    rewrite (has_shape_In T D X a HX (in_combine_l _ _ _ _ Hab)).
    rewrite (has_shape_In T D Y b HY (in_combine_r _ _ _ _ Hab)). reflexivity.
Qed.

Lemma zip2_shape {A B C : Type} (h : A -> B -> C) (T D : nat)
    (X : list (list A)) (Y : list (list B)) :
  Np.has_shape T D X -> Np.has_shape T D Y ->
  Np.has_shape T D (zip_with (zip_with h) X Y).
Proof.
  intros HX HY. split.
  - pose proof HX as [Hl1 _]. pose proof HY as [Hl2 _].
    rewrite zip_with_length; congruence.
  - apply Forall_forall. intros r Hr. unfold zip_with at 1 in Hr.
    apply in_map_iff in Hr. destruct Hr as [[a b] [<- Hab]]. simpl.
    pose proof (has_shape_In T D X a HX (in_combine_l _ _ _ _ Hab)) as Ha.
    pose proof (has_shape_In T D Y b HY (in_combine_r _ _ _ _ Hab)) as Hb.
    rewrite zip_with_length; congruence.
Qed.

Lemma zip2_entry (h : R -> R -> R) (T D : nat) (X Y : Np.matrix) (i j : nat) :
  Np.has_shape T D X -> Np.has_shape T D Y -> (i < T)%nat -> (j < D)%nat ->
  entry (zip_with (zip_with h) X Y) i j = h (entry X i j) (entry Y i j).
Proof.
  intros HX HY Hi Hj. unfold entry.
  pose proof (has_shape_nth T D X i HX Hi). pose proof (has_shape_nth T D Y i HY Hi).
  pose proof HX as [Hl1 _]. pose proof HY as [Hl2 _].
  rewrite (zip_with_nth (zip_with h) X Y [] [] [] i) by lia.
  apply zip_with_nth; lia.
Qed.

Lemma map2_shape {A B : Type} (h : A -> B) (T D : nat) (X : list (list A)) :
  Np.has_shape T D X -> Np.has_shape T D (map (map h) X).
Proof.
  intros [Hl H]. split; [rewrite length_map; exact Hl|].
  apply Forall_forall. intros r Hr. apply in_map_iff in Hr.
  destruct Hr as [a [<- Ha]]. rewrite length_map.
  rewrite Forall_forall in H. apply H, Ha.
Qed.

Lemma map2_entry (h : R -> R) (T D : nat) (X : Np.matrix) (i j : nat) :
  Np.has_shape T D X -> (i < T)%nat -> (j < D)%nat ->
  entry (map (map h) X) i j = h (entry X i j).
Proof.
  intros HX Hi Hj. unfold entry.
  pose proof (has_shape_nth T D X i HX Hi) as Hr.
  pose proof HX as [Hl1 _].
  rewrite (nth_indep _ [] (map h [])) by (rewrite length_map; lia).
  rewrite (map_nth (map h)).
  rewrite (nth_indep _ 0 (h 0)) by (rewrite length_map; lia).
  apply map_nth.
Qed.

Lemma mapM2_Ok {A B : Type} (f : A -> outcome B) (h : A -> B) (X : list (list A)) :
  (forall v, f v = Ok (h v)) -> mapM (mapM f) X = Ok (map (map h) X).
Proof.
  intros Hf. apply mapM_Ok. intros r _. apply mapM_Ok. intros v _. apply Hf.
Qed.

Lemma matrix_ext (T D : nat) (X Y : Np.matrix) :
  Np.has_shape T D X -> Np.has_shape T D Y ->
  (forall i j, (i < T)%nat -> (j < D)%nat -> entry X i j = entry Y i j) ->
  X = Y.
Proof.
  intros HX HY H. apply (nth_ext _ _ [] []).
  - pose proof HX as [Hl1 _]. pose proof HY as [Hl2 _]. congruence.
  - intros i Hi. assert (Hi' : (i < T)%nat) by (pose proof HX as [Hl1 _]; lia).
    pose proof (has_shape_nth T D X i HX Hi'). pose proof (has_shape_nth T D Y i HY Hi').
    apply (nth_ext _ _ 0 0); [congruence|].
    intros j Hj. apply H; [exact Hi'|lia].
Qed.

(** ** Dropout *)

Lemma rand2_spec (T D : nat) (g : rng) :
  Np.has_shape T D (fst (rand2 g T D)) /\
  (forall i j, (i < T)%nat -> (j < D)%nat ->
               entry (fst (rand2 g T D)) i j = g (i * D + j)%nat) /\
  (forall n, snd (rand2 g T D) n = g (T * D + n)%nat).
Proof.
  revert g. induction T as [|T IH]; intros g.
  - simpl. repeat split; [constructor|intros; lia].
  - simpl. destruct (IH (fun i => g (D + i)%nat)) as [[Hl Hr] [He Hs]].
    destruct (rand2 (fun i => g (D + i)%nat) T D) as [m g2]. simpl in *.
    repeat split.
    + simpl. rewrite Hl. reflexivity.
    + constructor; [rewrite length_map, length_seq; reflexivity|exact Hr].
    + intros i j Hi Hj. destruct i as [|i].
      * unfold entry. simpl. rewrite (nth_indep _ 0 (g 0%nat))
          by (rewrite length_map, length_seq; exact Hj).
        rewrite map_nth, seq_nth by exact Hj. reflexivity.
      * change (entry m i j = g (S i * D + j)%nat). rewrite He by lia.
        f_equal. lia.
    + intros n. rewrite Hs. f_equal. lia.
Qed.

Lemma rand2_like (T D : nat) (x : Np.matrix) (g : rng) :
  Np.has_shape T D x -> rand2 g (Np.nrows x) (Np.ncols x) = rand2 g T D.
Proof.
  intros H. destruct T as [|T].
  - destruct H as [Hl _]. apply length_zero_iff_nil in Hl. subst. reflexivity.
  - rewrite (has_shape_ncols (S T) D x H) by lia. destruct H as [Hl _].
    unfold Np.nrows. rewrite Hl. reflexivity.
Qed.

(** C8, as amended.  For [0 <= p < 1] dropout returns an array of the shape
    of its input in which the element at each position is zero when the draw
    for that position is [<= p] and the input element times [1/(1-p)] when
    the draw is above [p]; with [p = 0] it is the identity whenever no draw
    is exactly zero. *)
Theorem dropout_zeroes_or_scales (x : Np.matrix) (T D : nat) (p : R) (g : rng) :
  Np.has_shape T D x -> 0 <= p < 1 ->
  exists y, fst (dropout x p g) = Ok y /\ Np.has_shape T D y /\
    (forall i j, (i < T)%nat -> (j < D)%nat ->
       (g (i * D + j)%nat <= p -> entry y i j = 0) /\
       (p < g (i * D + j)%nat -> entry y i j = entry x i j * (1 / (1 - p)))) /\
    (forall n, snd (dropout x p g) n = g (T * D + n)%nat) /\
    (p = 0 -> (forall n, (n < T * D)%nat -> 0 < g n) -> y = x).
Proof.
  intros Hx Hp. unfold dropout. rewrite (rand2_like T D x g Hx).
  destruct (rand2_spec T D g) as [Hrs [Hre Hrg]].
  destruct (rand2 g T D) as [r g']. simpl in Hrs, Hre, Hrg.
  set (mask := map (map (fun u => if Rgt_dec u p then 1 else 0)) r).
  assert (Hms : Np.has_shape T D mask) by (apply map2_shape, Hrs).
  unfold mul. rewrite (bcast2_zip _ Rmult T D x mask Hx Hms) by reflexivity.
  simpl. rewrite (mapM2_Ok _ (fun v => v / (1 - p)))
    by (intros; apply div_Ok; lra).
  set (y := map (map (fun v => v / (1 - p))) (zip_with (zip_with Rmult) x mask)).
  assert (Hys : Np.has_shape T D y) by (apply map2_shape, zip2_shape; assumption).
  assert (Hye : forall i j, (i < T)%nat -> (j < D)%nat ->
            entry y i j
            = entry x i j * (if Rgt_dec (g (i * D + j)%nat) p then 1 else 0) / (1 - p)).
  { intros i j Hi Hj. unfold y.
    rewrite (map2_entry _ T D) by (try apply zip2_shape; assumption).
    rewrite (zip2_entry Rmult T D) by assumption.
    unfold mask. rewrite (map2_entry _ T D) by assumption.
    rewrite Hre by assumption. reflexivity. }
  exists y. split; [reflexivity|]. split; [exact Hys|]. split; [|split].
  - intros i j Hi Hj. rewrite Hye by assumption.
    destruct (Rgt_dec (g (i * D + j)%nat) p); split; intros; try lra;
      unfold Rdiv; lra.
  - exact Hrg.
  - intros -> Hpos. apply (matrix_ext T D); [exact Hys|exact Hx|].
    intros i j Hi Hj. rewrite Hye by assumption.
    assert (0 < g (i * D + j)%nat) by (apply Hpos; nia).
    destruct (Rgt_dec (g (i * D + j)%nat) 0); [field|lra].
Qed.

Lemma dropout_zeroes_or_scales_witness :
  exists y, fst (dropout [[1; 2]; [3; 4]] (/ 10) (fun _ => / 2)) = Ok y /\
    Np.has_shape 2 2 y /\
    (forall i j, (i < 2)%nat -> (j < 2)%nat ->
       (/ 2 <= / 10 -> entry y i j = 0) /\
       (/ 10 < / 2 ->
        entry y i j = entry [[1; 2]; [3; 4]] i j * (1 / (1 - / 10)))) /\
    (forall n, snd (dropout [[1; 2]; [3; 4]] (/ 10) (fun _ => / 2)) n = / 2) /\
    (/ 10 = 0 -> (forall n, (n < 2 * 2)%nat -> 0 < / 2) -> y = [[1; 2]; [3; 4]]).
Proof.
  apply (dropout_zeroes_or_scales [[1; 2]; [3; 4]] 2 2 (/ 10) (fun _ => / 2)).
  - split; [reflexivity|repeat constructor].
  - lra.
Defined.

(** C8, as stated, fails when the generator delivers exactly [0.0]: the mask
    is [rand > p], so with [p = 0] that element is zeroed. *)
Lemma dropout_p0_counterexample :
  rng_valid (fun _ => 0) /\
  fst (dropout [[1]] 0 (fun _ => 0)) = Ok [[0]] /\
  fst (dropout [[1]] 0 (fun _ => 0)) <> Ok [[1]].
Proof.
  assert (H : fst (dropout [[1]] 0 (fun _ => 0)) = Ok [[0]]).
  { unfold dropout. simpl. destruct (Rgt_dec 0 0) as [Hgt|_]; [lra|].
    unfold mul, Np.bcast. simpl. unfold Np.div.
    destruct (Req_dec_T (1 - 0) 0) as [E|_]; [lra|]. simpl.
    repeat f_equal. field. }
  split; [intros n; lra|]. split; [exact H|].
  rewrite H. intros E. injection E as E. lra.
Qed.

(** ** Layer normalisation *)

Lemma mean_Ok (row : list R) : row <> [] -> Np.mean row = Ok (row_mean row).
Proof.
  intros H. unfold Np.mean, row_mean. apply div_Ok.
  apply not_0_INR. destruct row; [congruence|discriminate].
Qed.

Lemma sq_dev_abs (m : R) (row : list R) :
  map (fun a => Rabs (a - m) ^ 2) row = map (fun a => (a - m) ^ 2) row.
Proof. apply map_ext. intros a. apply pow2_abs. Qed.

Lemma std_Ok (row : list R) : row <> [] -> Np.std row = Ok (row_pstd row).
Proof.
  intros H. unfold Np.std. rewrite mean_Ok by exact H. cbn [bind].
  rewrite sq_dev_abs. unfold Np.mean. rewrite length_map.
  rewrite div_Ok; [reflexivity|].
  apply not_0_INR. destruct row; [congruence|discriminate].
Qed.

Lemma row_pstd_nonneg (row : list R) : 0 <= row_pstd row.
Proof. apply sqrt_pos. Qed.

Lemma row_pstd_constant (row : list R) :
  Forall (fun v => v = row_mean row) row -> row_pstd row = 0.
Proof.
  intros H. unfold row_pstd. rewrite sum_zeros.
  - unfold Rdiv. rewrite Rmult_0_l. apply sqrt_0.
  - apply Forall_forall. intros v Hv. apply in_map_iff in Hv.
    destruct Hv as [w [<- Hw]]. rewrite Forall_forall in H.
    rewrite (H w Hw). simpl. ring.
Qed.

Lemma layer_norm_row_Ok (eps : R) (row : list R) :
  0 < eps ->
  layer_norm_row eps row
  = Ok (map (fun v => (v - row_mean row) / (row_pstd row + eps)) row).
Proof.
  intros He. destruct row as [|a t] eqn:E; [reflexivity|]. rewrite <- E.
  assert (Hne : row <> []) by (rewrite E; discriminate).
  unfold layer_norm_row. rewrite mean_Ok, std_Ok by exact Hne.
  rewrite E at 1. simpl bind.
  rewrite (mapM_Ok _ (fun v => (v - row_mean row) / (row_pstd row + eps)));
    [reflexivity|].
  intros v _. apply div_Ok. pose proof (row_pstd_nonneg row). lra.
Qed.

Lemma layer_norm_Ok (x : Np.matrix) (eps : R) :
  0 < eps ->
  layer_norm x eps
  = Ok (map (fun row => map (fun v => (v - row_mean row) / (row_pstd row + eps)) row) x).
Proof.
  intros He. unfold layer_norm. apply mapM_Ok. intros row _.
  apply layer_norm_row_Ok, He.
Qed.

(** C7.  For [eps > 0], [layer_norm] returns a result on every array: each
    row independently becomes (row - row mean) / (row population standard
    deviation + eps), the divisor is positive, and a row of zero variance is
    divided by [eps] alone and comes out as zeros. *)
Theorem layer_norm_defined (x : Np.matrix) (eps : R) :
  0 < eps ->
  exists y, layer_norm x eps = Ok y /\
    Forall2 (fun row out =>
               0 < row_pstd row + eps /\
               out = map (fun v => (v - row_mean row) / (row_pstd row + eps)) row /\
               (Forall (fun v => v = row_mean row) row ->
                row_pstd row = 0 /\
                out = map (fun v => (v - row_mean row) / eps) row /\
                Forall (fun v => v = 0) out)) x y.
Proof.
  intros He. eexists. split; [apply layer_norm_Ok, He|].
  induction x as [|row x IH]; simpl; constructor; [|exact IH].
  pose proof (row_pstd_nonneg row). split; [lra|]. split; [reflexivity|].
  intros Hc. pose proof (row_pstd_constant row Hc) as Hz. rewrite Hz.
  split; [reflexivity|]. split.
  - apply map_ext. intros v. f_equal. lra.
  - apply Forall_forall. intros v Hv. apply in_map_iff in Hv.
    destruct Hv as [w [<- Hw]]. rewrite Forall_forall in Hc.
    rewrite (Hc w Hw). unfold Rdiv. ring.
Qed.

Lemma layer_norm_defined_witness :
  exists y, layer_norm [[1; 3]; [2; 2]] eps_default = Ok y /\
    Forall2 (fun row out =>
               0 < row_pstd row + eps_default /\
               out = map (fun v => (v - row_mean row) / (row_pstd row + eps_default)) row /\
               (Forall (fun v => v = row_mean row) row ->
                row_pstd row = 0 /\
                out = map (fun v => (v - row_mean row) / eps_default) row /\
                Forall (fun v => v = 0) out)) [[1; 3]; [2; 2]] y.
Proof.
  apply (layer_norm_defined [[1; 3]; [2; 2]] eps_default).
  unfold eps_default. lra.
Defined.

(** Without [eps] the same call is not defined on a constant row. *)
Lemma layer_norm_eps0_constant_row : layer_norm [[1; 1]] 0 = NonFinite.
Proof.
  unfold layer_norm. simpl. rewrite mean_Ok, std_Ok by discriminate. simpl.
  rewrite row_pstd_constant.
  - unfold Np.div. destruct (Req_dec_T (0 + 0) 0) as [_|E]; [reflexivity|lra].
  - unfold row_mean. simpl. repeat constructor; lra.
Qed.

(** ** [np.arange] *)

Lemma arange_nth (n k : nat) : (k < n)%nat -> nth k (Np.arange n) 0%Z = Z.of_nat k.
Proof.
  intros H. unfold Np.arange. change 0%Z with (Z.of_nat 0).
  rewrite map_nth, seq_nth by exact H. reflexivity.
Qed.

Lemma arange_length (n : nat) : length (Np.arange n) = n.
Proof. unfold Np.arange. rewrite length_map, length_seq. reflexivity. Qed.

(** ** Matrix products *)

Lemma column_length (j : nat) (B : Np.matrix) : length (Np.column j B) = length B.
Proof. apply length_map. Qed.

Lemma matmul_Ok (T D M : nat) (A B : Np.matrix) :
  (0 < D)%nat -> Np.has_shape T D A -> Np.has_shape D M B ->
  Np.matmul A B
  = Ok (map (fun r => map (fun j => Np.dot r (Np.column j B)) (seq 0 M)) A) /\
  Np.has_shape T M
    (map (fun r => map (fun j => Np.dot r (Np.column j B)) (seq 0 M)) A).
Proof.
  intros HD HA HB. split.
  - unfold Np.matmul. rewrite (has_shape_ncols D M B HB HD).
    replace (forallb (fun r => Nat.eqb (length r) (length B)) A) with true;
      [reflexivity|].
    symmetry. apply forallb_forall. intros r Hr. apply Nat.eqb_eq.
    rewrite (has_shape_In T D A r HA Hr). destruct HB as [HB _]. lia.
  - destruct HA as [HA _]. split; [rewrite length_map; exact HA|].
    apply Forall_forall. intros r Hr. apply in_map_iff in Hr.
    destruct Hr as [a [<- _]]. rewrite length_map, length_seq. reflexivity.
Qed.

Lemma transpose_shape (T D : nat) (K : Np.matrix) :
  (0 < T)%nat -> Np.has_shape T D K -> Np.has_shape D T (Np.transpose K).
Proof.
  intros HT HK. unfold Np.transpose. rewrite (has_shape_ncols T D K HK HT).
  split; [rewrite length_map, length_seq; reflexivity|].
  apply Forall_forall. intros r Hr. apply in_map_iff in Hr.
  destruct Hr as [j [<- _]]. rewrite column_length. apply HK.
Qed.

Lemma dot_unit (a : R) (t : list R) (c : R) (cs : list R) :
  Forall (fun v => v = 0) t -> Np.dot (a :: t) (c :: cs) = a * c.
Proof.
  intros H. unfold Np.dot. simpl. rewrite sum_zeros; [lra|].
  apply Forall_forall. intros v Hv. apply in_map_iff in Hv.
  destruct Hv as [[w d] [<- Hwd]]. simpl.
  rewrite Forall_forall in H. rewrite (H w (in_combine_l _ _ _ _ Hwd)). lra.
Qed.

(** ** The causal mask *)

Lemma imap_length {A B : Type} (f : nat -> A -> B) (l : list A) :
  length (imap f l) = length l.
Proof. unfold imap. rewrite length_map, length_combine, length_seq. lia. Qed.

Lemma imap_nth {A B : Type} (f : nat -> A -> B) (l : list A) (da : A) (db : B)
    (i : nat) :
  (i < length l)%nat -> nth i (imap f l) db = f i (nth i l da).
Proof.
  intros Hi. unfold imap.
  rewrite (nth_indep _ db ((fun p => f (fst p) (snd p)) (0%nat, da)))
    by (rewrite length_map, length_combine, length_seq; lia).
  rewrite (map_nth (fun p => f (fst p) (snd p))).
  rewrite combine_nth by (rewrite length_seq; reflexivity).
  rewrite seq_nth by exact Hi. reflexivity.
Qed.

Lemma causal_mask_shape (T : nat) : Np.has_shape T T (causal_mask T).
Proof.
  unfold causal_mask, tril, ones. split.
  - rewrite imap_length, repeat_length. reflexivity.
  - apply Forall_forall. intros r Hr. unfold imap at 1 in Hr.
    apply in_map_iff in Hr. destruct Hr as [[i row] [<- Hin]]. simpl.
    apply in_combine_r, repeat_spec in Hin. subst.
    rewrite imap_length, repeat_length. reflexivity.
Qed.

Lemma causal_mask_entry (T i j : nat) :
  (i < T)%nat -> (j < T)%nat ->
  entry (causal_mask T) i j = if (j <=? i)%nat then 1 else 0.
Proof.
  intros Hi Hj. unfold entry, causal_mask, tril, ones.
  rewrite (imap_nth _ _ [] [] i) by (rewrite repeat_length; exact Hi).
  rewrite nth_repeat_lt by exact Hi.
  rewrite (imap_nth _ _ 0 0 j) by (rewrite repeat_length; exact Hj).
  rewrite nth_repeat_lt by exact Hj. reflexivity.
Qed.

Lemma zip2_nth {A B C : Type} (h : A -> B -> C) (T D : nat)
    (X : list (list A)) (Y : list (list B)) (da : A) (db : B) (dc : C) (i j : nat) :
  Np.has_shape T D X -> Np.has_shape T D Y -> (i < T)%nat -> (j < D)%nat ->
  nth j (nth i (zip_with (zip_with h) X Y) []) dc
  = h (nth j (nth i X []) da) (nth j (nth i Y []) db).
Proof.
  intros HX HY Hi Hj.
  pose proof (has_shape_nth T D X i HX Hi). pose proof (has_shape_nth T D Y i HY Hi).
  pose proof HX as [Hl1 _]. pose proof HY as [Hl2 _].
  rewrite (zip_with_nth (zip_with h) X Y [] [] [] i) by lia.
  apply zip_with_nth; lia.
Qed.

(** The masked scores: a finite score wherever [j <= i], [-inf] above the
    diagonal. *)
Lemma where_mask_Ok (T : nat) (scores : Np.matrix) :
  Np.has_shape T T scores ->
  exists masked, where_mask (causal_mask T) scores = Ok masked /\
    Np.has_shape T T masked /\
    forall i j, (i < T)%nat -> (j < T)%nat ->
      nth j (nth i masked []) NInf
      = if (j <=? i)%nat then Fin (entry scores i j) else NInf.
Proof.
  intros Hs. pose proof (causal_mask_shape T) as Hm.
  set (h := fun m s => if Req_dec_T m 1 then Fin s else NInf).
  exists (zip_with (zip_with h) (causal_mask T) scores).
  split; [|split].
  - unfold where_mask. apply (bcast2_zip _ h T T); [exact Hm|exact Hs|reflexivity].
  - apply zip2_shape; assumption.
  - intros i j Hi Hj. rewrite (zip2_nth h T T _ _ 0 0 NInf i j) by assumption.
    fold (entry (causal_mask T) i j). fold (entry scores i j).
    rewrite causal_mask_entry by assumption. unfold h.
    destruct (j <=? i)%nat.
    + destruct (Req_dec_T 1 1); [reflexivity|congruence].
    + destruct (Req_dec_T 0 1); [lra|reflexivity].
Qed.

(** ** Causal attention *)

Lemma attention_weights_spec (T D : nat) (Q K : Np.matrix) :
  (0 < T)%nat -> (0 < D)%nat -> Np.has_shape T D Q -> Np.has_shape T D K ->
  exists W, attention_weights Q K = Ok W /\ Np.has_shape T T W /\
    forall i, (i < T)%nat ->
      Forall (fun v => 0 <= v) (nth i W []) /\
      Np.sum (nth i W []) = 1 /\
      forall j, (j < T)%nat ->
        ((i < j)%nat -> entry W i j = 0) /\ ((j <= i)%nat -> 0 < entry W i j).
Proof.
  intros HT HD HQ HK. unfold attention_weights.
  destruct (matmul_Ok T D T Q (Np.transpose K) HD HQ (transpose_shape T D K HT HK))
    as [Hqk Hqks].
  rewrite Hqk. cbn [bind]. rewrite (has_shape_ncols T D Q HQ HT).
  assert (Hsq : sqrt (INR D) <> 0).
  { pose proof (sqrt_lt_R0 (INR D) (lt_0_INR D HD)). lra. }
  rewrite (mapM2_Ok _ (fun v => v / sqrt (INR D))) by (intros; apply div_Ok, Hsq).
  cbn [bind]. unfold Np.nrows. destruct HQ as [HQl HQr]. rewrite HQl.
  match goal with |- context [where_mask _ ?s] => set (scores := s) end.
  assert (Hss : Np.has_shape T T scores) by (apply map2_shape, Hqks).
  destruct (where_mask_Ok T scores Hss) as [masked [Hm [Hms Hme]]].
  rewrite Hm. cbn [bind]. unfold softmax2.
  destruct (mapM_total softmax
              (fun row y => length y = length row /\
                 Forall (fun v => 0 <= v) y /\ Np.sum y = 1 /\
                 forall j, (j < length row)%nat ->
                   (nth j row NInf = NInf -> nth j y 0 = 0) /\
                   (is_fin (nth j row NInf) -> 0 < nth j y 0)) masked)
    as [W [HW HF]].
  { intros row Hrow. destruct (In_nth _ _ [] Hrow) as [i [Hi Hr]].
    pose proof Hms as [Hml _]. rewrite Hml in Hi.
    destruct (softmax_row_props row) as [y [Hy Hyp]]; [|exists y; split; assumption].
    apply Exists_exists. exists (nth i row NInf). split.
    - apply nth_In. rewrite (has_shape_In T T masked row Hms Hrow). exact Hi.
    - rewrite <- Hr, Hme by exact Hi. rewrite Nat.leb_refl. exact I. }
  exists W. split; [exact HW|].
  pose proof Hms as [Hml _]. pose proof (Forall2_length' _ _ _ HF) as HWl.
  assert (Hrow : forall i, (i < T)%nat ->
            length (nth i W []) = T /\
            Forall (fun v => 0 <= v) (nth i W []) /\ Np.sum (nth i W []) = 1 /\
            forall j, (j < T)%nat ->
              (nth j (nth i masked []) NInf = NInf -> nth j (nth i W []) 0 = 0) /\
              (is_fin (nth j (nth i masked []) NInf) -> 0 < nth j (nth i W []) 0)).
  { intros i Hi.
    destruct (Forall2_nth _ masked W [] [] i HF) as [H1 [H2 [H3 H4]]]; [lia|].
    rewrite (has_shape_nth T T masked i Hms Hi) in H1, H4. repeat split; try assumption.
    - apply H4. assumption.
    - apply H4. assumption. }
  split.
  - split; [lia|]. apply Forall_forall. intros r Hr.
    destruct (In_nth _ _ [] Hr) as [i [Hi <-]]. apply Hrow. lia.
  - intros i Hi. destruct (Hrow i Hi) as [_ [Hnn [Hsum Hj]]].
    split; [exact Hnn|]. split; [exact Hsum|].
    intros j Hjt. destruct (Hj j Hjt) as [Hz Hp]. unfold entry. split; intros Hij.
    + apply Hz. rewrite Hme by assumption.
      destruct (Nat.leb_spec j i); [lia|reflexivity].
    + apply Hp. rewrite Hme by assumption.
      destruct (Nat.leb_spec j i); [exact I|lia].
Qed.

Lemma sum_prefix_of_causal_row (w : list R) (T i : nat) :
  length w = T ->
  (forall j, (j < T)%nat -> (i < j)%nat -> nth j w 0 = 0) ->
  Np.sum (firstn (S i) w) = Np.sum w.
Proof.
  intros Hl Hz. rewrite (sum_firstn_skipn (S i) w) at 1.
  rewrite (sum_zeros (skipn (S i) w)); [lra|].
  apply Forall_forall. intros v Hv.
  destruct (In_skipn_nth _ _ _ 0 Hv) as [b [Hb1 [Hb2 <-]]]. apply Hz; lia.
Qed.

(** C1.  On [T x D] arrays with [T, D >= 1], the weights of
    [scaled_dot_product_attention] form a [T x T] array in which position
    [i] gives weight exactly 0 to every later position [j > i], every row is
    non-negative and sums to 1, already over its unmasked positions
    [j <= i]; the output is the product of the weights with [V], and its
    row 0 is row 0 of [V]. *)
Theorem causal_attention_weights (Q K V : Np.matrix) (T D : nat) :
  (0 < T)%nat -> (0 < D)%nat ->
  Np.has_shape T D Q -> Np.has_shape T D K -> Np.has_shape T D V ->
  exists W O,
    attention_weights Q K = Ok W /\ Np.has_shape T T W /\
    (forall i j, (i < j)%nat -> (j < T)%nat -> entry W i j = 0) /\
    (forall i, (i < T)%nat ->
       Forall (fun v => 0 <= v) (nth i W []) /\
       Np.sum (nth i W []) = 1 /\
       Np.sum (firstn (S i) (nth i W [])) = 1) /\
    scaled_dot_product_attention Q K V = Ok O /\
    Np.matmul W V = Ok O /\ Np.has_shape T D O /\
    nth 0 O [] = nth 0 V [].
Proof.
  intros HT HD HQ HK HV.
  destruct (attention_weights_spec T D Q K HT HD HQ HK) as [W [HW [HWs HWr]]].
  destruct (matmul_Ok T T D W V HT HWs HV) as [HO HOs].
  eexists W, _. split; [exact HW|]. split; [exact HWs|].
  split; [|split; [|split; [|split; [exact HO|split; [exact HOs|]]]]].
  - intros i j Hij Hj. destruct (HWr i) as [_ [_ H]]; [lia|].
    apply (H j Hj), Hij.
  - intros i Hi. destruct (HWr i Hi) as [Hnn [Hsum Hj]].
    split; [exact Hnn|]. split; [exact Hsum|].
    rewrite (sum_prefix_of_causal_row _ T i); [exact Hsum| |].
    + apply (has_shape_nth T T W i HWs Hi).
    + intros j Hjt Hij. apply (Hj j Hjt), Hij.
  - unfold scaled_dot_product_attention. rewrite HW. cbn [bind]. exact HO.
  - destruct (HWr 0%nat HT) as [_ [Hsum Hj]].
    pose proof (has_shape_nth T T W 0 HWs HT) as Hl0.
    pose proof HWs as [HWl _]. pose proof HV as [HVl HVr].
    destruct W as [|w W']; [simpl in HWl; lia|].
    destruct V as [|v V']; [simpl in HVl; lia|].
    simpl in Hl0, Hsum, Hj |- *.
    destruct w as [|a t]; [simpl in Hl0; lia|].
    assert (Ht : Forall (fun x => x = 0) t).
    { apply Forall_forall. intros x Hx. destruct (In_nth _ _ 0 Hx) as [n [Hn <-]].
      simpl in Hl0. destruct (Hj (S n)) as [Hz _]; [lia|].
      unfold entry in Hz. simpl in Hz. apply Hz. lia. }
    assert (Ha : a = 1).
    { simpl in Hsum. rewrite (sum_zeros t Ht) in Hsum. lra. }
    subst a. assert (Hvl : length v = D) by (inversion HVr; assumption).
    apply (nth_ext _ _ 0 0).
    + rewrite length_map, length_seq. symmetry. exact Hvl.
    + intros j Hjl. rewrite length_map, length_seq in Hjl.
      set (f := fun j => Np.dot (1 :: t) (nth j v 0 :: Np.column j V')).
      rewrite (nth_indep _ 0 (f 0%nat)) by (rewrite length_map, length_seq; exact Hjl).
      rewrite (map_nth f), seq_nth by exact Hjl. unfold f. simpl.
      rewrite dot_unit by exact Ht. lra.
Qed.

Lemma causal_attention_weights_witness :
  exists W O,
    attention_weights [[1; 0]; [0; 1]] [[1; 0]; [0; 1]] = Ok W /\
    Np.has_shape 2 2 W /\
    (forall i j, (i < j)%nat -> (j < 2)%nat -> entry W i j = 0) /\
    (forall i, (i < 2)%nat ->
       Forall (fun v => 0 <= v) (nth i W []) /\
       Np.sum (nth i W []) = 1 /\
       Np.sum (firstn (S i) (nth i W [])) = 1) /\
    scaled_dot_product_attention [[1; 0]; [0; 1]] [[1; 0]; [0; 1]] [[5; 6]; [7; 8]]
    = Ok O /\
    Np.matmul W [[5; 6]; [7; 8]] = Ok O /\ Np.has_shape 2 2 O /\
    nth 0 O [] = nth 0 [[5; 6]; [7; 8]] [].
Proof.
  apply (causal_attention_weights [[1; 0]; [0; 1]] [[1; 0]; [0; 1]] [[5; 6]; [7; 8]] 2 2);
    try lia; (split; [reflexivity|repeat constructor]).
Defined.

(** ** Residual additions, feed-forward and the block *)

Lemma add_Ok (T D : nat) (X Y : Np.matrix) :
  Np.has_shape T D X -> Np.has_shape T D Y ->
  Np.add X Y = Ok (zip_with (zip_with Rplus) X Y) /\
  Np.has_shape T D (zip_with (zip_with Rplus) X Y).
Proof.
  intros HX HY. split; [|apply zip2_shape; assumption].
  unfold Np.add, Np.add_vec.
  apply (bcast2_zip (fun a b => Ok (a + b)) Rplus T D); [assumption..|reflexivity].
Qed.

Lemma add_vec_Ok (x y : list R) :
  length x = length y -> Np.add_vec x y = Ok (zip_with Rplus x y).
Proof. intros H. apply bcast_zip; [exact H|reflexivity]. Qed.

Lemma add_row_Ok (T H : nat) (X : Np.matrix) (b : list R) :
  Np.has_shape T H X -> length b = H ->
  Np.add_row X b = Ok (map (fun row => zip_with Rplus row b) X) /\
  Np.has_shape T H (map (fun row => zip_with Rplus row b) X).
Proof.
  intros HX Hb. split.
  - assert (Hrows : forall row, In row X -> Np.add_vec row b = Ok (zip_with Rplus row b)).
    { intros row Hrow. apply add_vec_Ok.
      rewrite (has_shape_In T H X row HX Hrow). symmetry. exact Hb. }
    unfold Np.add_row, Np.add, Np.bcast.
    destruct X as [|r [|r' X']]; simpl.
    + reflexivity.
    + rewrite Hrows by (left; reflexivity). reflexivity.
    + rewrite !Hrows by (simpl; auto). simpl.
      rewrite (mapM_Ok _ (fun row => zip_with Rplus row b));
        [reflexivity|]. intros row Hrow. apply Hrows. simpl. auto.
  - pose proof HX as [Hl Hr]. split; [rewrite length_map; exact Hl|].
    apply Forall_forall. intros r Hin. apply in_map_iff in Hin.
    destruct Hin as [row [<- Hrow]]. rewrite zip_with_length.
    + apply (has_shape_In T H X row HX Hrow).
    + rewrite (has_shape_In T H X row HX Hrow). symmetry. exact Hb.
Qed.

Lemma layer_norm_shape (T D : nat) (x : Np.matrix) (eps : R) :
  0 < eps -> Np.has_shape T D x ->
  exists y, layer_norm x eps = Ok y /\ Np.has_shape T D y.
Proof.
  intros He [Hl Hr]. eexists. split; [apply layer_norm_Ok, He|].
  split; [rewrite length_map; exact Hl|].
  apply Forall_forall. intros r Hin. apply in_map_iff in Hin.
  destruct Hin as [row [<- Hrow]]. rewrite length_map.
  rewrite Forall_forall in Hr. apply Hr, Hrow.
Qed.

Lemma eps_default_pos : 0 < eps_default.
Proof. unfold eps_default. lra. Qed.

Lemma attention_shape (T D : nat) (Q K V : Np.matrix) :
  (0 < T)%nat -> (0 < D)%nat ->
  Np.has_shape T D Q -> Np.has_shape T D K -> Np.has_shape T D V ->
  exists O, scaled_dot_product_attention Q K V = Ok O /\ Np.has_shape T D O.
Proof.
  intros HT HD HQ HK HV.
  destruct (attention_weights_spec T D Q K HT HD HQ HK) as [W [HW [HWs _]]].
  destruct (matmul_Ok T T D W V HT HWs HV) as [HO HOs].
  eexists. split; [|exact HOs].
  unfold scaled_dot_product_attention. rewrite HW. exact HO.
Qed.

Lemma feed_forward_shape (T D H : nat) (x W1 : Np.matrix) (b1 : list R)
    (W2 : Np.matrix) (b2 : list R) :
  (0 < D)%nat -> (0 < H)%nat ->
  Np.has_shape T D x -> Np.has_shape D H W1 -> length b1 = H ->
  Np.has_shape H D W2 -> length b2 = D ->
  exists o, feed_forward x W1 b1 W2 b2 = Ok o /\ Np.has_shape T D o.
Proof.
  intros HD HH Hx HW1 Hb1 HW2 Hb2. unfold feed_forward.
  destruct (matmul_Ok T D H x W1 HD Hx HW1) as [E1 S1]. rewrite E1. cbn [bind].
  destruct (add_row_Ok T H _ b1 S1 Hb1) as [E2 S2]. rewrite E2. cbn [bind].
  pose proof (map2_shape (Rmax 0) T H _ S2) as S3. fold (relu (map (fun row => zip_with Rplus row b1)
    (map (fun r => map (fun j => Np.dot r (Np.column j W1)) (seq 0 H)) x))) in S3.
  destruct (matmul_Ok T H D _ W2 HH S3 HW2) as [E3 S4]. rewrite E3. cbn [bind].
  destruct (add_row_Ok T D _ b2 S4 Hb2) as [E4 S5]. rewrite E4.
  eexists. split; [reflexivity|exact S5].
Qed.

Lemma block_is_block_spec (x W_q W_k W_v W1 : Np.matrix) (b1 : list R)
    (W2 : Np.matrix) (b2 : list R) :
  transformer_block x W_q W_k W_v W1 b1 W2 b2 = block_spec x W_q W_k W_v W1 b1 W2 b2.
Proof.
  unfold transformer_block, block_spec, post_norm_sublayer.
  destruct (Np.matmul x W_q) as [Q| |]; cbn [bind]; try reflexivity.
  destruct (Np.matmul x W_k) as [K| |]; cbn [bind]; try reflexivity.
  destruct (Np.matmul x W_v) as [V| |]; cbn [bind]; try reflexivity.
  destruct (scaled_dot_product_attention Q K V) as [a| |]; cbn [bind]; try reflexivity.
  destruct (Np.add x a) as [s| |]; cbn [bind]; reflexivity.
Qed.

(** C3.  [transformer_block] is the post-norm composition, in this order:
    [y = layer_norm(x + attention(x W_q, x W_k, x W_v))], then
    [layer_norm(y + feed_forward(y, W1, b1, W2, b2))].  On a [T x D] input
    with conforming weights every step succeeds and the output is [T x D]. *)
Theorem transformer_block_post_norm (x W_q W_k W_v W1 : Np.matrix) (b1 : list R)
    (W2 : Np.matrix) (b2 : list R) (T D H : nat) :
  (0 < T)%nat -> (0 < D)%nat -> (0 < H)%nat ->
  Np.has_shape T D x ->
  Np.has_shape D D W_q -> Np.has_shape D D W_k -> Np.has_shape D D W_v ->
  Np.has_shape D H W1 -> length b1 = H -> Np.has_shape H D W2 -> length b2 = D ->
  transformer_block x W_q W_k W_v W1 b1 W2 b2
  = block_spec x W_q W_k W_v W1 b1 W2 b2 /\
  exists Q K V attn s1 y ffn s2 out,
    Np.matmul x W_q = Ok Q /\ Np.matmul x W_k = Ok K /\ Np.matmul x W_v = Ok V /\
    scaled_dot_product_attention Q K V = Ok attn /\
    Np.add x attn = Ok s1 /\ layer_norm s1 eps_default = Ok y /\
    feed_forward y W1 b1 W2 b2 = Ok ffn /\
    Np.add y ffn = Ok s2 /\ layer_norm s2 eps_default = Ok out /\
    transformer_block x W_q W_k W_v W1 b1 W2 b2 = Ok out /\
    Np.has_shape T D y /\ Np.has_shape T D out.
Proof.
  intros HT HD HH Hx Hq Hk Hv HW1 Hb1 HW2 Hb2.
  split; [apply block_is_block_spec|].
  destruct (matmul_Ok T D D x W_q HD Hx Hq) as [EQ SQ].
  destruct (matmul_Ok T D D x W_k HD Hx Hk) as [EK SK].
  destruct (matmul_Ok T D D x W_v HD Hx Hv) as [EV SV].
  destruct (attention_shape T D _ _ _ HT HD SQ SK SV) as [attn [EA SA]].
  destruct (add_Ok T D x attn Hx SA) as [E1 S1].
  destruct (layer_norm_shape T D _ eps_default eps_default_pos S1) as [y [Ey Sy]].
  destruct (feed_forward_shape T D H y W1 b1 W2 b2 HD HH Sy HW1 Hb1 HW2 Hb2)
    as [ffn [EF SF]].
  destruct (add_Ok T D y ffn Sy SF) as [E2 S2].
  destruct (layer_norm_shape T D _ eps_default eps_default_pos S2) as [out [Eo So]].
  do 9 eexists.
  repeat (split; [eassumption|]).
  split; [|split; assumption].
  unfold transformer_block. rewrite EQ, EK, EV. cbn [bind].
  rewrite EA. cbn [bind]. rewrite E1. cbn [bind]. rewrite Ey. cbn [bind].
  rewrite EF. cbn [bind]. rewrite E2. cbn [bind]. exact Eo.
Qed.

Lemma transformer_block_post_norm_witness :
  let x := [[1; 2]; [3; 4]] in
  let W_q := [[1; 0]; [0; 1]] in
  let W_k := [[0; 1]; [1; 0]] in
  let W_v := [[1; 1]; [0; 1]] in
  let W1 := [[1; 0; 2]; [0; 1; 1]] in
  let b1 := [0; 1; 0] in
  let W2 := [[1; 0]; [0; 1]; [1; 1]] in
  let b2 := [1; 0] in
  transformer_block x W_q W_k W_v W1 b1 W2 b2
  = block_spec x W_q W_k W_v W1 b1 W2 b2 /\
  exists Q K V attn s1 y ffn s2 out,
    Np.matmul x W_q = Ok Q /\ Np.matmul x W_k = Ok K /\ Np.matmul x W_v = Ok V /\
    scaled_dot_product_attention Q K V = Ok attn /\
    Np.add x attn = Ok s1 /\ layer_norm s1 eps_default = Ok y /\
    feed_forward y W1 b1 W2 b2 = Ok ffn /\
    Np.add y ffn = Ok s2 /\ layer_norm s2 eps_default = Ok out /\
    transformer_block x W_q W_k W_v W1 b1 W2 b2 = Ok out /\
    Np.has_shape 2 2 y /\ Np.has_shape 2 2 out.
Proof.
  apply (transformer_block_post_norm
           [[1; 2]; [3; 4]] [[1; 0]; [0; 1]] [[0; 1]; [1; 0]] [[1; 1]; [0; 1]]
           [[1; 0; 2]; [0; 1; 1]] [0; 1; 0] [[1; 0]; [0; 1]; [1; 1]] [1; 0] 2 2 3);
    try lia; try reflexivity; (split; [reflexivity|repeat constructor]).
Defined.

(** * Further properties of the notebook's functions *)

(** ** Softmax: outcomes, invariance, stability *)

Lemma fold_max_ninf (t : list ext) :
  Forall (fun v => v = NInf) t -> fold_left ext_max t NInf = NInf.
Proof. induction 1 as [|v t -> _ IH]; simpl; [reflexivity|exact IH]. Qed.

(** X1.  The three outcomes of [softmax] on one row: ValueError exactly on
    the empty row, NaN when the row is non-empty and entirely [-inf], a row
    of weights of the same length as soon as one entry is finite. *)
Theorem softmax_outcomes (x : list ext) :
  (x = [] -> softmax x = Raise ValueError) /\
  (x <> [] -> Forall (fun v => v = NInf) x -> softmax x = NonFinite) /\
  (Exists is_fin x -> exists y, softmax x = Ok y /\ length y = length x).
Proof.
  split; [intros ->; reflexivity|]. split.
  - intros Hne Hall. destruct x as [|v t]; [congruence|].
    inversion Hall; subst. unfold softmax. simpl.
    rewrite fold_max_ninf by assumption. reflexivity.
  - intros H. destruct (softmax_row_props x H) as [y [Hy [Hl _]]]. eauto.
Qed.

Lemma softmax_spec_shift (x : list R) (c : R) :
  x <> [] -> softmax_spec (map (fun v => v + c) x) = softmax_spec x.
Proof.
  intros Hne. unfold softmax_spec. rewrite !map_map.
  assert (Hs : Np.sum (map (fun v => exp (v + c)) x) = exp c * Np.sum (map exp x)).
  { rewrite <- sum_map_scale. f_equal. apply map_ext. intros v.
    rewrite exp_plus. ring. }
  rewrite Hs. apply map_ext. intros v. rewrite exp_plus.
  pose proof (exp_pos c). pose proof (exp_sum_pos x Hne). field. lra.
Qed.

(** X2.  Adding one constant to every logit does not change the softmax. *)
Theorem softmax_shift_invariant (x : list R) (c : R) :
  softmax (map Fin (map (fun v => v + c) x)) = softmax (map Fin x).
Proof.
  destruct x as [|a t]; [reflexivity|].
  rewrite !softmax_fin by discriminate.
  rewrite softmax_spec_shift by discriminate. reflexivity.
Qed.

Lemma fold_max_fin_eq (t : list R) (a : R) :
  fold_left ext_max (map Fin t) (Fin a) = Fin (fold_left Rmax t a).
Proof. revert a. induction t as [|v t IH]; intros a; simpl; [reflexivity|apply IH]. Qed.

Lemma fold_Rmax_spec (t : list R) (a : R) :
  In (fold_left Rmax t a) (a :: t) /\
  forall v, In v (a :: t) -> v <= fold_left Rmax t a.
Proof.
  revert a. induction t as [|w t IH]; intros a; simpl.
  - split; [left; reflexivity|]. intros v [<-|Hf]; [lra|destruct Hf].
  - destruct (IH (Rmax a w)) as [Hin Hmax]. split.
    + destruct Hin as [E|Hin]; [|right; right; exact Hin].
      rewrite <- E. unfold Rmax. destruct (Rle_dec a w); [right; left|left]; reflexivity.
    + intros v [<-|[<-|Hv]].
      * eapply Rle_trans; [apply Rmax_l|apply Hmax; left; reflexivity].
      * eapply Rle_trans; [apply Rmax_r|apply Hmax; left; reflexivity].
      * apply Hmax. right. exact Hv.
Qed.

Lemma sum_bounds (x : list R) (lo hi : R) :
  Forall (fun v => lo <= v <= hi) x ->
  INR (length x) * lo <= Np.sum x <= INR (length x) * hi.
Proof.
  induction 1 as [|v t Hv _ IH].
  - simpl. lra.
  - change (length (v :: t)) with (S (length t)). rewrite S_INR. simpl Np.sum. lra.
Qed.

(** ** Layer normalisation: what the output looks like *)

Lemma mapM_map {A B C : Type} (f : B -> outcome C) (h : A -> B) (l : list A) :
  mapM f (map h l) = mapM (fun a => f (h a)) l.
Proof. induction l as [|a t IH]; simpl; [reflexivity|rewrite IH; reflexivity]. Qed.

Lemma mapM_ext {A B : Type} (f f' : A -> outcome B) (l : list A) :
  (forall a, In a l -> f a = f' a) -> mapM f l = mapM f' l.
Proof.
  induction l as [|a t IH]; intros H; simpl; [reflexivity|].
  rewrite (H a (or_introl eq_refl)), IH; [reflexivity|].
  intros b Hb. apply H. right. exact Hb.
Qed.

Lemma sum_map_centered (row : list R) (m s : R) :
  Np.sum (map (fun v => (v - m) / s) row) = (Np.sum row - INR (length row) * m) / s.
Proof.
  induction row as [|a t IH].
  - simpl. unfold Rdiv. lra.
  - change (length (a :: t)) with (S (length t)). rewrite S_INR. simpl.
    rewrite IH. unfold Rdiv. lra.
Qed.

Lemma row_length_pos (row : list R) : row <> [] -> 0 < INR (length row).
Proof. intros H. apply lt_0_INR. destruct row; [congruence|simpl; lia]. Qed.

Lemma row_mean_centered (row : list R) :
  row <> [] -> Np.sum row - INR (length row) * row_mean row = 0.
Proof.
  intros H. pose proof (row_length_pos row H). unfold row_mean. field. lra.
Qed.

Lemma sum_sq_scaled (row : list R) (m s : R) :
  s <> 0 ->
  Np.sum (map (fun w => (w - 0) ^ 2) (map (fun v => (v - m) / s) row))
  = Np.sum (map (fun v => (v - m) ^ 2) row) / (s * s).
Proof.
  intros Hs. rewrite map_map. unfold Np.sum. induction row as [|a t IH].
  - simpl. unfold Rdiv. lra.
  - cbn [map fold_right]. rewrite IH. field. exact Hs.
Qed.

(** X5.  For [eps > 0] every non-empty row of the output of [layer_norm]
    has mean exactly 0 and population standard deviation
    [sigma / (sigma + eps)], below 1, where [sigma] is the deviation of the
    input row. *)
Theorem layer_norm_standardizes (x : Np.matrix) (eps : R) :
  0 < eps ->
  exists y, layer_norm x eps = Ok y /\
    Forall2 (fun row out =>
               row <> [] ->
               row_mean out = 0 /\
               row_pstd out = row_pstd row / (row_pstd row + eps) /\
               row_pstd out < 1) x y.
Proof.
  intros He. eexists. split; [apply layer_norm_Ok, He|].
  induction x as [|row x IH]; simpl; constructor; [|exact IH].
  intros Hne. pose proof (row_pstd_nonneg row) as Hs.
  pose proof (row_length_pos row Hne) as Hn.
  set (s := row_pstd row + eps). assert (Hsp : 0 < s) by (unfold s; lra).
  set (out := map (fun v => (v - row_mean row) / s) row).
  assert (Hmean : row_mean out = 0).
  { unfold row_mean at 1, out. rewrite sum_map_centered, length_map.
    rewrite row_mean_centered by exact Hne. unfold Rdiv. ring. }
  assert (Hstd : row_pstd out = row_pstd row / s).
  { unfold row_pstd at 1. rewrite Hmean. unfold out.
    rewrite sum_sq_scaled by lra. rewrite length_map.
    replace (Np.sum (map (fun v => (v - row_mean row) ^ 2) row) / (s * s)
             / INR (length row))
      with (Np.sum (map (fun v => (v - row_mean row) ^ 2) row) / INR (length row)
            / (s * s)) by (field; lra).
    rewrite sqrt_div_alt by nra. rewrite sqrt_square by lra. reflexivity. }
  split; [exact Hmean|]. split; [exact Hstd|].
  rewrite Hstd. apply (Rmult_lt_reg_r s); [exact Hsp|].
  unfold Rdiv. rewrite Rmult_assoc, Rinv_l by lra. unfold s. lra.
Qed.

Lemma layer_norm_standardizes_witness :
  exists y, layer_norm [[1; 3]; [2; 2]] eps_default = Ok y /\
    Forall2 (fun row out =>
               row <> [] ->
               row_mean out = 0 /\
               row_pstd out = row_pstd row / (row_pstd row + eps_default) /\
               row_pstd out < 1) [[1; 3]; [2; 2]] y.
Proof. apply (layer_norm_standardizes [[1; 3]; [2; 2]] eps_default eps_default_pos). Defined.

Lemma row_mean_shift (row : list R) (c : R) :
  row <> [] -> row_mean (map (fun v => v + c) row) = row_mean row + c.
Proof.
  intros Hne. pose proof (row_length_pos row Hne). unfold row_mean.
  rewrite length_map.
  assert (Np.sum (map (fun v => v + c) row) = Np.sum row + INR (length row) * c).
  { clear. induction row as [|a t IH]; [simpl; lra|].
    change (length (a :: t)) with (S (length t)). rewrite S_INR. simpl.
    rewrite IH. lra. }
  rewrite H0. field. lra.
Qed.

Lemma row_pstd_shift (row : list R) (c : R) :
  row <> [] -> row_pstd (map (fun v => v + c) row) = row_pstd row.
Proof.
  intros Hne. unfold row_pstd. rewrite row_mean_shift by exact Hne.
  rewrite length_map, map_map. f_equal. f_equal. f_equal.
  apply map_ext. intros v. f_equal. lra.
Qed.

Lemma layer_norm_row_nonempty (eps : R) (row : list R) :
  row <> [] ->
  layer_norm_row eps row
  = mapM (fun v => Np.div (v - row_mean row) (row_pstd row + eps)) row.
Proof.
  intros Hne. unfold layer_norm_row. rewrite (mean_Ok _ Hne), (std_Ok _ Hne).
  destruct row; [congruence|reflexivity].
Qed.

(** X6.  [layer_norm] does not see a constant added to a row: shifting
    every row by one constant gives the same outcome, for every [eps]. *)
Theorem layer_norm_shift_invariant (x : Np.matrix) (eps c : R) :
  layer_norm (map (map (fun v => v + c)) x) eps = layer_norm x eps.
Proof.
  unfold layer_norm. rewrite mapM_map. apply mapM_ext. intros row _.
  destruct row as [|a t] eqn:E; [reflexivity|]. rewrite <- E.
  assert (Hne : row <> []) by (rewrite E; discriminate).
  assert (Hne' : map (fun v => v + c) row <> []) by (rewrite E; discriminate).
  rewrite !layer_norm_row_nonempty by assumption.
  rewrite row_mean_shift, row_pstd_shift by exact Hne.
  rewrite mapM_map. apply mapM_ext. intros v _. f_equal. lra.
Qed.

(** ** The causal mask and the rows of attention *)

(** X8.  [causal_mask(T)] is the [T x T] lower triangle of ones: row [i] is
    [i + 1] ones followed by zeros. *)
Theorem causal_mask_rows (T i : nat) :
  (i < T)%nat ->
  Np.has_shape T T (causal_mask T) /\
  nth i (causal_mask T) [] = repeat 1 (S i) ++ repeat 0 (T - S i).
Proof.
  intros Hi. pose proof (causal_mask_shape T) as Hs. split; [exact Hs|].
  pose proof (has_shape_nth T T (causal_mask T) i Hs Hi) as Hl.
  apply (nth_ext _ _ 0 0).
  - rewrite Hl, length_app, !repeat_length. lia.
  - intros j Hj. rewrite Hl in Hj.
    fold (entry (causal_mask T) i j). rewrite causal_mask_entry by assumption.
    destruct (Nat.leb_spec j i).
    + rewrite app_nth1 by (rewrite repeat_length; lia).
      symmetry. apply nth_repeat_lt. lia.
    + rewrite app_nth2 by (rewrite repeat_length; lia).
      rewrite repeat_length. symmetry. apply nth_repeat_lt. lia.
Qed.

Lemma causal_mask_rows_witness :
  Np.has_shape 3 3 (causal_mask 3) /\
  nth 1 (causal_mask 3) [] = repeat 1 2 ++ repeat 0 (3 - 2).
Proof. apply (causal_mask_rows 3 1). lia. Defined.

Lemma nth_nil_R (d : nat) : nth d (@nil R) 0 = 0.
Proof. destruct d; reflexivity. Qed.

Lemma column_nth (d j : nat) (K : Np.matrix) :
  nth j (Np.column d K) 0 = nth d (nth j K []) 0.
Proof.
  unfold Np.column. rewrite <- (nth_nil_R d) at 1.
  apply (map_nth (fun r => nth d r 0)).
Qed.

Lemma column_transpose (T D : nat) (K : Np.matrix) (j : nat) :
  (0 < T)%nat -> Np.has_shape T D K -> (j < T)%nat ->
  Np.column j (Np.transpose K) = nth j K [].
Proof.
  intros HT HK Hj. unfold Np.transpose. rewrite (has_shape_ncols T D K HK HT).
  unfold Np.column at 1. rewrite map_map.
  transitivity (gather (nth j K []) (seq 0 (length (nth j K []))));
    [|apply gather_seq].
  rewrite (has_shape_nth T D K j HK Hj). unfold gather.
  apply map_ext. intros d. apply column_nth.
Qed.

Lemma product_entry (T M : nat) (A : Np.matrix) (f : list R -> nat -> R) (i j : nat) :
  length A = T -> (i < T)%nat -> (j < M)%nat ->
  entry (map (fun r => map (fun j => f r j) (seq 0 M)) A) i j = f (nth i A []) j.
Proof.
  intros HA Hi Hj. unfold entry.
  rewrite (nth_indep _ [] ((fun r => map (fun j => f r j) (seq 0 M)) []))
    by (rewrite length_map; lia).
  rewrite (map_nth (fun r => map (fun j => f r j) (seq 0 M))).
  rewrite (nth_indep _ 0 (f (nth i A []) 0%nat)) by (rewrite length_map, length_seq; exact Hj).
  rewrite (map_nth (f (nth i A []))), seq_nth by exact Hj. reflexivity.
Qed.

(** The array handed to softmax: scaled dot products on and below the
    diagonal, [-inf] above. *)
Lemma attention_weights_masked (T D : nat) (Q K : Np.matrix) :
  (0 < T)%nat -> (0 < D)%nat -> Np.has_shape T D Q -> Np.has_shape T D K ->
  exists masked, attention_weights Q K = mapM softmax masked /\
    Np.has_shape T T masked /\
    forall i j, (i < T)%nat -> (j < T)%nat ->
      nth j (nth i masked []) NInf
      = if (j <=? i)%nat
        then Fin (Np.dot (nth i Q []) (nth j K []) / sqrt (INR D))
        else NInf.
Proof.
  intros HT HD HQ HK. unfold attention_weights.
  destruct (matmul_Ok T D T Q (Np.transpose K) HD HQ (transpose_shape T D K HT HK))
    as [Hqk Hqks].
  rewrite Hqk. cbn [bind]. rewrite (has_shape_ncols T D Q HQ HT).
  assert (Hsq : sqrt (INR D) <> 0).
  { pose proof (sqrt_lt_R0 (INR D) (lt_0_INR D HD)). lra. }
  rewrite (mapM2_Ok _ (fun v => v / sqrt (INR D))) by (intros; apply div_Ok, Hsq).
  cbn [bind]. unfold Np.nrows. pose proof HQ as [HQl _]. rewrite HQl.
  match goal with |- context [where_mask _ ?s] => set (scores := s) end.
  assert (Hss : Np.has_shape T T scores) by (apply map2_shape, Hqks).
  destruct (where_mask_Ok T scores Hss) as [masked [Hm [Hms Hme]]].
  rewrite Hm. cbn [bind]. exists masked. split; [reflexivity|]. split; [exact Hms|].
  intros i j Hi Hj. rewrite Hme by assumption.
  destruct (j <=? i)%nat; [|reflexivity]. f_equal. unfold scores.
  rewrite (map2_entry _ T T) by assumption.
  rewrite (product_entry T T Q (fun r j => Np.dot r (Np.column j (Np.transpose K))))
    by assumption.
  rewrite (column_transpose T D K j HT HK Hj). reflexivity.
Qed.

Lemma softmax_masked_prefix (x : list R) (n : nat) :
  x <> [] ->
  softmax (map Fin x ++ repeat NInf n) = Ok (softmax_spec x ++ repeat 0 n).
Proof.
  intros Hne.
  assert (H : Exists is_fin (map Fin x ++ repeat NInf n)).
  { apply Exists_app. left. apply fin_row_exists, Hne. }
  destruct (softmax_row_ok _ H) as [m [_ Hs]]. rewrite Hs. f_equal.
  assert (HS : Np.sum (map (exp_shift m) (map Fin x ++ repeat NInf n))
               = exp (- m) * Np.sum (map exp x)).
  { rewrite map_app, sum_app, exp_shift_fin_sum, map_repeat.
    rewrite (sum_zeros (repeat (exp_shift m NInf) n)); [lra|].
    apply Forall_forall. intros v Hv. apply repeat_spec in Hv. subst. reflexivity. }
  rewrite HS, map_app, map_repeat. f_equal.
  - unfold softmax_spec. rewrite map_map. apply map_ext. intros a. simpl.
    pose proof (exp_sum_pos x Hne). pose proof (exp_pos (- m)).
    replace (a - m) with (- m + a) by lra. rewrite exp_plus. field. lra.
  - simpl. f_equal. unfold Rdiv. ring.
Qed.

Lemma dot_app_zeros (w c : list R) (n : nat) :
  Np.dot (w ++ repeat 0 n) c = Np.dot w c.
Proof.
  unfold Np.dot. revert c. induction w as [|a w IH]; intros c.
  - simpl. apply sum_zeros, Forall_forall. intros v Hv.
    apply in_map_iff in Hv. destruct Hv as [[z b] [<- Hzb]].
    apply in_combine_l, repeat_spec in Hzb. subst. simpl. ring.
  - destruct c as [|b c]; [reflexivity|]. simpl. rewrite IH. reflexivity.
Qed.

Lemma dot_firstn (w c : list R) : Np.dot w (firstn (length w) c) = Np.dot w c.
Proof. unfold Np.dot. rewrite <- combine_firstn_l. reflexivity. Qed.

Lemma firstn_S_nonempty {A : Type} (i T : nat) (K : list A) :
  length K = T -> (i < T)%nat -> firstn (S i) K <> [] /\ length (firstn (S i) K) = S i.
Proof.
  intros HK Hi. assert (Hl : length (firstn (S i) K) = S i) by (rewrite length_firstn; lia).
  split; [|exact Hl]. intros E. rewrite E in Hl. discriminate.
Qed.

(** Every row of causal attention, written out. *)
Lemma attention_rows (T D : nat) (Q K V : Np.matrix) :
  (0 < T)%nat -> (0 < D)%nat ->
  Np.has_shape T D Q -> Np.has_shape T D K -> Np.has_shape T D V ->
  exists O, scaled_dot_product_attention Q K V = Ok O /\
    forall i, (i < T)%nat ->
      nth i O [] = attention_row D (nth i Q []) (firstn (S i) K) (firstn (S i) V).
Proof.
  intros HT HD HQ HK HV.
  destruct (attention_weights_masked T D Q K HT HD HQ HK) as [masked [HW [Hms Hme]]].
  destruct (attention_weights_spec T D Q K HT HD HQ HK) as [W [HW' [HWs _]]].
  pose proof HW' as HWok. rewrite HW in HW'. apply mapM_inv in HW'.
  destruct (matmul_Ok T T D W V HT HWs HV) as [HO _].
  eexists. split.
  { unfold scaled_dot_product_attention. rewrite HWok. exact HO. }
  intros i Hi. pose proof Hms as [Hml _]. pose proof HK as [HKl _].
  pose proof HV as [HVl _]. pose proof HWs as [HWl _].
  destruct (firstn_S_nonempty i T K HKl Hi) as [HKne HKfl].
  set (x := map (fun k => Np.dot (nth i Q []) k / sqrt (INR D)) (firstn (S i) K)).
  assert (Hxl : length x = S i) by (unfold x; rewrite length_map; exact HKfl).
  assert (Hrow : nth i masked [] = map Fin x ++ repeat NInf (T - S i)).
  { apply (nth_ext _ _ NInf NInf).
    - rewrite (has_shape_nth T T masked i Hms Hi), length_app, length_map.
      rewrite repeat_length, Hxl. lia.
    - intros j Hj. rewrite (has_shape_nth T T masked i Hms Hi) in Hj.
      rewrite Hme by assumption. destruct (Nat.leb_spec j i).
      + rewrite app_nth1 by (rewrite length_map, Hxl; lia).
        unfold x. rewrite map_map.
        rewrite (nth_indep _ NInf ((fun k => Fin (Np.dot (nth i Q []) k / sqrt (INR D))) []))
          by (rewrite length_map, HKfl; lia).
        rewrite (map_nth (fun k => Fin (Np.dot (nth i Q []) k / sqrt (INR D)))).
        rewrite nth_firstn. destruct (Nat.ltb_spec j (S i)); [reflexivity|lia].
      + rewrite app_nth2 by (rewrite length_map, Hxl; lia).
        symmetry. apply nth_repeat_lt. rewrite length_map, Hxl. lia. }
  pose proof (Forall2_nth _ masked W [] [] i HW') as Hsi.
  cbv beta in Hsi. rewrite Hrow in Hsi.
  rewrite softmax_masked_prefix in Hsi
    by (intros E; rewrite E in Hxl; discriminate).
  specialize (Hsi ltac:(lia)). injection Hsi as Hwi.
  set (f := fun r => map (fun j => Np.dot r (Np.column j V)) (seq 0 D)).
  rewrite (nth_indep _ [] (f [])) by (rewrite length_map; lia).
  rewrite (map_nth f). unfold f, attention_row. fold x. rewrite <- Hwi.
  apply map_ext. intros j. rewrite dot_app_zeros.
  unfold Np.column. rewrite <- firstn_map.
  replace (S i) with (length (softmax_spec x))
    by (rewrite softmax_spec_length; exact Hxl).
  symmetry. apply dot_firstn.
Qed.

(** X9.  The output of [scaled_dot_product_attention] on [T x D] inputs is
    [T x D], and its row [i] is the combination of the value rows [0..i]
    weighted by the softmax of [q_i . k_j / sqrt(D)] over the keys
    [j <= i]. *)
Theorem attention_row_formula (T D : nat) (Q K V : Np.matrix) :
  (0 < T)%nat -> (0 < D)%nat ->
  Np.has_shape T D Q -> Np.has_shape T D K -> Np.has_shape T D V ->
  exists O, scaled_dot_product_attention Q K V = Ok O /\
    Np.has_shape T D O /\
    forall i, (i < T)%nat ->
      nth i O [] = attention_row D (nth i Q []) (firstn (S i) K) (firstn (S i) V).
Proof.
  intros HT HD HQ HK HV.
  destruct (attention_rows T D Q K V HT HD HQ HK HV) as [O [HO Hr]].
  destruct (attention_shape T D Q K V HT HD HQ HK HV) as [O' [HO' SO]].
  rewrite HO in HO'. injection HO' as <-.
  exists O. split; [exact HO|]. split; [exact SO|exact Hr].
Qed.

Lemma attention_row_formula_witness :
  exists O,
    scaled_dot_product_attention [[1; 0]; [0; 1]] [[1; 0]; [0; 1]] [[5; 6]; [7; 8]]
    = Ok O /\
    Np.has_shape 2 2 O /\
    forall i, (i < 2)%nat ->
      nth i O [] = attention_row 2 (nth i [[1; 0]; [0; 1]] [])
                     (firstn (S i) [[1; 0]; [0; 1]]) (firstn (S i) [[5; 6]; [7; 8]]).
Proof.
  apply (attention_row_formula 2 2 [[1; 0]; [0; 1]] [[1; 0]; [0; 1]] [[5; 6]; [7; 8]]);
    try lia; (split; [reflexivity|repeat constructor]).
Defined.

(** X10.  Causality: two calls whose inputs agree on query [i] and on the
    keys and values at positions [0..i] give the same output row [i],
    whatever the later positions hold. *)
Theorem attention_is_causal (T D : nat) (Q K V Q' K' V' : Np.matrix) (i : nat) :
  (0 < D)%nat -> (i < T)%nat ->
  Np.has_shape T D Q -> Np.has_shape T D K -> Np.has_shape T D V ->
  Np.has_shape T D Q' -> Np.has_shape T D K' -> Np.has_shape T D V' ->
  nth i Q [] = nth i Q' [] ->
  firstn (S i) K = firstn (S i) K' -> firstn (S i) V = firstn (S i) V' ->
  exists O O',
    scaled_dot_product_attention Q K V = Ok O /\
    scaled_dot_product_attention Q' K' V' = Ok O' /\
    nth i O [] = nth i O' [].
Proof.
  intros HD Hi HQ HK HV HQ' HK' HV' EQ EK EV.
  assert (HT : (0 < T)%nat) by lia.
  destruct (attention_rows T D Q K V HT HD HQ HK HV) as [O [HO Hr]].
  destruct (attention_rows T D Q' K' V' HT HD HQ' HK' HV') as [O' [HO' Hr']].
  exists O, O'. split; [exact HO|]. split; [exact HO'|].
  rewrite (Hr i Hi), (Hr' i Hi), EQ, EK, EV. reflexivity.
Qed.

Lemma attention_is_causal_witness :
  exists O O',
    scaled_dot_product_attention [[1; 0]; [0; 1]] [[1; 0]; [0; 1]] [[5; 6]; [7; 8]]
    = Ok O /\
    scaled_dot_product_attention [[1; 0]; [3; 4]] [[1; 0]; [2; 2]] [[5; 6]; [0; 9]]
    = Ok O' /\
    nth 0 O [] = nth 0 O' [].
Proof.
  apply (attention_is_causal 2 2 [[1; 0]; [0; 1]] [[1; 0]; [0; 1]] [[5; 6]; [7; 8]]
           [[1; 0]; [3; 4]] [[1; 0]; [2; 2]] [[5; 6]; [0; 9]] 0);
    try lia; try reflexivity; (split; [reflexivity|repeat constructor]).
Defined.

(** X11.  Shapes that do not fit make attention raise: keys of another
    width than the queries fail in [Q @ K.T], values with another number of
    rows fail in [weights @ V]. *)
Theorem attention_shape_mismatch (T D : nat) (Q K V : Np.matrix) :
  (0 < T)%nat -> (0 < D)%nat -> Np.has_shape T D Q ->
  (forall D', D' <> D -> Np.has_shape T D' K ->
     scaled_dot_product_attention Q K V = Raise ValueError) /\
  (Np.has_shape T D K -> length V <> T ->
     scaled_dot_product_attention Q K V = Raise ValueError).
Proof.
  intros HT HD HQ. split.
  - intros D' Hne HK. unfold scaled_dot_product_attention, attention_weights, Np.matmul.
    unfold Np.transpose at 1. rewrite length_map, length_seq.
    rewrite (has_shape_ncols T D' K HK HT).
    destruct Q as [|q Q']; [destruct HQ as [HQl _]; simpl in HQl; lia|].
    assert (Hq : length q = D) by (apply (has_shape_In T D (q :: Q')); [exact HQ|left; reflexivity]).
    simpl forallb. rewrite Hq.
    destruct (Nat.eqb_spec D D') as [E|_]; [congruence|]. reflexivity.
  - intros HK HV.
    destruct (attention_weights_spec T D Q K HT HD HQ HK) as [W [HW [HWs _]]].
    unfold scaled_dot_product_attention. rewrite HW. cbn [bind]. unfold Np.matmul.
    destruct W as [|w W']; [destruct HWs as [HWl _]; simpl in HWl; lia|].
    assert (Hw : length w = T) by (apply (has_shape_In T T (w :: W')); [exact HWs|left; reflexivity]).
    simpl forallb. rewrite Hw.
    destruct (Nat.eqb_spec T (length V)) as [E|_]; [congruence|]. reflexivity.
Qed.

Lemma attention_shape_mismatch_witness :
  scaled_dot_product_attention [[1; 0]; [0; 1]] [[1]; [2]] [[5; 6]; [7; 8]]
  = Raise ValueError.
Proof.
  destruct (attention_shape_mismatch 2 2 [[1; 0]; [0; 1]] [[1]; [2]] [[5; 6]; [7; 8]])
    as [H _]; try lia.
  - split; [reflexivity|repeat constructor].
  - apply (H 1%nat); [lia|]. split; [reflexivity|repeat constructor].
Defined.

(** ** Dropout at and beyond [p = 1] *)

Lemma mapM2_NonFinite (f : R -> outcome R) (X : Np.matrix) (T D : nat) :
  (0 < T)%nat -> (0 < D)%nat -> Np.has_shape T D X ->
  (forall v, f v = NonFinite) -> mapM (mapM f) X = NonFinite.
Proof.
  intros HT HD HX Hf. destruct X as [|r X']; [destruct HX as [Hl _]; simpl in Hl; lia|].
  assert (Hr : length r = D) by (apply (has_shape_In T D (r :: X')); [exact HX|left; reflexivity]).
  destruct r as [|v r']; [simpl in Hr; lia|]. simpl. rewrite Hf. reflexivity.
Qed.

(** X12.  Outside [0 <= p < 1]: with [p = 1] every element is divided by
    zero and the result is not finite; with [p > 1] no draw from [0,1)
    exceeds [p] and the result is silently all zeros. *)
Theorem dropout_invalid_p (x : Np.matrix) (T D : nat) (p : R) (g : rng) :
  (0 < T)%nat -> (0 < D)%nat -> Np.has_shape T D x -> rng_valid g ->
  (p = 1 -> fst (dropout x p g) = NonFinite) /\
  (1 < p -> fst (dropout x p g) = Ok (map (map (fun _ => 0)) x)).
Proof.
  intros HT HD Hx Hg. unfold dropout. rewrite (rand2_like T D x g Hx).
  destruct (rand2_spec T D g) as [Hrs [Hre _]].
  destruct (rand2 g T D) as [r g']. simpl in Hrs, Hre.
  set (mask := map (map (fun u => if Rgt_dec u p then 1 else 0)) r).
  assert (Hms : Np.has_shape T D mask) by (apply map2_shape, Hrs).
  unfold mul. rewrite (bcast2_zip _ Rmult T D x mask Hx Hms) by reflexivity.
  cbn [fst bind].
  pose proof (zip2_shape Rmult T D x mask Hx Hms) as Hzs. split.
  - intros ->. apply (mapM2_NonFinite _ _ T D HT HD Hzs).
    intros v. unfold Np.div. destruct (Req_dec_T (1 - 1) 0) as [_|E]; [reflexivity|lra].
  - intros Hp. rewrite (mapM2_Ok _ (fun v => v / (1 - p))) by (intros; apply div_Ok; lra).
    f_equal. apply (matrix_ext T D).
    + apply map2_shape, Hzs.
    + apply map2_shape, Hx.
    + intros i j Hi Hj. rewrite (map2_entry _ T D) by assumption.
      rewrite (zip2_entry Rmult T D) by assumption.
      unfold mask. rewrite (map2_entry _ T D) by assumption.
      rewrite (map2_entry (fun _ => 0) T D) by assumption.
      rewrite Hre by assumption.
      destruct (Rgt_dec (g (i * D + j)%nat) p) as [Hgt|_].
      * destruct (Hg (i * D + j)%nat). lra.
      * unfold Rdiv. ring.
Qed.

Lemma dropout_invalid_p_witness :
  fst (dropout [[1; 2]; [3; 4]] 1 (fun _ => / 2)) = NonFinite /\
  fst (dropout [[1; 2]; [3; 4]] 2 (fun _ => / 2))
  = Ok (map (map (fun _ => 0)) [[1; 2]; [3; 4]]).
Proof.
  split.
  - apply (dropout_invalid_p [[1; 2]; [3; 4]] 2 2 1 (fun _ => / 2)); try lia;
      try reflexivity; [split; [reflexivity|repeat constructor]|intros n; lra].
  - apply (dropout_invalid_p [[1; 2]; [3; 4]] 2 2 2 (fun _ => / 2)); try lia;
      try lra; [split; [reflexivity|repeat constructor]|intros n; lra].
Defined.

(** ** Feed-forward network and output layer *)

Lemma feed_forward_rows (T D H : nat) (x W1 : Np.matrix) (b1 : list R)
    (W2 : Np.matrix) (b2 : list R) :
  (0 < D)%nat -> (0 < H)%nat ->
  Np.has_shape T D x -> Np.has_shape D H W1 -> length b1 = H ->
  Np.has_shape H D W2 -> length b2 = D ->
  feed_forward x W1 b1 W2 b2 = Ok (map (feed_forward_row W1 b1 W2 b2) x).
Proof.
  intros HD HH Hx HW1 Hb1 HW2 Hb2. unfold feed_forward.
  destruct (matmul_Ok T D H x W1 HD Hx HW1) as [E1 S1]. rewrite E1. cbn [bind].
  destruct (add_row_Ok T H _ b1 S1 Hb1) as [E2 S2]. rewrite E2. cbn [bind].
  pose proof (map2_shape (Rmax 0) T H _ S2) as S3.
  unfold relu.
  destruct (matmul_Ok T H D _ W2 HH S3 HW2) as [E3 S4]. rewrite E3. cbn [bind].
  destruct (add_row_Ok T D _ b2 S4 Hb2) as [E4 _]. rewrite E4. f_equal.
  rewrite !map_map. unfold feed_forward_row. rewrite Hb1, Hb2. reflexivity.
Qed.

(** X13.  The feed-forward network works position by position: on
    conforming shapes it returns a [T x D] array whose row [i] is what the
    network returns on row [i] of the input alone. *)
Theorem feed_forward_position_wise (T D H : nat) (x W1 : Np.matrix) (b1 : list R)
    (W2 : Np.matrix) (b2 : list R) :
  (0 < D)%nat -> (0 < H)%nat ->
  Np.has_shape T D x -> Np.has_shape D H W1 -> length b1 = H ->
  Np.has_shape H D W2 -> length b2 = D ->
  exists out, feed_forward x W1 b1 W2 b2 = Ok out /\ Np.has_shape T D out /\
    forall i, (i < T)%nat ->
      feed_forward [nth i x []] W1 b1 W2 b2 = Ok [nth i out []].
Proof.
  intros HD HH Hx HW1 Hb1 HW2 Hb2.
  exists (map (feed_forward_row W1 b1 W2 b2) x).
  split; [apply (feed_forward_rows T D H); assumption|]. split.
  - destruct (feed_forward_shape T D H x W1 b1 W2 b2 HD HH Hx HW1 Hb1 HW2 Hb2)
      as [o [Ho So]].
    rewrite (feed_forward_rows T D H) in Ho by assumption. injection Ho as <-. exact So.
  - intros i Hi. rewrite (feed_forward_rows 1 D H); try assumption.
    + simpl. f_equal. f_equal. symmetry.
      rewrite (nth_indep _ [] (feed_forward_row W1 b1 W2 b2 []))
        by (rewrite length_map; destruct Hx as [Hl _]; lia).
      apply map_nth.
    + split; [reflexivity|]. constructor; [|constructor].
      apply (has_shape_nth T D x i Hx Hi).
Qed.

Lemma feed_forward_position_wise_witness :
  exists out,
    feed_forward [[1; 2]; [3; 4]] [[1; 0; 2]; [0; 1; 1]] [0; 1; 0]
      [[1; 0]; [0; 1]; [1; 1]] [1; 0] = Ok out /\
    Np.has_shape 2 2 out /\
    forall i, (i < 2)%nat ->
      feed_forward [nth i [[1; 2]; [3; 4]] []] [[1; 0; 2]; [0; 1; 1]] [0; 1; 0]
        [[1; 0]; [0; 1]; [1; 1]] [1; 0] = Ok [nth i out []].
Proof.
  apply (feed_forward_position_wise 2 2 3 [[1; 2]; [3; 4]] [[1; 0; 2]; [0; 1; 1]]
           [0; 1; 0] [[1; 0]; [0; 1]; [1; 1]] [1; 0]);
    try lia; try reflexivity; (split; [reflexivity|repeat constructor]).
Defined.

Lemma matmul_mismatch (T D : nat) (A B : Np.matrix) :
  (0 < T)%nat -> Np.has_shape T D A -> length B <> D ->
  Np.matmul A B = Raise ValueError.
Proof.
  intros HT HA HB. unfold Np.matmul.
  destruct A as [|a A']; [destruct HA as [Hl _]; simpl in Hl; lia|].
  assert (Ha : length a = D) by (apply (has_shape_In T D (a :: A')); [exact HA|left; reflexivity]).
  simpl forallb. rewrite Ha.
  destruct (Nat.eqb_spec D (length B)) as [E|_]; [congruence|reflexivity].
Qed.

(** X14.  A weight matrix whose number of rows is not the width of what it
    multiplies makes [feed_forward] raise ValueError, at the first product
    or at the second. *)
Theorem feed_forward_shape_mismatch (T D H : nat) (x W1 : Np.matrix) (b1 : list R)
    (W2 : Np.matrix) (b2 : list R) :
  (0 < T)%nat -> (0 < D)%nat -> Np.has_shape T D x ->
  (length W1 <> D -> feed_forward x W1 b1 W2 b2 = Raise ValueError) /\
  (Np.has_shape D H W1 -> length b1 = H -> length W2 <> H ->
   feed_forward x W1 b1 W2 b2 = Raise ValueError).
Proof.
  intros HT HD Hx. unfold feed_forward. split.
  - intros HW1. rewrite (matmul_mismatch T D x W1 HT Hx HW1). reflexivity.
  - intros HW1 Hb1 HW2.
    destruct (matmul_Ok T D H x W1 HD Hx HW1) as [E1 S1]. rewrite E1. cbn [bind].
    destruct (add_row_Ok T H _ b1 S1 Hb1) as [E2 S2]. rewrite E2. cbn [bind].
    pose proof (map2_shape (Rmax 0) T H _ S2) as S3. unfold relu.
    rewrite (matmul_mismatch T H _ W2 HT S3 HW2). reflexivity.
Qed.

Lemma feed_forward_shape_mismatch_witness :
  feed_forward [[1; 2]; [3; 4]] [[1; 0; 2]] [0; 1; 0] [[1; 0]; [0; 1]; [1; 1]] [1; 0]
  = Raise ValueError.
Proof.
  destruct (feed_forward_shape_mismatch 2 2 3 [[1; 2]; [3; 4]] [[1; 0; 2]] [0; 1; 0]
              [[1; 0]; [0; 1]; [1; 1]] [1; 0]) as [Hfirst _]; try lia.
  - split; [reflexivity|repeat constructor].
  - apply Hfirst. simpl. lia.
Defined.

(** X15.  [output_layer] on [T x D] activations with [D x N] weights and
    [N] biases returns the [T x N] logits [x_i . W[:, j] + b_j]; weights with
    another number of rows raise ValueError. *)
Theorem output_layer_logits (T D N : nat) (x W_out : Np.matrix) (b_out : list R) :
  (0 < T)%nat -> (0 < D)%nat -> Np.has_shape T D x ->
  (Np.has_shape D N W_out -> length b_out = N ->
   exists logits, output_layer x W_out b_out = Ok logits /\
     Np.has_shape T N logits /\
     forall i j, (i < T)%nat -> (j < N)%nat ->
       entry logits i j = Np.dot (nth i x []) (Np.column j W_out) + nth j b_out 0) /\
  (length W_out <> D -> output_layer x W_out b_out = Raise ValueError).
Proof.
  intros HT HD Hx. unfold output_layer. split.
  - intros HW Hb.
    destruct (matmul_Ok T D N x W_out HD Hx HW) as [E1 S1]. rewrite E1. cbn [bind].
    destruct (add_row_Ok T N _ b_out S1 Hb) as [E2 S2]. rewrite E2.
    eexists. split; [reflexivity|]. split; [exact S2|].
    intros i j Hi Hj. unfold entry.
    set (f := fun row => zip_with Rplus row b_out).
    pose proof S1 as [S1l _].
    rewrite (nth_indep _ [] (f [])) by (rewrite length_map; lia).
    rewrite (map_nth f). unfold f.
    rewrite (zip_with_nth Rplus _ _ 0 0 0 j)
      by (rewrite ?(has_shape_nth T N _ i S1 Hi); lia).
    f_equal. pose proof Hx as [Hxl _].
    apply (product_entry T N x (fun r j => Np.dot r (Np.column j W_out)) i j Hxl Hi Hj).
  - intros HW. rewrite (matmul_mismatch T D x W_out HT Hx HW). reflexivity.
Qed.

Lemma output_layer_logits_witness :
  exists logits, output_layer [[1; 2]; [3; 4]] [[1; 0; 2]; [0; 1; 1]] [0; 1; 0] = Ok logits /\
    Np.has_shape 2 3 logits /\
    forall i j, (i < 2)%nat -> (j < 3)%nat ->
      entry logits i j
      = Np.dot (nth i [[1; 2]; [3; 4]] []) (Np.column j [[1; 0; 2]; [0; 1; 1]])
        + nth j [0; 1; 0] 0.
Proof.
  destruct (output_layer_logits 2 2 3 [[1; 2]; [3; 4]] [[1; 0; 2]; [0; 1; 1]] [0; 1; 0])
    as [H _]; try lia.
  - split; [reflexivity|repeat constructor].
  - apply H; [split; [reflexivity|repeat constructor]|reflexivity].
Defined.

(** ** Cross-entropy: value, sign, edge cases *)

Lemma zip_with_length_min {A B C : Type} (h : A -> B -> C) (x : list A) (y : list B) :
  length (zip_with h x y) = Nat.min (length x) (length y).
Proof. unfold zip_with. rewrite length_map. apply length_combine. Qed.

Lemma item_wrapped {A : Type} (a : list A) (d : A) (t : Z) :
  (- Z.of_nat (length a) <= t < Z.of_nat (length a))%Z ->
  Np.item a t = Ok (nth (row_of (length a) t) a d).
Proof.
  intros H. destruct (item_cases a d t) as [[_ Hi]|[Hr _]]; [exact Hi|lia].
Qed.

(** The gather of the loss when there are at most as many targets as rows
    and targets may count from the end. *)
Lemma take2_targets (m : Np.matrix) (cols : list Z) (T N : nat) :
  Np.has_shape T N m -> (length cols <= T)%nat ->
  Forall (fun t => (- Z.of_nat N <= t < Z.of_nat N)%Z) cols ->
  Np.take2 m (Np.arange (length cols)) cols
  = Ok (zip_with (fun row t => nth (row_of N t) row 0) m cols).
Proof.
  intros Hm Hl Hc. unfold Np.take2. pose proof Hm as [HmT _].
  rewrite (bcast_zip _ (fun i t => nth (row_of N t) (nth (Z.to_nat i) m []) 0)).
  - f_equal. apply (nth_ext _ _ 0 0).
    + rewrite !zip_with_length_min, arange_length. lia.
    + intros k Hk. rewrite zip_with_length_min, arange_length in Hk.
      rewrite (zip_with_nth _ _ _ 0%Z 0%Z 0 k) by (rewrite ?arange_length; lia).
      rewrite (zip_with_nth _ _ _ [] 0%Z 0 k) by lia.
      rewrite arange_nth, Nat2Z.id by lia. reflexivity.
  - apply arange_length.
  - intros i t Hit. pose proof (in_combine_l _ _ _ _ Hit) as Hi.
    pose proof (in_combine_r _ _ _ _ Hit) as Ht.
    unfold Np.arange in Hi. apply in_map_iff in Hi. destruct Hi as [k [<- Hk]].
    apply in_seq in Hk. rewrite (item_nat m [] k) by lia. simpl.
    rewrite Nat2Z.id. rewrite Forall_forall in Hc. specialize (Hc t Ht).
    pose proof (has_shape_nth T N m k Hm ltac:(lia)) as Hrow.
    rewrite (item_wrapped _ 0 t) by (rewrite Hrow; exact Hc).
    rewrite Hrow. reflexivity.
Qed.

Lemma picked_losses_wrapped (N : nat) (logits : Np.matrix) (targets : list Z) :
  map (fun p => - ln p)
    (zip_with (fun row t => nth (row_of N t) row 0) (map softmax_spec logits) targets)
  = map (fun rt => - ln (nth (snd rt) (softmax_spec (fst rt)) 0))
      (combine logits (map (row_of N) targets)).
Proof.
  unfold zip_with. revert targets.
  induction logits as [|row X IH]; intros [|t ts]; simpl; try reflexivity.
  f_equal. apply IH.
Qed.

Lemma row_of_range (N : nat) (t : Z) :
  (- Z.of_nat N <= t < Z.of_nat N)%Z -> (row_of N t < N)%nat.
Proof.
  intros H. destruct (norm_index_cases N t) as [[_ [_ Hlt]]|[Hr _]]; [exact Hlt|lia].
Qed.

Lemma softmax_shape (T N : nat) (logits : Np.matrix) :
  Np.has_shape T N logits -> Np.has_shape T N (map softmax_spec logits).
Proof.
  intros [HsT Hr]. split; [rewrite length_map; exact HsT|].
  apply Forall_forall. intros r Hin. apply in_map_iff in Hin.
  destruct Hin as [row [<- Hrow]]. rewrite softmax_spec_length.
  rewrite Forall_forall in Hr. apply Hr, Hrow.
Qed.

Lemma rows_nonempty (T N : nat) (logits : Np.matrix) :
  (0 < N)%nat -> Np.has_shape T N logits -> Forall (fun row => row <> []) logits.
Proof.
  intros HN [_ Hr]. eapply Forall_impl; [|exact Hr]. simpl.
  intros row E ->. simpl in E. lia.
Qed.

(** The value of the loss on at most as many targets as rows. *)
Lemma cross_entropy_value (logits : Np.matrix) (targets : list Z) (T N : nat) :
  (0 < N)%nat -> Np.has_shape T N logits ->
  (0 < length targets <= T)%nat ->
  Forall (fun t => (- Z.of_nat N <= t < Z.of_nat N)%Z) targets ->
  cross_entropy_loss logits targets
  = Ok (cross_entropy_spec (firstn (length targets) logits) (map (row_of N) targets)).
Proof.
  intros HN Hs Hl Ht. unfold cross_entropy_loss.
  rewrite softmax2_fin by (apply (rows_nonempty T N); assumption). cbn [bind].
  rewrite (take2_targets _ targets T N (softmax_shape T N logits Hs)) by (lia || exact Ht).
  cbn [bind].
  set (picked := zip_with (fun row t => nth (row_of N t) row 0)
                   (map softmax_spec logits) targets).
  assert (Hpos : forall v, In v picked -> 0 < v).
  { intros v Hv. unfold picked, zip_with in Hv. apply in_map_iff in Hv.
    destruct Hv as [[r t] [<- Hrt]]. simpl.
    pose proof (in_combine_l _ _ _ _ Hrt) as Hr.
    pose proof (in_combine_r _ _ _ _ Hrt) as Htt.
    apply in_map_iff in Hr. destruct Hr as [row [<- Hrow]].
    apply softmax_spec_pos. rewrite (has_shape_In T N logits row Hs Hrow).
    rewrite Forall_forall in Ht. apply row_of_range, Ht, Htt. }
  rewrite (mapM_Ok _ (fun v => - ln v)).
  2:{ intros v Hv. unfold Np.log. destruct (Rlt_dec 0 v) as [_|C];
        [reflexivity|]. exfalso. apply C, Hpos, Hv. }
  cbn [bind]. unfold picked. rewrite picked_losses_wrapped.
  unfold Np.mean, cross_entropy_spec.
  rewrite length_map, length_combine, length_map, length_firstn.
  destruct Hs as [HsT _]. rewrite HsT.
  replace (Nat.min T (length targets)) with (length targets) by lia.
  replace (Nat.min (length targets) T) with (length targets) by lia.
  rewrite (combine_firstn_r logits (map (row_of N) targets)), length_map.
  apply div_Ok. apply not_0_INR. lia.
Qed.

Lemma sum_map_nonneg {A : Type} (f : A -> R) (l : list A) :
  (forall a, In a l -> 0 <= f a) -> 0 <= Np.sum (map f l).
Proof.
  intros H. apply sum_nonneg, Forall_forall. intros v Hv.
  apply in_map_iff in Hv. destruct Hv as [a [<- Ha]]. apply H, Ha.
Qed.

Lemma sum_const {A : Type} (f : A -> R) (k : R) (l : list A) :
  (forall a, In a l -> f a = k) -> Np.sum (map f l) = INR (length l) * k.
Proof.
  induction l as [|a t IH]; intros H.
  - simpl. lra.
  - change (length (a :: t)) with (S (length t)). rewrite S_INR. simpl.
    rewrite (H a (or_introl eq_refl)), IH; [lra|].
    intros b Hb. apply H. right. exact Hb.
Qed.

Lemma softmax_spec_uniform (c : R) (N t : nat) :
  (t < N)%nat -> nth t (softmax_spec (repeat c N)) 0 = / INR N.
Proof.
  intros Ht. rewrite softmax_spec_nth by (rewrite repeat_length; exact Ht).
  rewrite nth_repeat_lt by exact Ht. rewrite map_repeat.
  assert (Hs : Np.sum (repeat (exp c) N) = INR N * exp c).
  { rewrite <- (map_id (repeat (exp c) N)).
    rewrite (sum_const (fun v => v) (exp c)), repeat_length; [reflexivity|].
    intros a Ha. apply repeat_spec in Ha. exact Ha. }
  rewrite Hs. pose proof (exp_pos c). pose proof (lt_0_INR N ltac:(lia)).
  field. lra.
Qed.

(** X18.  When every row of logits is constant, the loss is [ln N] whatever
    the targets: the loss of a model that knows nothing. *)
Theorem cross_entropy_uniform_logits (logits : Np.matrix) (targets : list Z)
    (T N : nat) :
  (0 < T)%nat -> (0 < N)%nat -> length logits = T ->
  Forall (fun row => exists c, row = repeat c N) logits ->
  length targets = T ->
  Forall (fun t => (0 <= t < Z.of_nat N)%Z) targets ->
  cross_entropy_loss logits targets = Ok (ln (INR N)).
Proof.
  intros HT HN Hl Hc Hlt Ht.
  assert (Hs : Np.has_shape T N logits).
  { split; [exact Hl|]. eapply Forall_impl; [|exact Hc]. simpl.
    intros row [c ->]. apply repeat_length. }
  assert (Ht' : Forall (fun t => (- Z.of_nat N <= t < Z.of_nat N)%Z) targets).
  { eapply Forall_impl; [|exact Ht]. simpl. intros; lia. }
  rewrite (cross_entropy_value logits targets T N HN Hs ltac:(lia) Ht').
  f_equal. rewrite Hlt, <- Hl, firstn_all. unfold cross_entropy_spec.
  rewrite (sum_const _ (ln (INR N))).
  - rewrite length_combine, length_map, Hl, Hlt, Nat.min_id.
    pose proof (lt_0_INR T HT). field. lra.
  - intros [row t] Hrt. simpl.
    pose proof (in_combine_l _ _ _ _ Hrt) as Hr.
    pose proof (in_combine_r _ _ _ _ Hrt) as Htt.
    apply in_map_iff in Htt. destruct Htt as [z [<- Hz]].
    rewrite Forall_forall in Hc, Ht. destruct (Hc row Hr) as [c ->].
    rewrite softmax_spec_uniform by (apply row_of_range; specialize (Ht z Hz); lia).
    rewrite ln_Rinv by (apply lt_0_INR; lia). lra.
Qed.

Lemma cross_entropy_uniform_logits_witness :
  cross_entropy_loss [[7; 7; 7]; [0; 0; 0]] [2%Z; 0%Z] = Ok (ln (INR 3)).
Proof.
  apply (cross_entropy_uniform_logits [[7; 7; 7]; [0; 0; 0]] [2%Z; 0%Z] 2 3); try lia.
  - reflexivity.
  - repeat constructor; [exists 7|exists 0]; reflexivity.
  - reflexivity.
  - repeat constructor; simpl; lia.
Defined.

Lemma mapM_first_raise {A B : Type} (f : A -> outcome B) (e : exn) (l : list A) :
  (forall a, In a l -> (exists b, f a = Ok b) \/ f a = Raise e) ->
  Exists (fun a => f a = Raise e) l -> mapM f l = Raise e.
Proof.
  intros Hall Hex. induction Hex as [a t Ha|a t _ IH]; simpl.
  - rewrite Ha. reflexivity.
  - rewrite IH by (intros b Hb; apply Hall; right; exact Hb).
    destruct (Hall a (or_introl eq_refl)) as [[b Hb]|Hr]; [rewrite Hb|rewrite Hr];
      reflexivity.
Qed.

Lemma item_out_of_range {A : Type} (a : list A) (t : Z) :
  (t >= Z.of_nat (length a) \/ t < - Z.of_nat (length a))%Z ->
  Np.item a t = Raise IndexError.
Proof.
  intros H. unfold Np.item.
  destruct (norm_index_cases (length a) t) as [[Hr _]|[_ Hn]]; [lia|].
  rewrite Hn. reflexivity.
Qed.

Lemma item_outcome {A : Type} (a : list A) (t : Z) :
  (exists v, Np.item a t = Ok v /\ In v a) \/ Np.item a t = Raise IndexError.
Proof.
  unfold Np.item.
  destruct (norm_index_cases (length a) t) as [[_ [Hn Hlt]]|[_ Hn]]; rewrite Hn; simpl.
  - left. destruct (nth_error a (row_of (length a) t)) as [v|] eqn:E.
    + exists v. split; [reflexivity|]. eapply nth_error_In, E.
    + apply nth_error_None in E. lia.
  - right. reflexivity.
Qed.

(** X19.  A target outside [-N, N), or more targets than rows, makes the
    loss raise IndexError. *)
Theorem cross_entropy_bad_target (logits : Np.matrix) (targets : list Z) (T N : nat) :
  (0 < N)%nat -> Np.has_shape T N logits ->
  Exists (fun t => (t >= Z.of_nat N \/ t < - Z.of_nat N)%Z) targets \/
  (T < length targets)%nat ->
  cross_entropy_loss logits targets = Raise IndexError.
Proof.
  intros HN Hs Hbad. unfold cross_entropy_loss.
  rewrite softmax2_fin by (apply (rows_nonempty T N); assumption). cbn [bind].
  pose proof (softmax_shape T N logits Hs) as Hps.
  set (probs := map softmax_spec logits) in *.
  set (f := fun ab : Z * Z => row <- Np.item probs (fst ab) ;; Np.item row (snd ab)).
  assert (Hm : Np.take2 probs (Np.arange (length targets)) targets = Raise IndexError).
  { unfold Np.take2, Np.bcast. rewrite arange_length, Nat.eqb_refl.
    change (mapM f (combine (Np.arange (length targets)) targets) = Raise IndexError).
    apply mapM_first_raise.
    - intros [i t] _. unfold f. simpl.
      destruct (item_outcome probs i) as [[row [Hi _]]|Hi]; rewrite Hi; simpl.
      + destruct (item_outcome row t) as [[v [Hv _]]|Hv]; rewrite Hv; eauto.
      + right. reflexivity.
    - assert (Hk : exists k, (k < length targets)%nat /\
                    f (Z.of_nat k, nth k targets 0%Z) = Raise IndexError).
      { destruct Hbad as [Hex|Hlen].
        - apply Exists_exists in Hex. destruct Hex as [t [Hin Ht]].
          destruct (In_nth _ _ 0%Z Hin) as [k [Hk Hnth]]. exists k.
          split; [exact Hk|]. unfold f. simpl. rewrite Hnth.
          destruct (item_outcome probs (Z.of_nat k)) as [[row [Hi Hrow]]|Hi];
            rewrite Hi; simpl; [|reflexivity].
          apply item_out_of_range.
          rewrite (has_shape_In T N probs row Hps Hrow). exact Ht.
        - exists T. split; [exact Hlen|]. unfold f. simpl.
          rewrite item_out_of_range; [reflexivity|].
          destruct Hps as [-> _]. lia. }
      destruct Hk as [k [Hk Hf]]. apply Exists_exists.
      exists (Z.of_nat k, nth k targets 0%Z). split; [|exact Hf].
      rewrite <- (arange_nth (length targets) k Hk).
      rewrite <- combine_nth by apply arange_length.
      apply nth_In. rewrite length_combine, arange_length. lia. }
  rewrite Hm. reflexivity.
Qed.

Lemma cross_entropy_bad_target_witness :
  cross_entropy_loss [[1; 2; 3]; [0; 0; 5]] [2%Z; 3%Z] = Raise IndexError.
Proof.
  apply (cross_entropy_bad_target [[1; 2; 3]; [0; 0; 5]] [2%Z; 3%Z] 2 3).
  - lia.
  - split; [reflexivity|repeat constructor].
  - left. right. left. simpl. lia.
Defined.

(** ** De-embedding by nearest row *)

Lemma argmax_from_spec (x pre : list R) (best : nat) (bv : R) :
  (best < length pre)%nat -> nth best pre 0 = bv ->
  (forall j, (j < length pre)%nat -> nth j pre 0 <= bv) ->
  (forall j, (j < best)%nat -> nth j pre 0 < bv) ->
  let k := argmax_from best bv (length pre) x in
  (k < length (pre ++ x))%nat /\
  (forall j, (j < length (pre ++ x))%nat -> nth j (pre ++ x) 0 <= nth k (pre ++ x) 0) /\
  (forall j, (j < k)%nat -> nth j (pre ++ x) 0 < nth k (pre ++ x) 0).
Proof.
  revert pre best bv. induction x as [|v t IH]; intros pre best bv Hb Hv Hall Hstrict.
  - simpl. rewrite app_nil_r. rewrite Hv. repeat split; assumption.
  - simpl argmax_from.
    replace (pre ++ v :: t) with ((pre ++ [v]) ++ t) by (rewrite <- app_assoc; reflexivity).
    replace (S (length pre)) with (length (pre ++ [v])) by (rewrite length_app; simpl; lia).
    destruct (Rlt_dec bv v) as [Hlt|Hge].
    + apply (IH (pre ++ [v]) (length pre) v).
      * rewrite length_app. simpl. lia.
      * rewrite app_nth2 by lia. rewrite Nat.sub_diag. reflexivity.
      * intros j Hj. rewrite length_app in Hj. simpl in Hj.
        destruct (Nat.eq_dec j (length pre)) as [->|Hne].
        -- rewrite app_nth2 by lia. rewrite Nat.sub_diag. simpl. lra.
        -- rewrite app_nth1 by lia. specialize (Hall j ltac:(lia)). lra.
      * intros j Hj. rewrite app_nth1 by lia. specialize (Hall j Hj). lra.
    + apply (IH (pre ++ [v]) best bv).
      * rewrite length_app. simpl. lia.
      * rewrite app_nth1 by lia. exact Hv.
      * intros j Hj. rewrite length_app in Hj. simpl in Hj.
        destruct (Nat.eq_dec j (length pre)) as [->|Hne].
        -- rewrite app_nth2 by lia. rewrite Nat.sub_diag. simpl. lra.
        -- rewrite app_nth1 by lia. apply Hall. lia.
      * intros j Hj. rewrite app_nth1 by lia. apply Hstrict, Hj.
Qed.

Lemma argmax_spec (x : list R) :
  x <> [] ->
  exists k, argmax x = Ok k /\ (k < length x)%nat /\
    (forall j, (j < length x)%nat -> nth j x 0 <= nth k x 0) /\
    (forall j, (j < k)%nat -> nth j x 0 < nth k x 0).
Proof.
  intros Hne. destruct x as [|v t]; [congruence|].
  eexists. split; [reflexivity|].
  apply (argmax_from_spec t [v] 0 v); simpl; try lia; try reflexivity.
  - intros [|j] Hj; [lra|lia].
Qed.

(** What [embeddings_to_tokens] returns: for each vector, the first id
    whose embedding row has the largest dot product with it. *)
Lemma embeddings_to_tokens_spec (T D N : nat) (E embeddings : Np.matrix) :
  (0 < D)%nat -> (0 < N)%nat ->
  Np.has_shape N D E -> Np.has_shape T D embeddings ->
  exists ids, embeddings_to_tokens E embeddings = Ok ids /\ length ids = T /\
    forall i, (i < T)%nat ->
      let x := nth i embeddings [] in
      let k := nth i ids 0%nat in
      (k < N)%nat /\
      (forall j, (j < N)%nat -> Np.dot x (nth j E []) <= Np.dot x (nth k E [])) /\
      (forall j, (j < k)%nat -> Np.dot x (nth j E []) < Np.dot x (nth k E [])).
Proof.
  intros HD HN HE Hx. unfold embeddings_to_tokens.
  destruct (matmul_Ok T D N embeddings (Np.transpose E) HD Hx
              (transpose_shape N D E HN HE)) as [Em Sm].
  rewrite Em. cbn [bind].
  set (logits := map (fun r => map (fun j => Np.dot r (Np.column j (Np.transpose E)))
                                (seq 0 N)) embeddings) in *.
  destruct (mapM_total argmax
              (fun row k => (k < length row)%nat /\
                 (forall j, (j < length row)%nat -> nth j row 0 <= nth k row 0) /\
                 (forall j, (j < k)%nat -> nth j row 0 < nth k row 0)) logits)
    as [ids [Hids HF]].
  { intros row Hrow. destruct (argmax_spec row) as [k [Hk Hp]]; [|eauto].
    intros ->. pose proof (has_shape_In T N logits [] Sm Hrow) as Hl. simpl in Hl. lia. }
  exists ids. split; [exact Hids|]. pose proof Sm as [Sl _].
  split; [rewrite (Forall2_length' _ _ _ HF); exact Sl|].
  intros i Hi. set (x := nth i embeddings []). set (k := nth i ids 0%nat).
  pose proof (Forall2_nth _ logits ids [] 0%nat i HF ltac:(lia)) as [H1 [H2 H3]].
  fold k in H1, H2, H3. rewrite (has_shape_nth T N logits i Sm Hi) in H1, H2.
  assert (Hentry : forall j, (j < N)%nat ->
            nth j (nth i logits []) 0 = Np.dot x (nth j E [])).
  { intros j Hj. fold (entry logits i j). unfold logits.
    pose proof Hx as [Hxl _].
    rewrite (product_entry T N embeddings
               (fun r j => Np.dot r (Np.column j (Np.transpose E))) i j Hxl Hi Hj).
    rewrite (column_transpose N D E j HN HE Hj). reflexivity. }
  split; [exact H1|]. split.
  - intros j Hj. rewrite <- !Hentry by assumption. apply H2, Hj.
  - intros j Hj. rewrite <- !Hentry by lia. apply H3, Hj.
Qed.

(** X20.  [embeddings_to_tokens] returns one id per vector, each a valid id
    whose embedding row has the largest dot product with the vector, and the
    first such id when several rows tie. *)
Theorem embeddings_to_tokens_nearest (T D N : nat) (E embeddings : Np.matrix) :
  (0 < D)%nat -> (0 < N)%nat ->
  Np.has_shape N D E -> Np.has_shape T D embeddings ->
  exists ids, embeddings_to_tokens E embeddings = Ok ids /\ length ids = T /\
    Forall (fun k => (k < N)%nat) ids /\
    forall i, (i < T)%nat ->
      let x := nth i embeddings [] in
      let k := nth i ids 0%nat in
      (k < N)%nat /\
      (forall j, (j < N)%nat -> Np.dot x (nth j E []) <= Np.dot x (nth k E [])) /\
      (forall j, (j < k)%nat -> Np.dot x (nth j E []) < Np.dot x (nth k E [])).
Proof.
  intros HD HN HE Hx.
  destruct (embeddings_to_tokens_spec T D N E embeddings HD HN HE Hx)
    as [ids [Hids [Hl Hp]]].
  exists ids. split; [exact Hids|]. split; [exact Hl|]. split; [|exact Hp].
  apply Forall_forall. intros k Hk. destruct (In_nth _ _ 0%nat Hk) as [i [Hi <-]].
  rewrite Hl in Hi. apply (Hp i Hi).
Qed.

Lemma embeddings_to_tokens_nearest_witness :
  exists ids, embeddings_to_tokens [[1; 0]; [0; 1]; [1; 1]] [[0; 2]; [3; 1]] = Ok ids /\
    length ids = 2%nat /\
    Forall (fun k => (k < 3)%nat) ids /\
    forall i, (i < 2)%nat ->
      let x := nth i [[0; 2]; [3; 1]] [] in
      let k := nth i ids 0%nat in
      (k < 3)%nat /\
      (forall j, (j < 3)%nat ->
         Np.dot x (nth j [[1; 0]; [0; 1]; [1; 1]] [])
         <= Np.dot x (nth k [[1; 0]; [0; 1]; [1; 1]] [])) /\
      (forall j, (j < k)%nat ->
         Np.dot x (nth j [[1; 0]; [0; 1]; [1; 1]] [])
         < Np.dot x (nth k [[1; 0]; [0; 1]; [1; 1]] [])).
Proof.
  apply (embeddings_to_tokens_nearest 2 2 3 [[1; 0]; [0; 1]; [1; 1]] [[0; 2]; [3; 1]]);
    try lia; (split; [reflexivity|repeat constructor]).
Defined.

(** X21.  Round trip: when every embedding row is strictly closer, in dot
    product, to itself than to any other row, looking ids up and projecting
    the vectors back returns the ids. *)
Theorem embedding_round_trip (D N : nat) (E : Np.matrix) (tokens : list Z) :
  (0 < D)%nat -> (0 < N)%nat -> Np.has_shape N D E ->
  (forall t j, (t < N)%nat -> (j < N)%nat -> j <> t ->
     Np.dot (nth t E []) (nth j E []) < Np.dot (nth t E []) (nth t E [])) ->
  Forall (fun t => (0 <= t < Z.of_nat N)%Z) tokens ->
  (rows <- tokens_to_embeddings E tokens ;; embeddings_to_tokens E rows)
  = Ok (map Z.to_nat tokens).
Proof.
  intros HD HN HE Hdom Ht. pose proof HE as [HEl HEr].
  assert (Hlook : tokens_to_embeddings E tokens
                  = Ok (map (fun t => nth (Z.to_nat t) E []) tokens)).
  { unfold tokens_to_embeddings, Np.take. apply mapM_Ok. intros t Hin.
    rewrite Forall_forall in Ht. specialize (Ht t Hin).
    rewrite <- (Z2Nat.id t) at 1 by lia. apply item_nat. lia. }
  rewrite Hlook. cbn [bind].
  set (rows := map (fun t => nth (Z.to_nat t) E []) tokens).
  assert (Hrs : Np.has_shape (length tokens) D rows).
  { split; [apply length_map|]. apply Forall_forall. intros r Hr.
    apply in_map_iff in Hr. destruct Hr as [t [<- Hin]].
    rewrite Forall_forall in Ht. specialize (Ht t Hin).
    apply (has_shape_nth N D E _ HE). lia. }
  destruct (embeddings_to_tokens_spec (length tokens) D N E rows HD HN HE Hrs)
    as [ids [Hids [Hl Hp]]].
  rewrite Hids. f_equal. apply (nth_ext _ _ 0%nat 0%nat).
  - rewrite length_map. exact Hl.
  - intros i Hi. rewrite Hl in Hi. destruct (Hp i Hi) as [Hk [Hmax _]].
    set (t := nth i tokens 0%Z).
    assert (Htr : (0 <= t < Z.of_nat N)%Z).
    { rewrite Forall_forall in Ht. apply Ht, nth_In, Hi. }
    assert (Hrow : nth i rows [] = nth (Z.to_nat t) E []).
    { unfold rows. rewrite (nth_indep _ [] ((fun t => nth (Z.to_nat t) E []) 0%Z))
        by (rewrite length_map; exact Hi).
      apply (map_nth (fun t => nth (Z.to_nat t) E [])). }
    rewrite Hrow in Hmax.
    change 0%nat with (Z.to_nat 0) at 2. rewrite map_nth. fold t.
    destruct (Nat.eq_dec (nth i ids 0%nat) (Z.to_nat t)) as [E0|Hne]; [exact E0|].
    exfalso. pose proof (Hdom (Z.to_nat t) (nth i ids 0%nat) ltac:(lia) Hk Hne) as Hlt.
    pose proof (Hmax (Z.to_nat t) ltac:(lia)) as Hle. lra.
Qed.

Lemma dot2 (a b c d : R) : Np.dot [a; b] [c; d] = a * c + b * d.
Proof. unfold Np.dot. simpl. ring. Qed.

Lemma embedding_round_trip_witness :
  (rows <- tokens_to_embeddings [[1; 0]; [0; 1]] [1%Z; 0%Z; 1%Z] ;;
   embeddings_to_tokens [[1; 0]; [0; 1]] rows)
  = Ok (map Z.to_nat [1%Z; 0%Z; 1%Z]).
Proof.
  apply (embedding_round_trip 2 2 [[1; 0]; [0; 1]] [1%Z; 0%Z; 1%Z]); try lia.
  - split; [reflexivity|repeat constructor].
  - intros t j Ht Hj Hne.
    destruct t as [|[|t]]; destruct j as [|[|j]]; try lia; simpl;
      rewrite !dot2; lra.
  - repeat constructor; simpl; lia.
Defined.

(** Without that dominance the projection is not an inverse: in the table
    [[1], [2]] id 0 comes back as id 1. *)
Lemma embedding_round_trip_lossy :
  (rows <- tokens_to_embeddings [[1]; [2]] [0%Z] ;; embeddings_to_tokens [[1]; [2]] rows)
  = Ok [1%nat].
Proof.
  unfold tokens_to_embeddings, embeddings_to_tokens. simpl.
  unfold Np.dot. simpl.
  destruct (Rlt_dec (1 * 1 + 0) (1 * 2 + 0)) as [_|C]; [reflexivity|exfalso; lra].
Qed.

(** ** Sampling: which id a draw selects, and the edges of [k] and [p] *)

Lemma searchsorted_right_spec (a : list R) (v : R) :
  (forall i, (i < Np.searchsorted_right a v)%nat -> nth i a 0 <= v) /\
  ((Np.searchsorted_right a v < length a)%nat ->
   v < nth (Np.searchsorted_right a v) a 0).
Proof.
  induction a as [|x t [IH1 IH2]]; simpl.
  - split; intros; lia.
  - destruct (Rlt_dec v x).
    + split; intros; [lia|assumption].
    + split; [|intros; apply IH2; lia].
      intros [|i] Hi; [lra|apply IH1; lia].
Qed.

(** The id [choice] returns for a draw [u]: the one whose interval of
    cumulative probability holds [u]. *)
Lemma choice_bracket (a : list nat) (p : list R) (g : rng) :
  a <> [] -> length p = length a -> Forall (fun v => 0 <= v) p ->
  Np.sum p = 1 -> rng_valid g ->
  exists k, (k < length a)%nat /\
    choice a p g = (Ok (nth k a 0%nat), fun i => g (1 + i)%nat) /\
    Np.sum (firstn k p) <= g 0%nat < Np.sum (firstn (S k) p).
Proof.
  intros Ha Hlen Hnn Hsum Hg. unfold choice.
  destruct (Nat.eqb_spec (length a) 0) as [E|_];
    [apply length_zero_iff_nil in E; contradiction|].
  rewrite Hlen, Nat.eqb_refl. simpl negb. cbv iota.
  rewrite existsb_neg_false by exact Hnn.
  destruct (Rgt_dec (Rabs (Np.sum p - 1)) choice_atol) as [Hgt|_].
  { rewrite Hsum, Rminus_diag, Rabs_R0 in Hgt. unfold choice_atol in Hgt. lra. }
  assert (Hp : p <> []).
  { intros ->. simpl in Hlen. symmetry in Hlen.
    apply length_zero_iff_nil in Hlen. contradiction. }
  assert (Hlast : last (Np.cumsum p) 0 = 1).
  { unfold Np.cumsum. rewrite cumsum_from_last by exact Hp. lra. }
  simpl. rewrite Hlast.
  rewrite (mapM_Ok _ (fun c => c / 1)) by (intros; apply div_Ok; lra).
  simpl.
  set (cdf := map (fun c => c / 1) (Np.cumsum p)).
  assert (Hcl : length cdf = length a).
  { unfold cdf, Np.cumsum. rewrite length_map, cumsum_from_length. exact Hlen. }
  assert (Hcn : forall i, (i < length a)%nat -> nth i cdf 0 = Np.sum (firstn (S i) p)).
  { intros i Hi. unfold cdf.
    rewrite (nth_indep _ 0 ((fun c => c / 1) 0))
      by (rewrite length_map; unfold Np.cumsum; rewrite cumsum_from_length; lia).
    rewrite (map_nth (fun c => c / 1)). unfold Np.cumsum.
    rewrite cumsum_from_nth by lia. field. }
  set (k := Np.searchsorted_right cdf (g 0%nat)).
  assert (Hk : (k < length a)%nat).
  { rewrite <- Hcl. apply searchsorted_right_lt. apply Exists_exists.
    exists (nth (length a - 1) cdf 0). split.
    - apply nth_In. rewrite Hcl. destruct a; [congruence|simpl; lia].
    - rewrite Hcn by (destruct a; [congruence|simpl; lia]).
      replace (S (length a - 1)) with (length p)
        by (rewrite Hlen; destruct a; [congruence|simpl; lia]).
      rewrite firstn_all, Hsum. destruct (Hg 0%nat). lra. }
  destruct (searchsorted_right_spec cdf (g 0%nat)) as [Hbelow Hat]. fold k in Hbelow, Hat.
  exists k. split; [exact Hk|]. split.
  - rewrite (nth_error_nth' a 0%nat Hk). reflexivity.
  - change (Np.sum (firstn k p) <= g 0%nat < Np.sum (firstn (S k) p)). split.
    + destruct k as [|k']; [simpl; destruct (Hg 0%nat); lra|].
      rewrite <- Hcn by lia. apply Hbelow. lia.
    + rewrite <- Hcn by exact Hk. apply Hat. rewrite Hcl. exact Hk.
Qed.

(** X22.  For a temperature other than zero, [temperature_sampling] returns
    a valid id: the id [r] for which the draw [u] falls between the
    cumulative probabilities of [softmax(logits / T)] before and at [r], so
    that id [r] is returned on a set of draws of length its probability. *)
Theorem temperature_sampling_inverse_cdf (logits : list R) (T : R) (g : rng) :
  logits <> [] -> T <> 0 -> rng_valid g ->
  let P := softmax_spec (map (fun v => v / T) logits) in
  exists r g', temperature_sampling logits T g = (Ok r, g') /\
    (r < length logits)%nat /\
    Np.sum (firstn r P) <= g 0%nat < Np.sum (firstn (S r) P).
Proof.
  intros Hne HT Hg P. unfold temperature_sampling.
  rewrite (mapM_Ok _ (fun v => v / T)) by (intros; apply div_Ok, HT). cbn [bind].
  assert (Hne' : map (fun v => v / T) logits <> [])
    by (destruct logits; [congruence|discriminate]).
  rewrite softmax_fin by exact Hne'. fold P. cbv iota.
  assert (HPl : length P = length (seq 0 (length logits))).
  { unfold P. rewrite softmax_spec_length, length_map, length_seq. reflexivity. }
  destruct (choice_bracket (seq 0 (length logits)) P g) as [k [Hk [Hc Hb]]].
  - destruct logits; [congruence|discriminate].
  - exact HPl.
  - apply Forall_forall. intros v Hv. destruct (In_nth _ _ 0 Hv) as [i [Hi <-]].
    unfold P in *. rewrite softmax_spec_length in Hi. left. apply softmax_spec_pos, Hi.
  - apply softmax_spec_sum, Hne'.
  - exact Hg.
  - rewrite length_seq in Hk. rewrite seq_nth in Hc by exact Hk. simpl in Hc.
    exists k, (fun i => g (1 + i)%nat). split; [exact Hc|]. split; [exact Hk|exact Hb].
Qed.

Lemma temperature_sampling_inverse_cdf_witness :
  let P := softmax_spec (map (fun v => v / 2) [1; 3; 2]) in
  exists r g', temperature_sampling [1; 3; 2] 2 (fun _ => / 2) = (Ok r, g') /\
    (r < length [1; 3; 2])%nat /\
    Np.sum (firstn r P) <= / 2 < Np.sum (firstn (S r) P).
Proof.
  apply (temperature_sampling_inverse_cdf [1; 3; 2] 2 (fun _ => / 2)).
  - discriminate.
  - lra.
  - intros n. lra.
Defined.

Lemma slice_from_all {A : Type} (l : list A) (k : Z) :
  (k = 0 \/ Z.of_nat (length l) <= k)%Z -> slice_from (- k) l = l.
Proof.
  intros Hk. unfold slice_from.
  destruct (Z.ltb_spec (- k) 0).
  - replace (Z.max 0 (Z.of_nat (length l) + - k)) with 0%Z by lia. reflexivity.
  - replace (Z.min (- k) (Z.of_nat (length l))) with 0%Z by lia. reflexivity.
Qed.

(** X23.  [top_k_sampling] with [k = 0] does not select nothing: the slice
    [[-0:]] is the whole array, so, as with any [k >= N], the candidates are
    the whole vocabulary and the call samples from the full softmax. *)
Theorem top_k_zero_or_large (argsort : list R -> list nat)
    (logits : list R) (k : Z) (g : rng) :
  logits <> [] -> is_argsort logits (argsort logits) ->
  (k = 0 \/ Z.of_nat (length logits) <= k)%Z -> rng_valid g ->
  top_k_idx argsort logits k = argsort logits /\
  Permutation (top_k_idx argsort logits k) (seq 0 (length logits)) /\
  exists r g', top_k_sampling argsort logits k g = (Ok r, g') /\
    (r < length logits)%nat.
Proof.
  intros Hne Hs Hk Hg.
  assert (E : top_k_idx argsort logits k = argsort logits).
  { unfold top_k_idx. apply slice_from_all.
    rewrite (is_argsort_length _ _ Hs). exact Hk. }
  split; [exact E|]. split; [rewrite E; apply Hs|].
  unfold top_k_sampling. rewrite E.
  pose proof (is_argsort_range _ _ Hs) as Hr.
  destruct (sample_in_selection logits (argsort logits) g) as [r [Hsr Hin]];
    [|exact Hr|exact Hg|].
  - intros En. pose proof (is_argsort_length _ _ Hs) as Hl. rewrite En in Hl.
    destruct logits; [congruence|discriminate].
  - exists r, (fun i => g (1 + i)%nat). split; [exact Hsr|].
    rewrite Forall_forall in Hr. apply Hr, Hin.
Qed.

Lemma top_k_zero_or_large_witness :
  top_k_idx argsort_stable [1; 3; 2] 0 = argsort_stable [1; 3; 2] /\
  Permutation (top_k_idx argsort_stable [1; 3; 2] 0) (seq 0 (length [1; 3; 2])) /\
  exists r g', top_k_sampling argsort_stable [1; 3; 2] 0 (fun _ => / 2) = (Ok r, g') /\
    (r < length [1; 3; 2])%nat.
Proof.
  apply (top_k_zero_or_large argsort_stable [1; 3; 2] 0%Z (fun _ => / 2)).
  - discriminate.
  - apply argsort_stable_spec.
  - left. reflexivity.
  - intros n. lra.
Defined.

(** X24.  [top_k_sampling] with [k = 1] is greedy decoding: whatever the
    draw, it returns an id whose logit is the largest. *)
Theorem top_k_one_is_greedy (argsort : list R -> list nat)
    (logits : list R) (g : rng) :
  logits <> [] -> is_argsort logits (argsort logits) -> rng_valid g ->
  exists r g', top_k_sampling argsort logits 1 g = (Ok r, g') /\
    (r < length logits)%nat /\
    forall j, (j < length logits)%nat -> nth j logits 0 <= nth r logits 0.
Proof.
  intros Hne Hs Hg.
  assert (Hk : (1 <= 1 <= Z.of_nat (length logits))%Z)
    by (destruct logits; [congruence|simpl length; lia]).
  destruct (top_k_idx_spec argsort logits 1 Hs Hk) as [Hl [_ [Hr Hdom]]].
  set (idx := top_k_idx argsort logits 1) in *.
  assert (Hidx : idx <> []) by (intros E; rewrite E in Hl; discriminate).
  destruct (sample_in_selection logits idx g Hidx Hr Hg) as [r [Hsr Hin]].
  exists r, (fun i => g (1 + i)%nat). split; [exact Hsr|].
  rewrite Forall_forall in Hr. split; [apply Hr, Hin|].
  intros j Hj.
  assert (Hdec : In j idx \/ ~ In j idx).
  { destruct (in_dec Nat.eq_dec j idx); [left|right]; assumption. }
  destruct Hdec as [Hjin|Hjout]; [|apply (Hdom r j Hin Hj Hjout)].
  destruct idx as [|a [|b t]]; simpl in Hl; try discriminate.
  destruct Hin as [<-|[]]. destruct Hjin as [<-|[]]. lra.
Qed.

Lemma top_k_one_is_greedy_witness :
  exists r g', top_k_sampling argsort_stable [1; 3; 2] 1 (fun _ => / 2) = (Ok r, g') /\
    (r < length [1; 3; 2])%nat /\
    forall j, (j < length [1; 3; 2])%nat -> nth j [1; 3; 2] 0 <= nth r [1; 3; 2] 0.
Proof.
  apply (top_k_one_is_greedy argsort_stable [1; 3; 2] (fun _ => / 2)).
  - discriminate.
  - apply argsort_stable_spec.
  - intros n. lra.
Defined.

Lemma searchsorted_all_below (a : list R) (v : R) :
  Forall (fun c => c < v) a -> Np.searchsorted a v = length a.
Proof.
  induction 1 as [|x t Hx _ IH]; simpl; [reflexivity|].
  destruct (Rle_dec v x); [lra|rewrite IH; reflexivity].
Qed.

Lemma gather_softmax_nonneg (x : list R) (idx : list nat) :
  Forall (fun i => (i < length x)%nat) idx ->
  Forall (fun v => 0 <= v) (gather (softmax_spec x) idx).
Proof.
  intros H. apply Forall_forall. intros v Hv. unfold gather in Hv.
  apply in_map_iff in Hv. destruct Hv as [i [<- Hi]].
  rewrite Forall_forall in H. left. apply softmax_spec_pos, H, Hi.
Qed.

(** X25.  [top_p_sampling] outside [0 < p <= 1]: with [p <= 0] only the id
    of the largest logit is selected and the call is greedy decoding; with
    [p > 1] no cumulative probability reaches [p] and the whole vocabulary is
    selected. *)
Theorem top_p_outside_unit_interval (argsort : list R -> list nat)
    (logits : list R) (p : R) (g : rng) :
  logits <> [] -> is_argsort logits (argsort logits) -> rng_valid g ->
  (p <= 0 ->
   top_p_selected argsort logits p = Ok [hd 0%nat (rev (argsort logits))] /\
   exists r g', top_p_sampling argsort logits p g = (Ok r, g') /\
     (r < length logits)%nat /\
     forall j, (j < length logits)%nat -> nth j logits 0 <= nth r logits 0) /\
  (1 < p -> top_p_selected argsort logits p = Ok (rev (argsort logits))).
Proof.
  intros Hne Hs Hg.
  pose proof (top_p_selected_eq argsort logits p Hne Hs) as Hsel. cbv zeta in Hsel.
  destruct (rev_order _ _ Hs) as [Hperm Hdesc].
  set (order := rev (argsort logits)) in *.
  assert (Hlen : length order = length logits).
  { rewrite (Permutation_length Hperm). apply length_seq. }
  assert (Hrange : Forall (fun i => (i < length logits)%nat) order).
  { apply Forall_forall. intros i Hi. apply (Permutation_in _ Hperm), in_seq in Hi. lia. }
  assert (HN : (0 < length logits)%nat) by (destruct logits; [congruence|simpl; lia]).
  split.
  - intros Hp. destruct order as [|o rest] eqn:Eo; [simpl in Hlen; lia|].
    assert (Ho : (o < length logits)%nat) by (inversion Hrange; assumption).
    assert (Hcut : top_p_selected argsort logits p = Ok [o]).
    { rewrite Hsel. unfold gather, Np.cumsum. simpl.
      destruct (Rle_dec p (0 + nth o (softmax_spec logits) 0)) as [_|C]; [reflexivity|].
      exfalso. apply C. pose proof (softmax_spec_pos logits o Ho). lra. }
    split; [exact Hcut|].
    destruct (sample_in_selection logits [o] g) as [r [Hr Hin]];
      [discriminate|repeat constructor; exact Ho|exact Hg|].
    destruct Hin as [<-|[]].
    exists o, (fun i => g (1 + i)%nat). split.
    { unfold top_p_sampling. rewrite Hcut. exact Hr. }
    split; [exact Ho|]. intros j Hj.
    assert (Hjin : In j (o :: rest)).
    { apply (Permutation_in _ (Permutation_sym Hperm)), in_seq. lia. }
    destruct (In_nth _ _ 0%nat Hjin) as [b [Hb Hnb]].
    destruct b as [|b]; [simpl in Hnb; subst; lra|].
    specialize (Hdesc 0%nat (S b)). rewrite Hnb in Hdesc. simpl in Hdesc.
    apply Hdesc. rewrite <- Hlen. simpl in *. lia.
  - intros Hp. rewrite Hsel. f_equal.
    rewrite searchsorted_all_below.
    + unfold Np.cumsum, gather. rewrite cumsum_from_length, length_map.
      apply firstn_all2. lia.
    + apply Forall_forall. intros c Hc. destruct (In_nth _ _ 0 Hc) as [i [Hi <-]].
      unfold Np.cumsum in *. rewrite cumsum_from_length in Hi.
      rewrite cumsum_from_nth by exact Hi.
      pose proof (sum_firstn_mono _ (S i) (length (gather (softmax_spec logits) order))
                    (gather_softmax_nonneg logits order Hrange)) as Hm.
      rewrite firstn_all in Hm. rewrite gather_sum_perm in Hm
        by (rewrite softmax_spec_length; exact Hperm).
      rewrite softmax_spec_sum in Hm by exact Hne. specialize (Hm ltac:(lia)). lra.
Qed.

Lemma top_p_outside_unit_interval_witness :
  top_p_selected argsort_stable [1; 3; 2] 2 = Ok (rev (argsort_stable [1; 3; 2])).
Proof.
  destruct (top_p_outside_unit_interval argsort_stable [1; 3; 2] 2 (fun _ => / 2))
    as [_ Hlarge].
  - discriminate.
  - apply argsort_stable_spec.
  - intros n. lra.
  - apply Hlarge. lra.
Defined.

(** ** The block: normalised output, causality *)

Lemma standardized_row (row : list R) (eps : R) :
  0 < eps -> row <> [] ->
  let out := map (fun v => (v - row_mean row) / (row_pstd row + eps)) row in
  row_mean out = 0 /\ row_pstd out < 1.
Proof.
  intros He Hne out. pose proof (row_pstd_nonneg row) as Hs.
  set (s := row_pstd row + eps) in *. assert (Hsp : 0 < s) by (unfold s; lra).
  assert (Hmean : row_mean out = 0).
  { unfold row_mean at 1, out. rewrite sum_map_centered, length_map.
    rewrite row_mean_centered by exact Hne. unfold Rdiv. ring. }
  split; [exact Hmean|].
  assert (Hstd : row_pstd out = row_pstd row / s).
  { unfold row_pstd at 1. rewrite Hmean. unfold out.
    rewrite sum_sq_scaled by lra. rewrite length_map.
    pose proof (row_length_pos row Hne).
    replace (Np.sum (map (fun v => (v - row_mean row) ^ 2) row) / (s * s)
             / INR (length row))
      with (Np.sum (map (fun v => (v - row_mean row) ^ 2) row) / INR (length row)
            / (s * s)) by (field; lra).
    rewrite sqrt_div_alt by nra. rewrite sqrt_square by lra. reflexivity. }
  rewrite Hstd. apply (Rmult_lt_reg_r s); [exact Hsp|].
  unfold Rdiv. rewrite Rmult_assoc, Rinv_l by lra. unfold s. lra.
Qed.

Lemma normalized_shape (T D : nat) (eps : R) (x : Np.matrix) :
  Np.has_shape T D x -> Np.has_shape T D (normalized eps x).
Proof.
  intros [Hl Hr]. split; [unfold normalized; rewrite length_map; exact Hl|].
  apply Forall_forall. intros r Hin. apply in_map_iff in Hin.
  destruct Hin as [row [<- Hrow]]. rewrite length_map.
  rewrite Forall_forall in Hr. apply Hr, Hrow.
Qed.

Lemma layer_norm_normalized (x : Np.matrix) :
  layer_norm x eps_default = Ok (normalized eps_default x).
Proof. apply layer_norm_Ok, eps_default_pos. Qed.

Lemma feed_forward_row_shape (T D H : nat) (y W1 : Np.matrix) (b1 : list R)
    (W2 : Np.matrix) (b2 : list R) :
  (0 < D)%nat -> (0 < H)%nat ->
  Np.has_shape T D y -> Np.has_shape D H W1 -> length b1 = H ->
  Np.has_shape H D W2 -> length b2 = D ->
  Np.has_shape T D (map (feed_forward_row W1 b1 W2 b2) y).
Proof.
  intros HD HH Hy HW1 Hb1 HW2 Hb2.
  destruct (feed_forward_shape T D H y W1 b1 W2 b2 HD HH Hy HW1 Hb1 HW2 Hb2)
    as [o [Ho So]].
  rewrite (feed_forward_rows T D H) in Ho by assumption. injection Ho as <-. exact So.
Qed.

(** The block in closed form, from the output of attention. *)
Lemma transformer_block_value (x W_q W_k W_v W1 : Np.matrix) (b1 : list R)
    (W2 : Np.matrix) (b2 : list R) (T D H : nat) :
  (0 < T)%nat -> (0 < D)%nat -> (0 < H)%nat ->
  Np.has_shape T D x ->
  Np.has_shape D D W_q -> Np.has_shape D D W_k -> Np.has_shape D D W_v ->
  Np.has_shape D H W1 -> length b1 = H -> Np.has_shape H D W2 -> length b2 = D ->
  exists attn,
    scaled_dot_product_attention (project D W_q x) (project D W_k x) (project D W_v x)
    = Ok attn /\
    Np.has_shape T D attn /\
    transformer_block x W_q W_k W_v W1 b1 W2 b2
    = Ok (block_output W1 b1 W2 b2 x attn) /\
    Np.has_shape T D (block_output W1 b1 W2 b2 x attn).
Proof.
  intros HT HD HH Hx Hq Hk Hv HW1 Hb1 HW2 Hb2.
  destruct (matmul_Ok T D D x W_q HD Hx Hq) as [EQ SQ].
  destruct (matmul_Ok T D D x W_k HD Hx Hk) as [EK SK].
  destruct (matmul_Ok T D D x W_v HD Hx Hv) as [EV SV].
  fold (project D W_q x) in EQ, SQ. fold (project D W_k x) in EK, SK.
  fold (project D W_v x) in EV, SV.
  destruct (attention_shape T D _ _ _ HT HD SQ SK SV) as [attn [EA SA]].
  exists attn. split; [exact EA|]. split; [exact SA|].
  destruct (add_Ok T D x attn Hx SA) as [E1 S1].
  pose proof (normalized_shape T D eps_default _ S1) as Sy.
  set (y := normalized eps_default (zip_with (zip_with Rplus) x attn)) in *.
  pose proof (feed_forward_row_shape T D H y W1 b1 W2 b2 HD HH Sy HW1 Hb1 HW2 Hb2) as SF.
  destruct (add_Ok T D y _ Sy SF) as [E2 S2].
  split.
  - unfold transformer_block. rewrite EQ, EK, EV. cbn [bind].
    rewrite EA. cbn [bind]. rewrite E1. cbn [bind].
    rewrite layer_norm_normalized. cbn [bind]. fold y.
    rewrite (feed_forward_rows T D H) by assumption. cbn [bind].
    rewrite E2. cbn [bind]. rewrite layer_norm_normalized. reflexivity.
  - unfold block_output. fold y. apply normalized_shape, S2.
Qed.

(** X26.  On conforming shapes, whatever the values of the input and of
    the weights, every row of the output of [transformer_block] has mean
    exactly 0 and population standard deviation below 1: the block ends in a
    layer normalisation. *)
Theorem transformer_block_output_normalized (x W_q W_k W_v W1 : Np.matrix)
    (b1 : list R) (W2 : Np.matrix) (b2 : list R) (T D H : nat) :
  (0 < T)%nat -> (0 < D)%nat -> (0 < H)%nat ->
  Np.has_shape T D x ->
  Np.has_shape D D W_q -> Np.has_shape D D W_k -> Np.has_shape D D W_v ->
  Np.has_shape D H W1 -> length b1 = H -> Np.has_shape H D W2 -> length b2 = D ->
  exists out, transformer_block x W_q W_k W_v W1 b1 W2 b2 = Ok out /\
    Forall (fun row => row_mean row = 0 /\ row_pstd row < 1) out.
Proof.
  intros HT HD HH Hx Hq Hk Hv HW1 Hb1 HW2 Hb2.
  destruct (transformer_block_value x W_q W_k W_v W1 b1 W2 b2 T D H
              HT HD HH Hx Hq Hk Hv HW1 Hb1 HW2 Hb2) as [attn [_ [SA [Hb _]]]].
  eexists. split; [exact Hb|].
  unfold block_output.
  set (y := normalized eps_default (zip_with (zip_with Rplus) x attn)).
  assert (Sy : Np.has_shape T D y).
  { apply normalized_shape. apply (add_Ok T D x attn Hx SA). }
  pose proof (feed_forward_row_shape T D H y W1 b1 W2 b2 HD HH Sy HW1 Hb1 HW2 Hb2) as SF.
  destruct (add_Ok T D y _ Sy SF) as [_ S2].
  apply Forall_forall. intros r Hr. unfold normalized in Hr.
  apply in_map_iff in Hr. destruct Hr as [row [<- Hrow]].
  apply standardized_row; [apply eps_default_pos|].
  intros ->. pose proof (has_shape_In T D _ [] S2 Hrow) as Hl. simpl in Hl. lia.
Qed.

Lemma transformer_block_output_normalized_witness :
  exists out,
    transformer_block [[1; 2]; [3; 4]] [[1; 0]; [0; 1]] [[0; 1]; [1; 0]] [[1; 1]; [0; 1]]
      [[1; 0; 2]; [0; 1; 1]] [0; 1; 0] [[1; 0]; [0; 1]; [1; 1]] [1; 0] = Ok out /\
    Forall (fun row => row_mean row = 0 /\ row_pstd row < 1) out.
Proof.
  apply (transformer_block_output_normalized
           [[1; 2]; [3; 4]] [[1; 0]; [0; 1]] [[0; 1]; [1; 0]] [[1; 1]; [0; 1]]
           [[1; 0; 2]; [0; 1; 1]] [0; 1; 0] [[1; 0]; [0; 1]; [1; 1]] [1; 0] 2 2 3);
    try lia; try reflexivity; (split; [reflexivity|repeat constructor]).
Defined.

Lemma firstn_shape {A : Type} (T D n : nat) (x : list (list A)) :
  (n <= T)%nat -> Np.has_shape T D x -> Np.has_shape n D (firstn n x).
Proof.
  intros Hn [Hl Hr]. split; [rewrite length_firstn; lia|].
  apply Forall_forall. intros r Hin. rewrite Forall_forall in Hr. apply Hr.
  rewrite <- (firstn_skipn n x). apply in_or_app. left. exact Hin.
Qed.

Lemma firstn_zip_with {A B C : Type} (f : A -> B -> C) (n : nat)
    (a : list A) (b : list B) :
  firstn n (zip_with f a b) = zip_with f (firstn n a) (firstn n b).
Proof. unfold zip_with. rewrite firstn_map, combine_firstn. reflexivity. Qed.

Lemma firstn_block_output (W1 : Np.matrix) (b1 : list R) (W2 : Np.matrix)
    (b2 : list R) (x attn : Np.matrix) (n : nat) :
  firstn n (block_output W1 b1 W2 b2 x attn)
  = block_output W1 b1 W2 b2 (firstn n x) (firstn n attn).
Proof.
  unfold block_output, normalized.
  rewrite firstn_map, firstn_zip_with, !firstn_map, firstn_zip_with. reflexivity.
Qed.

(** Attention on the first [n] positions is the first [n] rows of attention
    on all of them. *)
Lemma attention_prefix (T D n : nat) (Q K V O : Np.matrix) :
  (0 < D)%nat -> (0 < n <= T)%nat ->
  Np.has_shape T D Q -> Np.has_shape T D K -> Np.has_shape T D V ->
  scaled_dot_product_attention Q K V = Ok O ->
  scaled_dot_product_attention (firstn n Q) (firstn n K) (firstn n V)
  = Ok (firstn n O).
Proof.
  intros HD Hn HQ HK HV HO.
  assert (HT : (0 < T)%nat) by lia.
  destruct (attention_rows T D Q K V HT HD HQ HK HV) as [O1 [HO1 Hr]].
  destruct (attention_shape T D Q K V HT HD HQ HK HV) as [O2 [HO2 SO]].
  rewrite HO in HO1, HO2. injection HO1 as <-. injection HO2 as <-.
  pose proof (firstn_shape T D n Q ltac:(lia) HQ) as HQn.
  pose proof (firstn_shape T D n K ltac:(lia) HK) as HKn.
  pose proof (firstn_shape T D n V ltac:(lia) HV) as HVn.
  destruct (attention_rows n D _ _ _ ltac:(lia) HD HQn HKn HVn) as [P1 [HP1 Hr']].
  destruct (attention_shape n D _ _ _ ltac:(lia) HD HQn HKn HVn) as [P2 [HP2 SP]].
  rewrite HP1 in HP2. injection HP2 as <-. rewrite HP1. f_equal.
  pose proof SO as [SOl _]. pose proof SP as [SPl _].
  apply (nth_ext _ _ [] []).
  - rewrite length_firstn. lia.
  - intros i Hi. rewrite SPl in Hi.
    rewrite (Hr' i Hi), !nth_firstn. destruct (Nat.ltb_spec i n); [|lia].
    rewrite (Hr i ltac:(lia)).
    rewrite !firstn_firstn. replace (Nat.min (S i) n) with (S i) by lia. reflexivity.
Qed.

(** X27.  The block is causal: run on the first [n] positions of a sequence
    it returns the first [n] rows of what it returns on the whole sequence,
    so no output row depends on a later position. *)
Theorem transformer_block_causal (x W_q W_k W_v W1 : Np.matrix) (b1 : list R)
    (W2 : Np.matrix) (b2 : list R) (T D H n : nat) :
  (0 < n <= T)%nat -> (0 < D)%nat -> (0 < H)%nat ->
  Np.has_shape T D x ->
  Np.has_shape D D W_q -> Np.has_shape D D W_k -> Np.has_shape D D W_v ->
  Np.has_shape D H W1 -> length b1 = H -> Np.has_shape H D W2 -> length b2 = D ->
  exists out, transformer_block x W_q W_k W_v W1 b1 W2 b2 = Ok out /\
    transformer_block (firstn n x) W_q W_k W_v W1 b1 W2 b2 = Ok (firstn n out).
Proof.
  intros Hn HD HH Hx Hq Hk Hv HW1 Hb1 HW2 Hb2.
  assert (HT : (0 < T)%nat) by lia.
  destruct (transformer_block_value x W_q W_k W_v W1 b1 W2 b2 T D H
              HT HD HH Hx Hq Hk Hv HW1 Hb1 HW2 Hb2) as [attn [EA [_ [Hb _]]]].
  pose proof (firstn_shape T D n x ltac:(lia) Hx) as Hxn.
  destruct (transformer_block_value (firstn n x) W_q W_k W_v W1 b1 W2 b2 n D H
              ltac:(lia) HD HH Hxn Hq Hk Hv HW1 Hb1 HW2 Hb2) as [attn' [EA' [_ [Hb' _]]]].
  eexists. split; [exact Hb|]. rewrite Hb'. f_equal.
  rewrite firstn_block_output. f_equal.
  destruct (matmul_Ok T D D x W_q HD Hx Hq) as [_ SQ].
  destruct (matmul_Ok T D D x W_k HD Hx Hk) as [_ SK].
  destruct (matmul_Ok T D D x W_v HD Hx Hv) as [_ SV].
  pose proof (attention_prefix T D n _ _ _ attn HD Hn SQ SK SV EA) as Hpre.
  unfold project in *. rewrite <- !firstn_map in EA'.
  rewrite Hpre in EA'. injection EA' as <-. reflexivity.
Qed.

Lemma transformer_block_causal_witness :
  exists out,
    transformer_block [[1; 2]; [3; 4]] [[1; 0]; [0; 1]] [[0; 1]; [1; 0]] [[1; 1]; [0; 1]]
      [[1; 0; 2]; [0; 1; 1]] [0; 1; 0] [[1; 0]; [0; 1]; [1; 1]] [1; 0] = Ok out /\
    transformer_block (firstn 1 [[1; 2]; [3; 4]]) [[1; 0]; [0; 1]] [[0; 1]; [1; 0]]
      [[1; 1]; [0; 1]] [[1; 0; 2]; [0; 1; 1]] [0; 1; 0] [[1; 0]; [0; 1]; [1; 1]] [1; 0]
    = Ok (firstn 1 out).
Proof.
  apply (transformer_block_causal
           [[1; 2]; [3; 4]] [[1; 0]; [0; 1]] [[0; 1]; [1; 0]] [[1; 1]; [0; 1]]
           [[1; 0; 2]; [0; 1; 1]] [0; 1; 0] [[1; 0]; [0; 1]; [1; 1]] [1; 0] 2 2 3 1);
    try lia; try reflexivity; (split; [reflexivity|repeat constructor]).
Defined.

Lemma softmax_outcomes_witness : softmax [NInf; NInf] = NonFinite.
Proof.
  destruct (softmax_outcomes [NInf; NInf]) as [_ [Hnan _]].
  apply Hnan; [discriminate|repeat constructor].
Defined.

(** * Softmax with the exponential of float64 *)

(** ** The two exponentials *)

Lemma exp_like_exp : exp_like exp.
Proof.
  split; [intros x; left; apply exp_pos|]. split; [apply exp_0|].
  intros x [Hlt|E].
  - left. rewrite <- exp_0. apply exp_increasing. exact Hlt.
  - rewrite E, exp_0. lra.
Qed.

Lemma exp_float_underflow (x : R) : x < - 746 -> exp_float x = 0.
Proof. intros H. unfold exp_float. destruct (Rlt_dec x (- 746)); [reflexivity|lra]. Qed.

Lemma exp_float_exact (x : R) : - 746 <= x -> exp_float x = exp x.
Proof. intros H. unfold exp_float. destruct (Rlt_dec x (- 746)); [lra|reflexivity]. Qed.

Lemma exp_like_exp_float : exp_like exp_float.
Proof.
  destruct exp_like_exp as [Hnn [H0 Hle]]. split; [|split].
  - intros x. unfold exp_float. destruct (Rlt_dec x (- 746)); [lra|apply Hnn].
  - rewrite exp_float_exact by lra. exact H0.
  - intros x Hx. unfold exp_float. destruct (Rlt_dec x (- 746)); [lra|apply Hle, Hx].
Qed.

Lemma exp_float_monotone (a b : R) : a <= b -> exp_float a <= exp_float b.
Proof.
  intros Hab. unfold exp_float.
  destruct (Rlt_dec a (- 746)), (Rlt_dec b (- 746)); try lra.
  - left. apply exp_pos.
  - destruct Hab as [Hlt|E]; [left; apply exp_increasing, Hlt|rewrite E; lra].
Qed.

(** With the exact exponential the functions of this part are the ones
    above. *)
Lemma softmax_exact (x : list ext) : softmax_with exp x = softmax x.
Proof. reflexivity. Qed.

Lemma cross_entropy_loss_exact (logits : Np.matrix) (targets : list Z) :
  cross_entropy_loss_with exp logits targets = cross_entropy_loss logits targets.
Proof. reflexivity. Qed.

(** ** The row maximum *)

Lemma row_max_spec (x : list R) :
  x <> [] -> In (row_max x) x /\ forall v, In v x -> v <= row_max x.
Proof. destruct x as [|a t]; [congruence|]. intros _. apply fold_Rmax_spec. Qed.

Lemma amax_row_max (x : list R) :
  x <> [] -> amax (map Fin x) = Ok (Fin (row_max x)).
Proof.
  destruct x as [|a t]; [congruence|]. intros _. simpl.
  rewrite fold_max_fin_eq. reflexivity.
Qed.

Lemma row_max_perm (x y : list R) :
  Permutation x y -> x <> [] -> row_max x = row_max y.
Proof.
  intros Hp Hne.
  assert (Hne' : y <> []).
  { intros ->. apply Permutation_sym, Permutation_nil in Hp. contradiction. }
  destruct (row_max_spec x Hne) as [Hi Hm].
  destruct (row_max_spec y Hne') as [Hi' Hm'].
  apply Rle_antisym.
  - apply Hm'. apply (Permutation_in _ Hp), Hi.
  - apply Hm. apply (Permutation_in _ (Permutation_sym Hp)), Hi'.
Qed.

(** ** The value of softmax *)

(** After the maximum is subtracted every exponential lies in [0, 1], the one
    at the maximum is 1, and the denominator lies between 1 and the length of
    the row. *)
Lemma exp_shifted_bounds (e : R -> R) (x : list R) :
  exp_like e -> x <> [] ->
  (forall v, In v x -> 0 <= e (v - row_max x) <= 1) /\
  e (row_max x - row_max x) = 1 /\
  1 <= Np.sum (map (fun w => e (w - row_max x)) x) <= INR (length x).
Proof.
  intros [Hnn [H0 Hle]] Hne. destruct (row_max_spec x Hne) as [Hin Hmax].
  generalize dependent (row_max x). intros m Hin Hmax.
  assert (Hb : forall v, In v x -> 0 <= e (v - m) <= 1).
  { intros v Hv. split; [apply Hnn|]. apply Hle. specialize (Hmax v Hv). lra. }
  split; [exact Hb|]. split; [rewrite Rminus_diag; exact H0|]. split.
  - apply in_split in Hin. destruct Hin as [l1 [l2 E]]. rewrite E.
    rewrite map_app, sum_app. simpl. rewrite Rminus_diag, H0.
    assert (Hs : forall l, 0 <= Np.sum (map (fun w => e (w - m)) l)).
    { intros l. apply sum_map_nonneg. intros a _. apply Hnn. }
    pose proof (Hs l1). pose proof (Hs l2). lra.
  - pose proof (sum_bounds (map (fun w => e (w - m)) x) 0 1) as Hbd.
    rewrite length_map, Rmult_1_r in Hbd. apply Hbd.
    apply Forall_forall. intros v Hv. apply in_map_iff in Hv.
    destruct Hv as [w [<- Hw]]. apply Hb, Hw.
Qed.

Lemma softmax_with_fin (e : R -> R) (x : list R) :
  exp_like e -> x <> [] -> softmax_with e (map Fin x) = Ok (softmax_value e x).
Proof.
  intros He Hne. unfold softmax_with. rewrite amax_row_max by exact Hne.
  cbn [bind]. cbv zeta.
  destruct (exp_shifted_bounds e x He Hne) as [_ [_ [Hs _]]].
  assert (E : map (exp_shift_with e (row_max x)) (map Fin x)
              = map (fun w => e (w - row_max x)) x)
    by (rewrite map_map; reflexivity).
  rewrite E.
  rewrite (mapM_Ok _ (fun v => v / Np.sum (map (fun w => e (w - row_max x)) x))).
  - unfold softmax_value. rewrite map_map. reflexivity.
  - intros a _. apply div_Ok. lra.
Qed.

Lemma softmax2_with_fin (e : R -> R) (X : Np.matrix) :
  exp_like e -> Forall (fun row => row <> []) X ->
  softmax2_with e (map (map Fin) X) = Ok (map (softmax_value e) X).
Proof.
  intros He H. unfold softmax2_with.
  induction H as [|row X Hrow _ IH]; simpl; [reflexivity|].
  rewrite softmax_with_fin by assumption. simpl. rewrite IH. reflexivity.
Qed.

Lemma softmax_value_length (e : R -> R) (x : list R) :
  length (softmax_value e x) = length x.
Proof. apply length_map. Qed.

Lemma softmax_value_nth (e : R -> R) (x : list R) (i : nat) :
  (i < length x)%nat ->
  nth i (softmax_value e x) 0
  = e (nth i x 0 - row_max x) / Np.sum (map (fun w => e (w - row_max x)) x).
Proof.
  intros H. unfold softmax_value.
  set (f := fun v => e (v - row_max x) / Np.sum (map (fun w => e (w - row_max x)) x)).
  rewrite (nth_indep _ 0 (f 0)) by (rewrite length_map; exact H).
  apply (map_nth f).
Qed.

(** The row is a distribution: entries in [0, 1] that sum to one. *)
Lemma softmax_value_dist (e : R -> R) (x : list R) :
  exp_like e -> x <> [] ->
  Forall (fun v => 0 <= v <= 1) (softmax_value e x) /\
  Np.sum (softmax_value e x) = 1.
Proof.
  intros He Hne. destruct (exp_shifted_bounds e x He Hne) as [Hb [_ [Hs _]]].
  set (S := Np.sum (map (fun w => e (w - row_max x)) x)) in *.
  assert (HS : 0 < / S) by (apply Rinv_0_lt_compat; lra).
  assert (HS1 : / S <= 1).
  { rewrite <- Rinv_1. apply Rinv_le_contravar; lra. }
  split.
  - apply Forall_forall. intros v Hv. apply in_map_iff in Hv.
    destruct Hv as [w [<- Hw]]. fold S. specialize (Hb w Hw). unfold Rdiv. nra.
  - unfold softmax_value. fold S.
    rewrite <- (map_map (fun w => e (w - row_max x)) (fun v => v / S)), sum_map_div.
    fold S. field. lra.
Qed.

Lemma softmax_value_exact (x : list R) :
  x <> [] -> softmax_value exp x = softmax_spec x.
Proof.
  intros Hne. pose proof (softmax_with_fin exp x exp_like_exp Hne) as H.
  rewrite softmax_exact, softmax_fin in H by exact Hne. congruence.
Qed.

Lemma gather_perm (x : list R) (order : list nat) :
  Permutation order (seq 0 (length x)) -> Permutation (gather x order) x.
Proof.
  intros Hp. apply (Permutation_map (fun i => nth i x 0)) in Hp.
  change (Permutation (gather x order) (gather x (seq 0 (length x)))) in Hp.
  rewrite gather_seq in Hp. exact Hp.
Qed.

(** Softmax of the logits taken in another order is the softmax of the
    logits, taken in that order. *)
Lemma softmax_value_gather (e : R -> R) (x : list R) (order : list nat) :
  x <> [] -> Permutation order (seq 0 (length x)) ->
  softmax_value e (gather x order) = gather (softmax_value e x) order.
Proof.
  intros Hne Hp. pose proof (gather_perm x order Hp) as Hg.
  assert (Hgne : gather x order <> []).
  { intros E. rewrite E in Hg. apply Permutation_nil in Hg. contradiction. }
  unfold softmax_value at 1.
  rewrite (row_max_perm _ _ Hg Hgne).
  rewrite (sum_perm _ _ (Permutation_map (fun w => e (w - row_max x)) Hg)).
  unfold gather. rewrite map_map. apply map_ext_in. intros i Hi.
  apply (Permutation_in _ Hp), in_seq in Hi.
  rewrite softmax_value_nth by lia. reflexivity.
Qed.

Lemma softmax_at_with_value (e : R -> R) (x : list R) (idx : list nat) :
  exp_like e -> idx <> [] -> Forall (fun i => (i < length x)%nat) idx ->
  softmax_at_with e x idx = Ok (softmax_value e (gather x idx)).
Proof.
  intros He Hne Hin. unfold softmax_at_with. rewrite take_nat by exact Hin.
  cbn [bind]. apply softmax_with_fin; [exact He|].
  destruct idx; [congruence|discriminate].
Qed.

(** Sampling from a non-empty selection of valid ids lands in the
    selection. *)
Lemma sample_in_selection_with (e : R -> R) (x : list R) (idx : list nat) (g : rng) :
  exp_like e -> idx <> [] -> Forall (fun i => (i < length x)%nat) idx ->
  rng_valid g ->
  exists r,
    with_outcome (softmax_at_with e x idx) (fun probs => choice idx probs) g
    = (Ok r, fun i => g (1 + i)%nat) /\ In r idx.
Proof.
  intros He Hne Hin Hg. rewrite softmax_at_with_value by assumption.
  cbn [with_outcome].
  assert (Hgne : gather x idx <> []) by (destruct idx; [congruence|discriminate]).
  destruct (softmax_value_dist e _ He Hgne) as [Hb Hsum].
  apply choice_in; try assumption.
  - rewrite softmax_value_length. apply length_map.
  - eapply Forall_impl; [|exact Hb]. simpl. intros a Ha. lra.
Qed.

(** ** Cumulative sums with rounded partial sums *)

Lemma rounding_exact : rounding (fun x => x).
Proof. split; [intros a b H; exact H|reflexivity]. Qed.

Lemma round_at_one_near (x : R) : Rabs (x - 1) <= / 2 ^ 54 -> round_at_one x = 1.
Proof.
  intros H. unfold round_at_one.
  destruct (Rle_dec (Rabs (x - 1)) (/ 2 ^ 54)); [reflexivity|contradiction].
Qed.

Lemma rounding_round_at_one : rounding round_at_one.
Proof.
  assert (Hd : 0 < / 2 ^ 54) by (apply Rinv_0_lt_compat, pow_lt; lra).
  split.
  - intros a b Hab. unfold round_at_one.
    destruct (Rle_dec (Rabs (a - 1)) (/ 2 ^ 54)) as [Ha|Ha];
      destruct (Rle_dec (Rabs (b - 1)) (/ 2 ^ 54)) as [Hb|Hb];
      revert Ha Hb; unfold Rabs;
      destruct (Rcase_abs (a - 1)); destruct (Rcase_abs (b - 1)); lra.
  - intros x. destruct (Rle_dec (Rabs (x - 1)) (/ 2 ^ 54)) as [Hx|Hx].
    + rewrite (round_at_one_near x Hx). apply round_at_one_near.
      rewrite Rminus_diag, Rabs_R0. lra.
    + assert (E : round_at_one x = x).
      { unfold round_at_one.
        destruct (Rle_dec (Rabs (x - 1)) (/ 2 ^ 54)); [contradiction|reflexivity]. }
      rewrite E. exact E.
Qed.

Lemma cumsum_from_with_exact (acc : R) (x : list R) :
  cumsum_from_with (fun v => v) acc x = Np.cumsum_from acc x.
Proof.
  revert acc. induction x as [|v t IH]; intros acc; simpl; [reflexivity|].
  rewrite IH. reflexivity.
Qed.

Lemma cumsum_with_exact (x : list R) : cumsum_with (fun v => v) x = Np.cumsum x.
Proof. apply cumsum_from_with_exact. Qed.

Lemma cumsum_from_with_length (fl : R -> R) (acc : R) (x : list R) :
  length (cumsum_from_with fl acc x) = length x.
Proof.
  revert acc. induction x as [|v t IH]; intros acc; simpl; [reflexivity|].
  rewrite IH. reflexivity.
Qed.

Lemma cumsum_from_with_nth_S (fl : R -> R) (acc : R) (x : list R) (i : nat) :
  (S i < length x)%nat ->
  nth (S i) (cumsum_from_with fl acc x) 0
  = fl (nth i (cumsum_from_with fl acc x) 0 + nth (S i) x 0).
Proof.
  revert acc i. induction x as [|v t IH]; intros acc i Hi; [simpl in Hi; lia|].
  destruct i as [|i].
  - destruct t as [|w t]; [simpl in Hi; lia|reflexivity].
  - change (nth (S i) (cumsum_from_with fl (fl (acc + v)) t) 0
            = fl (nth i (cumsum_from_with fl (fl (acc + v)) t) 0 + nth (S i) t 0)).
    apply IH. simpl in Hi. lia.
Qed.

(** Every partial sum is a rounded value, and rounding it again changes
    nothing. *)
Lemma cumsum_with_fixed (fl : R -> R) (x : list R) (i : nat) :
  rounding fl -> (i < length x)%nat ->
  fl (nth i (cumsum_with fl x) 0) = nth i (cumsum_with fl x) 0.
Proof.
  intros [_ Hid] Hi. unfold cumsum_with. destruct i as [|i].
  - destruct x as [|v t]; [simpl in Hi; lia|]. simpl. apply Hid.
  - rewrite cumsum_from_with_nth_S by exact Hi. apply Hid.
Qed.

(** The cumulative sums of non-negative numbers never decrease, which is
    what the binary search of [np.searchsorted] relies on. *)
Lemma cumsum_with_sorted (fl : R -> R) (x : list R) (i j : nat) :
  rounding fl -> Forall (fun v => 0 <= v) x -> (i <= j < length x)%nat ->
  nth i (cumsum_with fl x) 0 <= nth j (cumsum_with fl x) 0.
Proof.
  intros Hfl Hnn [Hij Hj]. induction Hij as [|j Hij IH]; [lra|].
  eapply Rle_trans; [apply IH; lia|].
  unfold cumsum_with at 2. rewrite cumsum_from_with_nth_S by exact Hj.
  fold (cumsum_with fl x).
  rewrite <- (cumsum_with_fixed fl x j Hfl ltac:(lia)) at 1.
  destruct Hfl as [Hmono _]. apply Hmono.
  rewrite Forall_forall in Hnn. specialize (Hnn (nth (S j) x 0) (nth_In _ _ Hj)). lra.
Qed.

(** ** The nucleus of top-p sampling *)

Lemma top_p_sampling_exact (argsort : list R -> list nat) (logits : list R)
    (p : R) (g : rng) :
  top_p_sampling_with exp (fun v => v) argsort logits p g
  = top_p_sampling argsort logits p g.
Proof.
  unfold top_p_sampling_with, top_p_sampling, top_p_selected_with, top_p_selected.
  change (softmax_at_with exp) with softmax_at.
  destruct (softmax_at logits (rev (argsort logits))) as [probs|e|]; try reflexivity.
  cbn [bind]. rewrite cumsum_with_exact. reflexivity.
Qed.

(** What [top_p_selected_with] computes: the prefix of the descending order
    that ends at the first cumulative probability reaching [p]. *)
Lemma top_p_selected_with_eq (e fl : R -> R) (argsort : list R -> list nat)
    (logits : list R) (p : R) :
  exp_like e -> logits <> [] -> is_argsort logits (argsort logits) ->
  let order := rev (argsort logits) in
  top_p_selected_with e fl argsort logits p =
  Ok (firstn (Np.searchsorted
                (cumsum_with fl (gather (softmax_value e logits) order)) p + 1)
        order).
Proof.
  intros He Hne Hs order. destruct (rev_order _ _ Hs) as [Hp _]. fold order in Hp.
  assert (Hlen : length order = length logits).
  { rewrite (Permutation_length Hp). apply length_seq. }
  unfold top_p_selected_with. fold order.
  rewrite softmax_at_with_value.
  - cbn [bind]. rewrite softmax_value_gather by assumption. reflexivity.
  - exact He.
  - intros E. rewrite E in Hlen. destruct logits; [congruence|discriminate].
  - apply Forall_forall. intros i Hi. apply (Permutation_in _ Hp), in_seq in Hi. lia.
Qed.

(** C4, amended.  For a non-empty logit vector and [0 < p <= 1], with [order]
    the ids by descending logit, [P] the softmax over the whole vocabulary
    and [cum] the cumulative sums of [P] along [order] as [np.cumsum]
    computes them: [top_p_sampling] selects the shortest prefix of [order]
    whose cumulative probability reaches [p], the id that crosses the
    threshold included (all of [order] when none reaches [p]), and returns
    one of its ids.  The prefix is the whole vocabulary exactly when no
    shorter prefix reaches [p]; at [p = 1] that is not always so. *)
Theorem top_p_sampling_in_nucleus (np_exp np_round : R -> R)
    (argsort : list R -> list nat) (logits : list R) (p : R) (g : rng) :
  exp_like np_exp ->
  rounding np_round ->
  logits <> [] ->
  is_argsort logits (argsort logits) ->
  0 < p <= 1 ->
  rng_valid g ->
  let N := length logits in
  let order := rev (argsort logits) in
  let P := softmax_value np_exp logits in
  let cum := cumsum_with np_round (gather P order) in
  softmax_with np_exp (map Fin logits) = Ok P /\
  Permutation order (seq 0 N) /\
  (forall a b, (a < b < N)%nat ->
               nth (nth b order 0%nat) logits 0 <= nth (nth a order 0%nat) logits 0) /\
  length cum = N /\
  nth 0 cum 0 = np_round (0 + nth (nth 0 order 0%nat) P 0) /\
  (forall i, (S i < N)%nat ->
     nth (S i) cum 0 = np_round (nth i cum 0 + nth (nth (S i) order 0%nat) P 0)) /\
  (forall i j, (i <= j < N)%nat -> nth i cum 0 <= nth j cum 0) /\
  exists m sel r g',
    (1 <= m <= N)%nat /\
    sel = firstn m order /\
    top_p_selected_with np_exp np_round argsort logits p = Ok sel /\
    (forall i, (S i < m)%nat -> nth i cum 0 < p) /\
    ((m < N)%nat -> p <= nth (m - 1) cum 0) /\
    top_p_sampling_with np_exp np_round argsort logits p g = (Ok r, g') /\
    In r sel /\
    (sel = order <-> forall i, (S i < N)%nat -> nth i cum 0 < p).
Proof.
  intros He Hfl Hne Hs Hp Hg N order P cum.
  destruct (rev_order _ _ Hs) as [Hperm Hdesc]. fold order N in Hperm, Hdesc.
  assert (Hlen : length order = N).
  { rewrite (Permutation_length Hperm). apply length_seq. }
  assert (HN : (0 < N)%nat).
  { unfold N. destruct logits; [congruence|simpl; lia]. }
  assert (Hgl : length (gather P order) = N).
  { unfold gather. rewrite length_map. exact Hlen. }
  assert (Hcl : length cum = N).
  { unfold cum, cumsum_with. rewrite cumsum_from_with_length. exact Hgl. }
  assert (Hgn : forall i, (i < N)%nat ->
                          nth i (gather P order) 0 = nth (nth i order 0%nat) P 0).
  { intros i Hi. unfold gather.
    rewrite (nth_indep _ 0 ((fun k => nth k P 0) 0%nat))
      by (rewrite length_map; lia).
    apply (map_nth (fun k => nth k P 0)). }
  assert (Hnn : Forall (fun v => 0 <= v) (gather P order)).
  { destruct (softmax_value_dist np_exp logits He Hne) as [Hd _].
    apply Forall_forall. intros v Hv. unfold gather in Hv. apply in_map_iff in Hv.
    destruct Hv as [k [<- Hk]]. apply (Permutation_in _ Hperm), in_seq in Hk.
    rewrite Forall_forall in Hd.
    assert (In (nth k P 0) P).
    { apply nth_In. unfold P. rewrite softmax_value_length. fold N. lia. }
    specialize (Hd _ H). lra. }
  split; [apply softmax_with_fin; assumption|].
  split; [exact Hperm|]. split; [exact Hdesc|]. split; [exact Hcl|].
  split; [|split; [|split]].
  - rewrite <- (Hgn 0%nat HN). unfold cum, cumsum_with.
    destruct (gather P order) as [|v t]; [simpl in Hgl; lia|reflexivity].
  - intros i Hi. rewrite <- (Hgn (S i) Hi). unfold cum, cumsum_with.
    apply cumsum_from_with_nth_S. rewrite Hgl. exact Hi.
  - intros i j Hij. apply cumsum_with_sorted; [exact Hfl|exact Hnn|].
    rewrite Hgl. exact Hij.
  - pose proof (top_p_selected_with_eq np_exp np_round argsort logits p He Hne Hs)
      as Hsel.
    cbv zeta in Hsel. fold order P cum in Hsel.
    set (cutoff := Np.searchsorted cum p) in *.
    destruct (searchsorted_spec cum p) as [Hle [Hbelow Hat]].
    fold cutoff in Hle, Hbelow, Hat. rewrite Hcl in Hle, Hat.
    set (m := Nat.min (cutoff + 1) N).
    assert (Hm : firstn (cutoff + 1) order = firstn m order).
    { unfold m. destruct (Nat.le_gt_cases (cutoff + 1) N) as [H|H].
      - rewrite Nat.min_l by exact H. reflexivity.
      - rewrite Nat.min_r by lia. rewrite !firstn_all2 by lia. reflexivity. }
    rewrite Hm in Hsel.
    assert (Hml : length (firstn m order) = m).
    { rewrite length_firstn. unfold m. lia. }
    assert (Hrange : Forall (fun i => (i < length logits)%nat) (firstn m order)).
    { apply Forall_forall. intros i Hi.
      assert (In i order).
      { rewrite <- (firstn_skipn m order). apply in_or_app. left. exact Hi. }
      apply (Permutation_in _ Hperm), in_seq in H. fold N. lia. }
    assert (Hnonempty : firstn m order <> []).
    { intros E. rewrite E in Hml. simpl in Hml. unfold m in Hml. lia. }
    destruct (sample_in_selection_with np_exp logits _ g He Hnonempty Hrange Hg)
      as [r [Hr Hin]].
    exists m, (firstn m order), r, (fun i => g (1 + i)%nat).
    split; [unfold m; lia|]. split; [reflexivity|]. split; [exact Hsel|].
    split; [|split; [|split; [|split]]].
    + intros i Hi. apply Hbelow. unfold m in Hi. lia.
    + intros HmN. assert (Hc : (cutoff < N)%nat) by (unfold m in HmN; lia).
      replace (m - 1)%nat with cutoff by (unfold m; lia). apply Hat, Hc.
    + unfold top_p_sampling_with. rewrite Hsel. cbn [with_outcome]. exact Hr.
    + exact Hin.
    + split.
      * intros E i Hi. apply Hbelow.
        apply (f_equal (@length nat)) in E. rewrite Hml, Hlen in E.
        unfold m in E. lia.
      * intros Hall.
        assert (HmN : m = N).
        { destruct (Nat.eq_dec m N) as [E|E]; [exact E|exfalso].
          assert (Hc : (S cutoff < N)%nat) by (unfold m in E; lia).
          specialize (Hall cutoff Hc).
          assert (p <= nth cutoff cum 0) by (apply Hat; lia). lra. }
        rewrite HmN, <- Hlen. apply firstn_all.
Qed.

Lemma top_p_sampling_in_nucleus_witness :
  let logits := [1; 3; 2] in
  let N := length logits in
  let order := rev (argsort_stable logits) in
  let P := softmax_value exp_float logits in
  let cum := cumsum_with round_at_one (gather P order) in
  softmax_with exp_float (map Fin logits) = Ok P /\
  Permutation order (seq 0 N) /\
  (forall a b, (a < b < N)%nat ->
               nth (nth b order 0%nat) logits 0 <= nth (nth a order 0%nat) logits 0) /\
  length cum = N /\
  nth 0 cum 0 = round_at_one (0 + nth (nth 0 order 0%nat) P 0) /\
  (forall i, (S i < N)%nat ->
     nth (S i) cum 0 = round_at_one (nth i cum 0 + nth (nth (S i) order 0%nat) P 0)) /\
  (forall i j, (i <= j < N)%nat -> nth i cum 0 <= nth j cum 0) /\
  exists m sel r g',
    (1 <= m <= N)%nat /\
    sel = firstn m order /\
    top_p_selected_with exp_float round_at_one argsort_stable logits 1 = Ok sel /\
    (forall i, (S i < m)%nat -> nth i cum 0 < 1) /\
    ((m < N)%nat -> 1 <= nth (m - 1) cum 0) /\
    top_p_sampling_with exp_float round_at_one argsort_stable logits 1 (fun _ => / 2)
    = (Ok r, g') /\
    In r sel /\
    (sel = order <-> forall i, (S i < N)%nat -> nth i cum 0 < 1).
Proof.
  apply (top_p_sampling_in_nucleus exp_float round_at_one argsort_stable
           [1; 3; 2] 1 (fun _ => / 2)).
  - exact exp_like_exp_float.
  - exact rounding_round_at_one.
  - discriminate.
  - apply argsort_stable_spec.
  - lra.
  - intros n. lra.
Defined.

Lemma softmax_value_underflow :
  softmax_value exp_float [0; - 1000] = [1; 0].
Proof.
  assert (Hm : row_max [0; - 1000] = 0).
  { unfold row_max. simpl. apply Rmax_left. lra. }
  unfold softmax_value. rewrite Hm. simpl.
  rewrite (exp_float_underflow (- 1000 - 0)) by lra.
  rewrite (exp_float_exact (0 - 0)) by lra.
  rewrite Rminus_diag, exp_0. f_equal; [field|f_equal; field].
Qed.

(** C4, as stated, fails at [p = 1] when a probability underflows: on the
    logits [0, -1000] the smaller one has [np.exp(-1000) = 0.0], the
    probabilities are [1, 0], the cumulative sums [1, 1], the first already
    reaches [p = 1], and only id 0 is selected and returned, with or without
    rounding of the sums. *)
Lemma top_p_underflow_counterexample :
  let logits := [0; - 1000] in
  is_argsort logits (argsort_stable logits) /\
  rev (argsort_stable logits) = [0%nat; 1%nat] /\
  softmax_with exp_float (map Fin logits) = Ok [1; 0] /\
  top_p_selected_with exp_float (fun v => v) argsort_stable logits 1 = Ok [0%nat] /\
  top_p_selected_with exp_float round_at_one argsort_stable logits 1 = Ok [0%nat] /\
  ~ Permutation [0%nat] (seq 0 (length logits)) /\
  forall g, rng_valid g ->
    fst (top_p_sampling_with exp_float round_at_one argsort_stable logits 1 g)
    = Ok 0%nat.
Proof.
  intros logits.
  assert (Ho : rev (argsort_stable logits) = [0%nat; 1%nat]).
  { unfold argsort_stable, logits. simpl.
    destruct (Rle_dec 0 (- 1000)) as [H|_]; [lra|reflexivity]. }
  assert (Hne : logits <> []) by discriminate.
  assert (Hsel : top_p_selected_with exp_float round_at_one argsort_stable logits 1
                 = Ok [0%nat]).
  { rewrite (top_p_selected_with_eq exp_float round_at_one argsort_stable logits 1
               exp_like_exp_float Hne (argsort_stable_spec logits)).
    rewrite Ho. unfold logits. rewrite softmax_value_underflow. simpl.
    rewrite (round_at_one_near (0 + 1))
      by (replace (0 + 1 - 1) with 0 by lra; rewrite Rabs_R0;
          left; apply Rinv_0_lt_compat, pow_lt; lra).
    destruct (Rle_dec 1 1) as [_|H]; [reflexivity|lra]. }
  split; [apply argsort_stable_spec|]. split; [exact Ho|].
  split; [|split; [|split; [exact Hsel|split]]].
  - rewrite softmax_with_fin by (exact exp_like_exp_float || exact Hne).
    unfold logits. rewrite softmax_value_underflow. reflexivity.
  - rewrite (top_p_selected_with_eq exp_float (fun v => v) argsort_stable logits 1
               exp_like_exp_float Hne (argsort_stable_spec logits)).
    rewrite Ho. unfold logits. rewrite softmax_value_underflow. simpl.
    destruct (Rle_dec 1 (0 + 1)) as [_|H]; [reflexivity|lra].
  - intros H. apply Permutation_length in H. discriminate H.
  - intros g Hg. unfold top_p_sampling_with. rewrite Hsel. cbn [with_outcome].
    destruct (sample_in_selection_with exp_float logits [0%nat] g exp_like_exp_float)
      as [r [Hr Hin]]; [discriminate|repeat constructor; simpl; lia|exact Hg|].
    rewrite Hr. destruct Hin as [<-|Hf]; [reflexivity|destruct Hf].
Qed.

Lemma exp_scale (n : nat) (x : R) : exp (INR n * x) = exp x ^ n.
Proof.
  induction n as [|n IH]; [simpl; rewrite Rmult_0_l; apply exp_0|].
  rewrite S_INR, Rmult_plus_distr_r, Rmult_1_l, exp_plus, IH. simpl. ring.
Qed.

Lemma exp_40_large : 2 ^ 54 <= exp 40.
Proof.
  assert (H16 : 17 / 16 <= exp (/ 16)).
  { pose proof (exp_ineq1_le (/ 16)). lra. }
  assert (H1 : 13 / 5 <= exp 1).
  { replace 1 with (INR 16 * / 16) by (simpl; lra). rewrite exp_scale.
    eapply Rle_trans; [|apply pow_incr; split; [|exact H16]; lra].
    simpl. lra. }
  replace 40 with (INR 40 * 1) by (simpl; lra). rewrite exp_scale.
  eapply Rle_trans; [|apply pow_incr; split; [|exact H1]; lra].
  simpl. lra.
Qed.

(** The same happens without underflow, by rounding alone.  On the logits
    [0, -40] both probabilities are positive, but the first is within
    [2^-54] of 1, the first cumulative sum is rounded to [1.0], and [p = 1]
    selects id 0 only. *)
Lemma top_p_rounding_example :
  let logits := [0; - 40] in
  (forall v, In v (softmax_value exp_float logits) -> 0 < v) /\
  top_p_selected_with exp_float round_at_one argsort_stable logits 1 = Ok [0%nat].
Proof.
  intros logits.
  assert (Ho : rev (argsort_stable logits) = [0%nat; 1%nat]).
  { unfold argsort_stable, logits. simpl.
    destruct (Rle_dec 0 (- 40)) as [H|_]; [lra|reflexivity]. }
  assert (Hne : logits <> []) by discriminate.
  assert (Hm : row_max logits = 0).
  { unfold row_max, logits. simpl. apply Rmax_left. lra. }
  pose proof (exp_pos (- 40)) as He.
  assert (Hsmall : exp (- 40) <= / 2 ^ 54).
  { replace (exp (- 40)) with (/ exp 40) by (rewrite <- exp_Ropp; f_equal; lra).
    apply Rinv_le_contravar; [apply pow_lt; lra|apply exp_40_large]. }
  assert (HP : softmax_value exp_float logits
               = [1 / (1 + exp (- 40)); exp (- 40) / (1 + exp (- 40))]).
  { unfold softmax_value. rewrite Hm. unfold logits. simpl.
    rewrite (exp_float_exact (- 40 - 0)) by lra.
    rewrite (exp_float_exact (0 - 0)) by lra.
    rewrite Rminus_diag, exp_0. replace (- 40 - 0) with (- 40) by lra.
    replace (1 + (exp (- 40) + 0)) with (1 + exp (- 40)) by lra. reflexivity. }
  assert (Hd : 0 < / (1 + exp (- 40))) by (apply Rinv_0_lt_compat; lra).
  split.
  - rewrite HP. intros v [<-|[<-|Hf]]; [| |destruct Hf]; unfold Rdiv.
    + lra.
    + apply Rmult_lt_0_compat; assumption.
  - rewrite (top_p_selected_with_eq exp_float round_at_one argsort_stable logits 1
               exp_like_exp_float Hne (argsort_stable_spec logits)).
    rewrite Ho, HP. simpl.
    rewrite (round_at_one_near (0 + 1 / (1 + exp (- 40)))).
    + destruct (Rle_dec 1 1) as [_|H]; [reflexivity|lra].
    + replace (0 + 1 / (1 + exp (- 40)) - 1)
        with (- (exp (- 40) / (1 + exp (- 40)))) by (field; lra).
      rewrite Rabs_Ropp, Rabs_pos_eq.
      * apply Rle_trans with (exp (- 40)); [|exact Hsmall].
        apply (Rmult_le_reg_r (1 + exp (- 40))); [lra|].
        unfold Rdiv. rewrite Rmult_assoc, Rinv_l by lra. nra.
      * unfold Rdiv. apply Rmult_le_pos; lra.
Qed.

(** ** Cross-entropy when a probability may be zero *)

Lemma mapM_first_nonfinite {A B : Type} (f : A -> outcome B) (l : list A) :
  (forall a, In a l -> (exists b, f a = Ok b) \/ f a = NonFinite) ->
  Exists (fun a => f a = NonFinite) l -> mapM f l = NonFinite.
Proof.
  intros Hall Hex. induction Hex as [a t Ha|a t _ IH]; simpl.
  - rewrite Ha. reflexivity.
  - rewrite IH by (intros b Hb; apply Hall; right; exact Hb).
    destruct (Hall a (or_introl eq_refl)) as [[b Hb]|Hr]; [rewrite Hb|rewrite Hr];
      reflexivity.
Qed.

Lemma softmax_value_shape (e : R -> R) (T N : nat) (logits : Np.matrix) :
  Np.has_shape T N logits -> Np.has_shape T N (map (softmax_value e) logits).
Proof.
  intros [HsT Hr]. split; [rewrite length_map; exact HsT|].
  apply Forall_forall. intros r Hin. apply in_map_iff in Hin.
  destruct Hin as [row [<- Hrow]]. rewrite softmax_value_length.
  rewrite Forall_forall in Hr. apply Hr, Hrow.
Qed.

(** The loss is computed from the probabilities picked at the targets. *)
Lemma cross_entropy_with_picked (e : R -> R) (logits : Np.matrix) (targets : list Z)
    (T N : nat) :
  exp_like e -> (0 < N)%nat -> Np.has_shape T N logits ->
  (length targets <= T)%nat ->
  Forall (fun t => (- Z.of_nat N <= t < Z.of_nat N)%Z) targets ->
  cross_entropy_loss_with e logits targets
  = (loss <- mapM (fun p => l <- Np.log p ;; Ok (- l))
               (picked_probs e N logits targets) ;;
     Np.mean loss).
Proof.
  intros He HN Hs Hl Ht. unfold cross_entropy_loss_with.
  rewrite softmax2_with_fin by (exact He || apply (rows_nonempty T N); assumption).
  cbn [bind].
  rewrite (take2_targets _ targets T N (softmax_value_shape e T N logits Hs) Hl Ht).
  reflexivity.
Qed.

Lemma picked_probs_bounds (e : R -> R) (logits : Np.matrix) (targets : list Z)
    (T N : nat) :
  exp_like e -> (0 < N)%nat -> Np.has_shape T N logits ->
  Forall (fun t => (- Z.of_nat N <= t < Z.of_nat N)%Z) targets ->
  Forall (fun p => 0 <= p <= 1) (picked_probs e N logits targets).
Proof.
  intros He HN Hs Ht. apply Forall_forall. intros v Hv.
  unfold picked_probs, zip_with in Hv. apply in_map_iff in Hv.
  destruct Hv as [[r t] [<- Hrt]]. simpl.
  pose proof (in_combine_l _ _ _ _ Hrt) as Hr.
  pose proof (in_combine_r _ _ _ _ Hrt) as Htt.
  apply in_map_iff in Hr. destruct Hr as [row [<- Hrow]].
  pose proof (has_shape_In T N logits row Hs Hrow) as Hlen.
  assert (Hne : row <> []) by (intros ->; simpl in Hlen; lia).
  destruct (softmax_value_dist e row He Hne) as [Hb _].
  rewrite Forall_forall in Hb, Ht. apply Hb, nth_In.
  rewrite softmax_value_length, Hlen. apply row_of_range, Ht, Htt.
Qed.

(** The mean of the negated logarithms: a number when every probability is
    positive, [inf] as soon as one is zero. *)
Lemma nll_positive (picked : list R) :
  picked <> [] -> Forall (fun p => 0 < p) picked ->
  (loss <- mapM (fun p => l <- Np.log p ;; Ok (- l)) picked ;; Np.mean loss)
  = Ok (Np.sum (map (fun p => - ln p) picked) / INR (length picked)).
Proof.
  intros Hne Hpos. rewrite (mapM_Ok _ (fun v => - ln v)).
  - cbn [bind]. unfold Np.mean. rewrite length_map. apply div_Ok.
    apply not_0_INR. destruct picked; [congruence|discriminate].
  - intros v Hv. rewrite Forall_forall in Hpos. unfold Np.log.
    destruct (Rlt_dec 0 v) as [_|C]; [reflexivity|]. exfalso. apply C, Hpos, Hv.
Qed.

Lemma nll_zero (picked : list R) :
  Exists (fun p => p = 0) picked ->
  (loss <- mapM (fun p => l <- Np.log p ;; Ok (- l)) picked ;; Np.mean loss)
  = NonFinite.
Proof.
  intros Hz. rewrite mapM_first_nonfinite; [reflexivity| |].
  - intros v _. unfold Np.log. destruct (Rlt_dec 0 v); [left; exists (- ln v)|right]; reflexivity.
  - eapply Exists_impl; [|exact Hz]. simpl. intros v ->. unfold Np.log.
    destruct (Rlt_dec 0 0) as [C|_]; [lra|reflexivity].
Qed.

Lemma row_of_nonneg (N : nat) (t : Z) : (0 <= t)%Z -> row_of N t = Z.to_nat t.
Proof.
  intros H. unfold row_of. destruct (Z.ltb_spec t 0); [lia|reflexivity].
Qed.

(** With targets in [0, N) the picked probabilities are the entries
    [probs[i, targets[i]]]. *)
Lemma picked_probs_entries (e : R -> R) (logits : Np.matrix) (targets : list Z)
    (T N : nat) :
  Np.has_shape T N logits -> length targets = T ->
  Forall (fun t => (0 <= t < Z.of_nat N)%Z) targets ->
  picked_probs e N logits targets
  = map (fun i => entry (map (softmax_value e) logits) i (Z.to_nat (nth i targets 0%Z)))
      (seq 0 T).
Proof.
  intros [HsT _] Hl Ht. unfold picked_probs. apply (nth_ext _ _ 0 0).
  - rewrite zip_with_length_min, !length_map, length_seq. lia.
  - intros k Hk. rewrite zip_with_length_min, length_map in Hk.
    rewrite (zip_with_nth _ _ _ [] 0%Z 0 k) by (rewrite ?length_map; lia).
    set (f := fun i => entry (map (softmax_value e) logits) i
                         (Z.to_nat (nth i targets 0%Z))).
    rewrite (nth_indep (map f (seq 0 T)) 0 (f 0%nat))
      by (rewrite length_map, length_seq; lia).
    rewrite (map_nth f), seq_nth by lia. unfold f, entry. simpl.
    rewrite row_of_nonneg; [reflexivity|].
    rewrite Forall_forall in Ht. apply Ht, nth_In. lia.
Qed.

(** C6.  On a [T x N] array of logits and [T] targets, each in [0, N), the
    loss is the mean over the [T] rows of the negated logarithm of the
    softmax probability at the row's target: a number when each of these
    probabilities is positive, and infinite as soon as one of them is zero,
    its logarithm being [-inf]. *)
Theorem cross_entropy_loss_is_mean_nll (np_exp : R -> R) (logits : Np.matrix)
    (targets : list Z) (T N : nat) :
  exp_like np_exp ->
  (0 < T)%nat -> (0 < N)%nat ->
  Np.has_shape T N logits -> length targets = T ->
  Forall (fun t => (0 <= t < Z.of_nat N)%Z) targets ->
  let probs := map (softmax_value np_exp) logits in
  let picked := map (fun i => entry probs i (Z.to_nat (nth i targets 0%Z))) (seq 0 T) in
  softmax2_with np_exp (map (map Fin) logits) = Ok probs /\
  Forall (fun p => 0 <= p <= 1) picked /\
  (Forall (fun p => 0 < p) picked ->
   cross_entropy_loss_with np_exp logits targets
   = Ok (Np.sum (map (fun p => - ln p) picked) / INR T)) /\
  (Exists (fun p => p = 0) picked ->
   cross_entropy_loss_with np_exp logits targets = NonFinite).
Proof.
  intros He HT HN Hs Hl Ht probs picked.
  assert (Ht' : Forall (fun t => (- Z.of_nat N <= t < Z.of_nat N)%Z) targets).
  { eapply Forall_impl; [|exact Ht]. simpl. intros; lia. }
  pose proof (cross_entropy_with_picked np_exp logits targets T N He HN Hs
                ltac:(lia) Ht') as Hloss.
  pose proof (picked_probs_bounds np_exp logits targets T N He HN Hs Ht') as Hb.
  rewrite (picked_probs_entries np_exp logits targets T N Hs Hl Ht) in Hloss, Hb.
  fold probs picked in Hloss, Hb.
  assert (Hlen : length picked = T).
  { unfold picked. rewrite length_map, length_seq. reflexivity. }
  split; [|split; [exact Hb|split]].
  - apply softmax2_with_fin; [exact He|apply (rows_nonempty T N); assumption].
  - intros Hpos. rewrite Hloss, nll_positive, Hlen; [reflexivity| |exact Hpos].
    intros E. rewrite E in Hlen. simpl in Hlen. lia.
  - intros Hz. rewrite Hloss. apply nll_zero, Hz.
Qed.

Lemma cross_entropy_loss_is_mean_nll_witness :
  let logits := [[1000; 0]; [0; 0]] in
  let targets := [1%Z; 0%Z] in
  let probs := map (softmax_value exp_float) logits in
  let picked := map (fun i => entry probs i (Z.to_nat (nth i targets 0%Z))) (seq 0 2) in
  softmax2_with exp_float (map (map Fin) logits) = Ok probs /\
  Forall (fun p => 0 <= p <= 1) picked /\
  (Forall (fun p => 0 < p) picked ->
   cross_entropy_loss_with exp_float logits targets
   = Ok (Np.sum (map (fun p => - ln p) picked) / INR 2)) /\
  (Exists (fun p => p = 0) picked ->
   cross_entropy_loss_with exp_float logits targets = NonFinite).
Proof.
  apply (cross_entropy_loss_is_mean_nll exp_float [[1000; 0]; [0; 0]] [1%Z; 0%Z] 2 2).
  - exact exp_like_exp_float.
  - lia.
  - lia.
  - split; [reflexivity|repeat constructor].
  - reflexivity.
  - repeat constructor; simpl; lia.
Defined.

(** Both cases occur.  On logits [1000, 0] with target 1 the probability of
    the target is [np.exp(-1000) / 1 = 0.0] and the loss is infinite; with
    target 0 it is [-log 1 = 0]. *)
Lemma softmax_value_underflow_first :
  softmax_value exp_float [1000; 0] = [1; 0].
Proof.
  assert (Hm : row_max [1000; 0] = 1000).
  { unfold row_max. simpl. apply Rmax_left. lra. }
  unfold softmax_value. rewrite Hm. simpl.
  rewrite (exp_float_underflow (0 - 1000)) by lra.
  rewrite (exp_float_exact (1000 - 1000)) by lra.
  rewrite Rminus_diag, exp_0. f_equal; [field|f_equal; field].
Qed.

Lemma cross_entropy_underflow :
  cross_entropy_loss_with exp_float [[1000; 0]] [1%Z] = NonFinite /\
  cross_entropy_loss_with exp_float [[1000; 0]] [0%Z] = Ok 0.
Proof.
  assert (Hs : Np.has_shape 1 2 [[1000; 0]]) by (split; [reflexivity|repeat constructor]).
  split.
  - rewrite (cross_entropy_with_picked exp_float _ _ 1 2 exp_like_exp_float
               ltac:(lia) Hs) by (simpl; try lia; repeat constructor; simpl; lia).
    apply nll_zero. unfold picked_probs. simpl.
    rewrite softmax_value_underflow_first. left. reflexivity.
  - rewrite (cross_entropy_with_picked exp_float _ _ 1 2 exp_like_exp_float
               ltac:(lia) Hs) by (simpl; try lia; repeat constructor; simpl; lia).
    unfold picked_probs. cbn [map]. rewrite softmax_value_underflow_first.
    unfold zip_with. simpl. unfold Np.log.
    destruct (Rlt_dec 0 1) as [_|C]; [|lra]. simpl. unfold Np.mean. simpl.
    rewrite div_Ok by lra. f_equal. rewrite ln_1. field.
Qed.

Lemma wrap_row_of (N : nat) (t : Z) :
  (- Z.of_nat N <= t < Z.of_nat N)%Z ->
  row_of N (if (t <? 0)%Z then (t + Z.of_nat N)%Z else t) = row_of N t.
Proof.
  intros H. unfold row_of at 2.
  destruct (Z.ltb_spec t 0); apply row_of_nonneg; lia.
Qed.

(** X16.  [cross_entropy_loss] accepts fewer targets than rows and negative
    targets.  With fewer targets the rows beyond [len(targets)] are ignored:
    the call on the first [len(targets)] rows has the same outcome.  A
    target [t] in [-N, 0) stands for class [N + t]: the call with every such
    target replaced has the same outcome. *)
Theorem cross_entropy_fewer_or_negative_targets (np_exp : R -> R)
    (logits : Np.matrix) (targets : list Z) (T N : nat) :
  exp_like np_exp ->
  (0 < N)%nat -> Np.has_shape T N logits ->
  (length targets <= T)%nat ->
  Forall (fun t => (- Z.of_nat N <= t < Z.of_nat N)%Z) targets ->
  cross_entropy_loss_with np_exp (firstn (length targets) logits) targets
  = cross_entropy_loss_with np_exp logits targets /\
  cross_entropy_loss_with np_exp logits
    (map (fun t => if (t <? 0)%Z then (t + Z.of_nat N)%Z else t) targets)
  = cross_entropy_loss_with np_exp logits targets.
Proof.
  intros He HN Hs Hl Ht.
  rewrite (cross_entropy_with_picked np_exp logits targets T N He HN Hs Hl Ht).
  split.
  - pose proof (firstn_shape T N (length targets) logits Hl Hs) as Hs'.
    rewrite (cross_entropy_with_picked np_exp _ targets (length targets) N He HN Hs'
               ltac:(lia) Ht).
    unfold picked_probs, zip_with. rewrite <- firstn_map.
    rewrite <- (combine_firstn_r (map (softmax_value np_exp) logits) targets).
    reflexivity.
  - set (wrap := fun t => if (t <? 0)%Z then (t + Z.of_nat N)%Z else t).
    assert (Ht' : Forall (fun t => (- Z.of_nat N <= t < Z.of_nat N)%Z) (map wrap targets)).
    { apply Forall_forall. intros w Hw. apply in_map_iff in Hw.
      destruct Hw as [t [<- Hin]]. rewrite Forall_forall in Ht.
      specialize (Ht t Hin). unfold wrap. destruct (Z.ltb_spec t 0); lia. }
    rewrite (cross_entropy_with_picked np_exp logits (map wrap targets) T N He HN Hs
               ltac:(rewrite length_map; exact Hl) Ht').
    assert (E : picked_probs np_exp N logits (map wrap targets)
                = picked_probs np_exp N logits targets).
    { unfold picked_probs, zip_with. clear Hs Hl Ht'.
      generalize (map (softmax_value np_exp) logits) as rows.
      induction Ht as [|t ts Ht _ IH]; intros [|row rows]; simpl; try reflexivity.
      f_equal; [|apply IH]. fold (wrap t). unfold wrap. rewrite wrap_row_of by exact Ht.
      reflexivity. }
    rewrite E. reflexivity.
Qed.

Lemma cross_entropy_fewer_or_negative_targets_witness :
  cross_entropy_loss_with exp_float
    (firstn (length [(-1)%Z]) [[1; 2; 3]; [0; 0; 5]]) [(-1)%Z]
  = cross_entropy_loss_with exp_float [[1; 2; 3]; [0; 0; 5]] [(-1)%Z] /\
  cross_entropy_loss_with exp_float [[1; 2; 3]; [0; 0; 5]]
    (map (fun t => if (t <? 0)%Z then (t + Z.of_nat 3)%Z else t) [(-1)%Z])
  = cross_entropy_loss_with exp_float [[1; 2; 3]; [0; 0; 5]] [(-1)%Z].
Proof.
  apply (cross_entropy_fewer_or_negative_targets exp_float
           [[1; 2; 3]; [0; 0; 5]] [(-1)%Z] 2 3).
  - exact exp_like_exp_float.
  - lia.
  - split; [reflexivity|repeat constructor].
  - simpl. lia.
  - repeat constructor; simpl; lia.
Defined.

Lemma neg_ln_nonneg (p : R) : 0 < p <= 1 -> 0 <= - ln p.
Proof.
  intros [Hp [Hlt|E]]; [|rewrite E, ln_1; lra].
  pose proof (ln_increasing _ _ Hp Hlt) as Hln. rewrite ln_1 in Hln. lra.
Qed.

(** X17.  The loss is never negative and never an error: either every
    probability picked at a target is positive and the loss is a number
    [>= 0], or one of them is zero and the loss is infinite. *)
Theorem cross_entropy_nonneg (np_exp : R -> R) (logits : Np.matrix)
    (targets : list Z) (T N : nat) :
  exp_like np_exp ->
  (0 < T)%nat -> (0 < N)%nat -> Np.has_shape T N logits -> length targets = T ->
  Forall (fun t => (0 <= t < Z.of_nat N)%Z) targets ->
  let picked := picked_probs np_exp N logits targets in
  (Forall (fun p => 0 < p) picked /\
   exists v, cross_entropy_loss_with np_exp logits targets = Ok v /\ 0 <= v) \/
  (Exists (fun p => p = 0) picked /\
   cross_entropy_loss_with np_exp logits targets = NonFinite).
Proof.
  intros He HT HN Hs Hl Ht picked.
  assert (Ht' : Forall (fun t => (- Z.of_nat N <= t < Z.of_nat N)%Z) targets).
  { eapply Forall_impl; [|exact Ht]. simpl. intros; lia. }
  rewrite (cross_entropy_with_picked np_exp logits targets T N He HN Hs
             ltac:(lia) Ht').
  pose proof (picked_probs_bounds np_exp logits targets T N He HN Hs Ht') as Hb.
  fold picked in Hb |- *.
  assert (Hlen : length picked = T).
  { unfold picked, picked_probs. rewrite zip_with_length_min, length_map.
    destruct Hs as [HsT _]. lia. }
  destruct (Forall_Exists_dec (fun p => 0 < p) (Rlt_dec 0) picked) as [Hpos|Hex].
  - left. split; [exact Hpos|]. eexists. split.
    + apply nll_positive; [|exact Hpos].
      intros E. rewrite E in Hlen. simpl in Hlen. lia.
    + apply Rmult_le_pos.
      * apply sum_map_nonneg. intros p Hp. rewrite Forall_forall in Hpos, Hb.
        apply neg_ln_nonneg. specialize (Hpos p Hp). specialize (Hb p Hp). lra.
      * left. apply Rinv_0_lt_compat, lt_0_INR. lia.
  - right.
    assert (Hz : Exists (fun p => p = 0) picked).
    { apply Exists_exists in Hex. destruct Hex as [p [Hp Hn]].
      apply Exists_exists. exists p. split; [exact Hp|].
      rewrite Forall_forall in Hb. specialize (Hb p Hp). lra. }
    split; [exact Hz|apply nll_zero, Hz].
Qed.

Lemma cross_entropy_nonneg_witness :
  let picked := picked_probs exp_float 2 [[1000; 0]; [0; 0]] [1%Z; 0%Z] in
  (Forall (fun p => 0 < p) picked /\
   exists v, cross_entropy_loss_with exp_float [[1000; 0]; [0; 0]] [1%Z; 0%Z] = Ok v
             /\ 0 <= v) \/
  (Exists (fun p => p = 0) picked /\
   cross_entropy_loss_with exp_float [[1000; 0]; [0; 0]] [1%Z; 0%Z] = NonFinite).
Proof.
  apply (cross_entropy_nonneg exp_float [[1000; 0]; [0; 0]] [1%Z; 0%Z] 2 2); try lia.
  - exact exp_like_exp_float.
  - split; [reflexivity|repeat constructor].
  - reflexivity.
  - repeat constructor; simpl; lia.
Defined.

(** ** Softmax: what the subtraction of the maximum buys, and the order *)

(** X3.  On a non-empty real row the value [softmax] subtracts is an entry
    of the row and bounds every entry, so every exponential lies in [0, 1]
    (zero when it underflows), the one at the maximum is exactly 1, and the
    denominator lies between 1 and the length of the row: the division is
    always defined. *)
Theorem softmax_stable_exponents (np_exp : R -> R) (x : list R) :
  exp_like np_exp -> x <> [] ->
  exists m, amax (map Fin x) = Ok (Fin m) /\ In m x /\
    (forall v, In v x -> v <= m /\ 0 <= exp_shift_with np_exp m (Fin v) <= 1) /\
    exp_shift_with np_exp m (Fin m) = 1 /\
    1 <= Np.sum (map (exp_shift_with np_exp m) (map Fin x)) <= INR (length x) /\
    softmax_with np_exp (map Fin x)
    = Ok (map (fun v => exp_shift_with np_exp m (Fin v)
                        / Np.sum (map (exp_shift_with np_exp m) (map Fin x))) x).
Proof.
  intros He Hne. exists (row_max x).
  destruct (row_max_spec x Hne) as [Hin Hmax].
  destruct (exp_shifted_bounds np_exp x He Hne) as [Hb [H1 Hs]].
  assert (E : map (exp_shift_with np_exp (row_max x)) (map Fin x)
              = map (fun w => np_exp (w - row_max x)) x)
    by (rewrite map_map; reflexivity).
  split; [apply amax_row_max, Hne|]. split; [exact Hin|]. split; [|split; [|split]].
  - intros v Hv. split; [apply Hmax, Hv|apply Hb, Hv].
  - exact H1.
  - rewrite E. exact Hs.
  - rewrite E. apply softmax_with_fin; assumption.
Qed.

Lemma softmax_stable_exponents_witness :
  exists m, amax (map Fin [0; - 1000]) = Ok (Fin m) /\ In m [0; - 1000] /\
    (forall v, In v [0; - 1000] ->
               v <= m /\ 0 <= exp_shift_with exp_float m (Fin v) <= 1) /\
    exp_shift_with exp_float m (Fin m) = 1 /\
    1 <= Np.sum (map (exp_shift_with exp_float m) (map Fin [0; - 1000]))
      <= INR (length [0; - 1000]) /\
    softmax_with exp_float (map Fin [0; - 1000])
    = Ok (map (fun v => exp_shift_with exp_float m (Fin v)
                        / Np.sum (map (exp_shift_with exp_float m)
                                    (map Fin [0; - 1000]))) [0; - 1000]).
Proof.
  apply (softmax_stable_exponents exp_float [0; - 1000]).
  - exact exp_like_exp_float.
  - discriminate.
Defined.

(** X4.  Softmax keeps the order of the logits as far as the exponential
    does: with an exponential that never decreases, a larger logit never
    gets a smaller weight (equal logits get equal weights), every weight
    lies in [0, 1], and an id of largest logit gets at least [1/N].  A weight
    may be zero. *)
Theorem softmax_order_preserving (np_exp : R -> R) (x y : list R) (i j : nat) :
  exp_like np_exp ->
  (forall a b, a <= b -> np_exp a <= np_exp b) ->
  softmax_with np_exp (map Fin x) = Ok y ->
  (i < length x)%nat -> (j < length x)%nat ->
  0 <= nth i y 0 <= 1 /\
  (nth i x 0 <= nth j x 0 -> nth i y 0 <= nth j y 0) /\
  ((forall k, (k < length x)%nat -> nth k x 0 <= nth j x 0) ->
   / INR (length x) <= nth j y 0).
Proof.
  intros He Hmono Hy Hi Hj.
  assert (Hne : x <> []) by (intros ->; discriminate Hy).
  rewrite softmax_with_fin in Hy by assumption. injection Hy as <-.
  destruct (softmax_value_dist np_exp x He Hne) as [Hd _].
  destruct (exp_shifted_bounds np_exp x He Hne) as [_ [H1 [HS1 HSN]]].
  destruct (row_max_spec x Hne) as [Hin Hmax].
  rewrite (softmax_value_nth np_exp x j Hj).
  split; [|split].
  - rewrite Forall_forall in Hd. apply Hd, nth_In.
    rewrite softmax_value_length. exact Hi.
  - intros Hle. rewrite (softmax_value_nth np_exp x i Hi).
    set (S := Np.sum (map (fun w => np_exp (w - row_max x)) x)) in *.
    assert (HS : 0 < / S) by (apply Rinv_0_lt_compat; lra).
    unfold Rdiv. apply Rmult_le_compat_r; [lra|]. apply Hmono. lra.
  - intros Htop.
    assert (Em : nth j x 0 = row_max x).
    { apply Rle_antisym; [apply Hmax, nth_In, Hj|].
      destruct (In_nth _ _ 0 Hin) as [k [Hk <-]]. apply Htop, Hk. }
    rewrite Em, H1.
    set (S := Np.sum (map (fun w => np_exp (w - row_max x)) x)) in *.
    unfold Rdiv. rewrite Rmult_1_l. apply Rinv_le_contravar; lra.
Qed.

Lemma softmax_order_preserving_witness :
  0 <= nth 1 [1; 0] 0 <= 1 /\
  (nth 1 [1000; 0] 0 <= nth 0 [1000; 0] 0 -> nth 1 [1; 0] 0 <= nth 0 [1; 0] 0) /\
  ((forall k, (k < length [1000; 0])%nat -> nth k [1000; 0] 0 <= nth 0 [1000; 0] 0) ->
   / INR (length [1000; 0]) <= nth 0 [1; 0] 0).
Proof.
  apply (softmax_order_preserving exp_float [1000; 0] [1; 0] 1 0).
  - exact exp_like_exp_float.
  - exact exp_float_monotone.
  - rewrite softmax_with_fin by (exact exp_like_exp_float || discriminate).
    rewrite softmax_value_underflow_first. reflexivity.
  - simpl. lia.
  - simpl. lia.
Defined.

(** ** Temperature zero *)

(** X28.  [temperature_sampling] raises ValueError, and draws nothing, at
    temperature 0 and on an empty logit vector.  At [T = 0] the scaled
    logits are infinite or NaN, so are the probabilities, and
    [np.random.choice] rejects them: temperature 0 is not greedy decoding. *)
Theorem temperature_zero_raises (logits : list R) (T : R) (g : rng) :
  logits = [] \/ T = 0 ->
  temperature_sampling logits T g = (Raise ValueError, g).
Proof.
  intros H. unfold temperature_sampling.
  destruct logits as [|a t]; [reflexivity|].
  destruct H as [H|H]; [discriminate H|]. subst T.
  cbn [mapM]. unfold Np.div at 1.
  destruct (Req_dec_T 0 0) as [_|C]; [reflexivity|congruence].
Qed.

Lemma temperature_zero_raises_witness :
  temperature_sampling [1; 3; 2] 0 (fun _ => / 2) = (Raise ValueError, fun _ => / 2).
Proof.
  apply (temperature_zero_raises [1; 3; 2] 0 (fun _ => / 2)).
  right. reflexivity.
Defined.
